(** * EML parser of obsidian-eml-to-markdown: a shallow embedding

    The parser module (parseEml and its helpers) is embedded function by
    function.  JavaScript strings are sequences of UTF-16 code units, Buffers
    are sequences of bytes, the mutable [ParsedEmail] object handed to
    [parseMimePart] becomes explicit state passing, and an exception that
    escapes a function is the left injection of a sum.

    The file has three layers:
    - [JS]    : the string, Buffer and URI built-ins the parser calls;
    - [RegExp]: a backtracking matcher for the regular expressions of the
                source, written as syntax trees that mirror the literals;
    - [Eml]   : the parser itself and the helpers of the plugin that work on
                strings, followed by the verified properties. *)

From Stdlib Require Import Ascii String.
From Stdlib Require Import ZArith List Bool Lia Arith.
Import ListNotations.
Open Scope Z_scope.

(* ================================================================== *)
(** ** JavaScript strings and built-ins *)
(* ================================================================== *)

Module JS.

(** A string is its sequence of UTF-16 code units. *)
Definition jsstring := list Z.

(** A Buffer is its sequence of bytes, each in 0..255. *)
Definition Buffer := list Z.

(** Code unit of an ASCII character, and the string of an ASCII literal. *)
Definition ch (a : ascii) : Z := Z.of_nat (nat_of_ascii a).
Definition str (s : string) : jsstring := map ch (list_ascii_of_string s).

(** Characters that cannot be written inside a literal here. *)
Definition DQUOTE : Z := 34.
Definition TAB : Z := 9.
Definition LF : Z := 10.
Definition CR : Z := 13.
Definition dq : jsstring := [DQUOTE].
Definition nl : jsstring := [LF].
Definition crlf : jsstring := [CR; LF].

Fixpoint streq (a b : jsstring) : bool :=
  match a, b with
  | [], [] => true
  | x :: a', y :: b' => (x =? y) && streq a' b'
  | _, _ => false
  end.

(** Truthiness of a string: non-empty. *)
Definition truthy (s : jsstring) : bool :=
  match s with [] => false | _ :: _ => true end.

(** [a || b] on a possibly undefined string [a]. *)
Definition orElse (a : option jsstring) (b : jsstring) : jsstring :=
  match a with
  | Some s => if truthy s then s else b
  | None => b
  end.

(** WhiteSpace and LineTerminator code units (String.prototype.trim, and the
    class \s of regular expressions). *)
Definition whiteSpaceRanges : list (Z * Z) :=
  [ (9, 13); (32, 32); (160, 160); (5760, 5760); (8192, 8202);
    (8232, 8233); (8239, 8239); (8287, 8287); (12288, 12288);
    (65279, 65279) ].

Definition inRanges (rs : list (Z * Z)) (c : Z) : bool :=
  existsb (fun r => (fst r <=? c) && (c <=? snd r)) rs.

Definition isWhiteSpace (c : Z) : bool := inRanges whiteSpaceRanges c.

Fixpoint trimStart (s : jsstring) : jsstring :=
  match s with
  | c :: t => if isWhiteSpace c then trimStart t else s
  | [] => []
  end.

Definition trimEnd (s : jsstring) : jsstring := rev (trimStart (rev s)).

Definition trim (s : jsstring) : jsstring := trimEnd (trimStart s).

Fixpoint startsWith (s prefix : jsstring) : bool :=
  match prefix, s with
  | [], _ => true
  | p :: prefix', c :: s' => (c =? p) && startsWith s' prefix'
  | _ :: _, [] => false
  end.

Fixpoint includes (s needle : jsstring) : bool :=
  startsWith s needle ||
  match s with
  | [] => false
  | _ :: t => includes t needle
  end.

(** [s.indexOf(c)] for a one-unit needle; [None] stands for -1. *)
Fixpoint indexOf (s : jsstring) (c : Z) : option nat :=
  match s with
  | [] => None
  | x :: t => if x =? c then Some O else option_map S (indexOf t c)
  end.

(** [s.substring(a, b)] for [a <= b] and [s.substring(a)]. *)
Definition substring (s : jsstring) (a b : nat) : jsstring :=
  firstn (b - a) (skipn a s).
Definition substringFrom (s : jsstring) (a : nat) : jsstring := skipn a s.

(** [s[i]]: [None] stands for undefined. *)
Definition charAt (s : jsstring) (i : nat) : option Z := nth_error s i.

(** [s.charCodeAt(i)] for an index inside the string. *)
Definition charCodeAt (s : jsstring) (i : nat) : Z := nth i s 0.

(** [s.split(';')[0]]: the text before the first occurrence. *)
Fixpoint beforeFirst (c : Z) (s : jsstring) : jsstring :=
  match s with
  | [] => []
  | x :: t => if x =? c then [] else x :: beforeFirst c t
  end.

(** ASCII case mapping of one code unit. *)
Definition isAscii (c : Z) : bool := (0 <=? c) && (c <? 128).
Definition lowerUnit (c : Z) : Z :=
  if (65 <=? c) && (c <=? 90) then c + 32 else c.
Definition upperUnit (c : Z) : Z :=
  if (97 <=? c) && (c <=? 122) then c - 32 else c.

(** String.prototype.toLowerCase and toUpperCase follow the Unicode case
    tables, which are not reproduced here.  The parser only compares their
    results with ASCII literals, so the engine is taken as given with the one
    law the proofs use: on a string of ASCII code units the mapping is the
    ASCII one, unit by unit. *)
Class Engine : Type := {
  toLowerCase : jsstring -> jsstring;
  toUpperCase : jsstring -> jsstring;
  toLowerCase_ascii :
    forall s, forallb isAscii s = true -> toLowerCase s = map lowerUnit s;
  toUpperCase_ascii :
    forall s, forallb isAscii s = true -> toUpperCase s = map upperUnit s
}.

(** The engine restricted to the ASCII tables: exact on every string of ASCII
    code units, it is the instance at which closed examples are evaluated. *)
#[export] Instance asciiEngine : Engine := {|
  toLowerCase := map lowerUnit;
  toUpperCase := map upperUnit;
  toLowerCase_ascii := fun _ _ => eq_refl;
  toUpperCase_ascii := fun _ _ => eq_refl
|}.

(** Decimal digits of a number, as in a template literal. *)
Fixpoint digitsFuel (fuel n : nat) (acc : jsstring) : jsstring :=
  match fuel with
  | O => acc
  | S f =>
      let acc' := (48 + Z.of_nat (n mod 10)) :: acc in
      if (n <? 10)%nat then acc' else digitsFuel f (n / 10) acc'
  end.
Definition numberToString (n : nat) : jsstring := digitsFuel (S n) n [].

(** *** Hexadecimal digits and parseInt(_, 16) *)

Definition hexValue (c : Z) : option Z :=
  if (48 <=? c) && (c <=? 57) then Some (c - 48)
  else if (65 <=? c) && (c <=? 70) then Some (c - 55)
  else if (97 <=? c) && (c <=? 102) then Some (c - 87)
  else None.

Definition isHexDigit (c : Z) : bool :=
  match hexValue c with Some _ => true | None => false end.

(** [parseInt(hex, 16)] on a string of hexadecimal digits. *)
Definition parseInt16 (hex : jsstring) : Z :=
  fold_left (fun acc c =>
               match hexValue c with
               | Some v => 16 * acc + v
               | None => acc
               end) hex 0.

(** *** Buffers *)

(** [Buffer.from(array)]: every entry is reduced to a byte. *)
Definition Buffer_from_array (bytes : list Z) : Buffer :=
  map (fun b => Z.land b 255) bytes.

(** [Buffer.from(s, 'binary')]: one byte per code unit, the low eight bits. *)
Definition Buffer_from_binary (s : jsstring) : Buffer :=
  map (fun c => Z.land c 255) s.

(** UTF-16 code units of a code point. *)
Definition utf16 (cp : Z) : jsstring :=
  if cp <? 65536 then [cp]
  else [55296 + Z.shiftr (cp - 65536) 10; 56320 + Z.land (cp - 65536) 1023].

Definition REPLACEMENT : Z := 65533.

(** State of the UTF-8 decoder: the code point under construction, the number
    of continuation bytes still expected, and the bounds of the next one. *)
Record Utf8State : Type := {
  u_cp : Z;
  u_needed : nat;
  u_lower : Z;
  u_upper : Z
}.

Definition utf8Idle : Utf8State :=
  {| u_cp := 0; u_needed := 0; u_lower := 128; u_upper := 191 |}.

(** A byte read while no sequence is open. *)
Definition utf8Lead (b : Z) : jsstring * Utf8State :=
  if b <=? 127 then ([b], utf8Idle)
  else if (194 <=? b) && (b <=? 223) then
    ([], {| u_cp := Z.land b 31; u_needed := 1;
            u_lower := 128; u_upper := 191 |})
  else if (224 <=? b) && (b <=? 239) then
    ([], {| u_cp := Z.land b 15; u_needed := 2;
            u_lower := if b =? 224 then 160 else 128;
            u_upper := if b =? 237 then 159 else 191 |})
  else if (240 <=? b) && (b <=? 244) then
    ([], {| u_cp := Z.land b 7; u_needed := 3;
            u_lower := if b =? 240 then 144 else 128;
            u_upper := if b =? 244 then 143 else 191 |})
  else ([REPLACEMENT], utf8Idle).

Fixpoint utf8Run (bytes : Buffer) (st : Utf8State) : jsstring :=
  match bytes with
  | [] =>
      match u_needed st with
      | O => []
      | S _ => [REPLACEMENT]
      end
  | b :: rest =>
      match u_needed st with
      | O => let (out, st') := utf8Lead b in out ++ utf8Run rest st'
      | S n =>
          if (u_lower st <=? b) && (b <=? u_upper st) then
            let cp := Z.lor (Z.shiftl (u_cp st) 6) (Z.land b 63) in
            match n with
            | O => utf16 cp ++ utf8Run rest utf8Idle
            | S _ =>
                utf8Run rest
                  {| u_cp := cp; u_needed := n;
                     u_lower := 128; u_upper := 191 |}
            end
          else
            (* the open sequence is replaced and the byte is read again *)
            let (out, st') := utf8Lead b in
            REPLACEMENT :: out ++ utf8Run rest st'
      end
  end.

(** [buffer.toString('utf-8')]: ill-formed sequences become U+FFFD; the call
    does not throw. *)
Definition Buffer_toString_utf8 (b : Buffer) : jsstring := utf8Run b utf8Idle.

(** *** Base64 *)

(** Value of a base64 digit; both the standard and the URL alphabet count. *)
Definition unbase64 (c : Z) : option Z :=
  if (65 <=? c) && (c <=? 90) then Some (c - 65)
  else if (97 <=? c) && (c <=? 122) then Some (c - 71)
  else if (48 <=? c) && (c <=? 57) then Some (c + 4)
  else if (c =? 43) || (c =? 45) then Some 62
  else if (c =? 47) || (c =? 95) then Some 63
  else None.

(** Digits up to the first '=': anything that is not a digit is skipped.  The
    decoder looks at the low byte of every code unit. *)
Fixpoint sextets (s : jsstring) : list Z :=
  match s with
  | [] => []
  | c :: t =>
      let b := Z.land c 255 in
      match unbase64 b with
      | Some v => v :: sextets t
      | None => if b =? 61 then [] else sextets t
      end
  end.

Fixpoint packSextets (l : list Z) : Buffer :=
  match l with
  | a :: b :: c :: d :: rest =>
      Z.lor (Z.shiftl a 2) (Z.shiftr b 4)
      :: Z.lor (Z.shiftl (Z.land b 15) 4) (Z.shiftr c 2)
      :: Z.lor (Z.shiftl (Z.land c 3) 6) d
      :: packSextets rest
  | [a; b; c] =>
      [ Z.lor (Z.shiftl a 2) (Z.shiftr b 4);
        Z.lor (Z.shiftl (Z.land b 15) 4) (Z.shiftr c 2) ]
  | [a; b] => [ Z.lor (Z.shiftl a 2) (Z.shiftr b 4) ]
  | _ => []
  end.

(** [Buffer.from(s, 'base64')]: lenient, never throws. *)
Definition Buffer_from_base64 (s : jsstring) : Buffer :=
  packSextets (sextets s).

(** *** Exceptions *)

Inductive exn : Type :=
| URIError.

(** A computation either throws ([inl]) or returns ([inr]). *)
Definition Result (A : Type) : Type := (exn + A)%type.
Definition ret {A} (a : A) : Result A := inr a.
Definition throw {A} (e : exn) : Result A := inl e.
Definition bind {A B} (m : Result A) (f : A -> Result B) : Result B :=
  match m with
  | inl e => inl e
  | inr a => f a
  end.

(** A loop body run over a list, the state threaded through; an exception
    ends the loop. *)
Fixpoint foldM {St A : Type} (f : A -> St -> Result St) (l : list A)
         (s : St) : Result St :=
  match l with
  | [] => ret s
  | a :: l' => bind (f a s) (foldM f l')
  end.

(** [for (let i = lo; i < hi; i++) body]. *)
Definition forLoop {St : Type} (lo hi : nat)
           (body : nat -> St -> Result St) (s : St) : Result St :=
  foldM body (seq lo (hi - lo)) s.

(** [try { body } catch (e) { handler }]. *)
Definition tryCatch {A} (body : Result A) (handler : A) : A :=
  match body with
  | inr a => a
  | inl _ => handler
  end.

(** *** decodeURIComponent *)

(** The byte written as %XX at the head of [s], and what follows it. *)
Definition percentByte (s : jsstring) : option (Z * jsstring) :=
  match s with
  | p :: h :: l :: rest =>
      if p =? 37 then
        match hexValue h, hexValue l with
        | Some a, Some b => Some (16 * a + b, rest)
        | _, _ => None
        end
      else None
  | _ => None
  end.

(** [n] continuation bytes, each written %XX with its two top bits 10. *)
Fixpoint continuation (n : nat) (s : jsstring) (cp : Z)
  : option (Z * jsstring) :=
  match n with
  | O => Some (cp, s)
  | S n' =>
      match percentByte s with
      | Some (b, rest) =>
          if Z.land b 192 =? 128
          then continuation n' rest (Z.lor (Z.shiftl cp 6) (Z.land b 63))
          else None
      | None => None
      end
  end.

(** One step of Decode: the units produced and the remaining input. *)
Definition decodeStep (s : jsstring) : Result (jsstring * jsstring) :=
  match s with
  | [] => ret ([], [])
  | c :: t =>
      if negb (c =? 37) then ret ([c], t)
      else
        match percentByte s with
        | None => throw URIError
        | Some (b, rest) =>
            if b <? 128 then ret ([b], rest)
            else
              let multi (n : nat) (mask lo : Z) :=
                match continuation n rest (Z.land b mask) with
                | Some (cp, rest') =>
                    if (lo <=? cp) && (cp <=? 1114111)
                       && negb ((55296 <=? cp) && (cp <=? 57343))
                    then ret (utf16 cp, rest')
                    else throw URIError
                | None => throw URIError
                end in
              if Z.land b 224 =? 192 then multi 1%nat 31 128
              else if Z.land b 240 =? 224 then multi 2%nat 15 2048
              else if Z.land b 248 =? 240 then multi 3%nat 7 65536
              else throw URIError
        end
  end.

Fixpoint decodeURIFuel (fuel : nat) (s : jsstring) : Result jsstring :=
  match fuel with
  | O => ret []
  | S f =>
      match s with
      | [] => ret []
      | _ :: _ =>
          bind (decodeStep s) (fun '(out, rest) =>
          bind (decodeURIFuel f rest) (fun tail => ret (out ++ tail)))
      end
  end.

(** [decodeURIComponent(s)]: throws URIError on a malformed escape.  Every
    step consumes a code unit, so the length of [s] is fuel enough. *)
Definition decodeURIComponent (s : jsstring) : Result jsstring :=
  decodeURIFuel (length s) s.

(** A Date object, identified by the string it was constructed from.
    [new Date(s)] never throws: text that is not a date gives an Invalid Date
    object (its time value is NaN), which is an object and not null. *)
Inductive Date : Type :=
| NewDate (dateStr : jsstring).

End JS.

(* ================================================================== *)
(** ** Regular expressions *)
(* ================================================================== *)

Module RegExp.
Import JS.

(** Syntax of the patterns the parser uses.  Quantifiers are greedy; a group
    carries its capture index. *)
Inductive regex : Type :=
| Empty
| Char (c : Z)
| Class (negated : bool) (ranges : list (Z * Z))
| Seq (r1 r2 : regex)
| Alt (r1 r2 : regex)
| Star (r : regex)
| Group (n : nat) (r : regex)
| Bol
| Eol.

Definition Plus (r : regex) : regex := Seq r (Star r).
Definition Opt (r : regex) : regex := Alt r Empty.
Definition Lit (s : jsstring) : regex :=
  fold_right (fun c r => Seq (Char c) r) Empty s.
Fixpoint seqs (l : list regex) : regex :=
  match l with
  | [] => Empty
  | [r] => r
  | r :: l' => Seq r (seqs l')
  end.

(** Class escapes and the sets written in the source. *)
Definition one (c : Z) : Z * Z := (c, c).
Definition Space : regex := Class false whiteSpaceRanges.
Definition hexRanges : list (Z * Z) := [ (48, 57); (65, 70); (97, 102) ].

(** The captures of a match: group index and captured text. *)
Definition captures := list (nat * jsstring).

Fixpoint capture (n : nat) (cs : captures) : option jsstring :=
  match cs with
  | [] => None
  | (m, s) :: cs' => if Nat.eqb m n then Some s else capture n cs'
  end.

Section Matcher.

(** The flag i.  Every pattern character of the source is ASCII, and
    canonicalization never sends a non-ASCII unit to an ASCII one, so
    folding ASCII letters is exact. *)
Variable ignoreCase : bool.

Definition sameChar (p c : Z) : bool :=
  if ignoreCase then upperUnit p =? upperUnit c else p =? c.

Definition inClass (rs : list (Z * Z)) (c : Z) : bool :=
  if ignoreCase
  then inRanges rs c || inRanges rs (upperUnit c) || inRanges rs (lowerUnit c)
  else inRanges rs c.

Context {R : Type}.

(** A continuation receives the position reached, the input that is left
    and the captures so far. *)
Definition Cont : Type := nat -> jsstring -> captures -> option R.

(** Backtracking matcher.  An iteration of [Star] that consumes nothing is
    refused, as in the language definition, so the length of the remaining
    input bounds the number of iterations. *)
Fixpoint matchRe (r : regex) (pos : nat) (rest : jsstring) (cs : captures)
         (k : Cont) {struct r} : option R :=
  match r with
  | Empty => k pos rest cs
  | Char p =>
      match rest with
      | c :: t => if sameChar p c then k (S pos) t cs else None
      | [] => None
      end
  | Class neg rs =>
      match rest with
      | c :: t => if xorb neg (inClass rs c) then k (S pos) t cs else None
      | [] => None
      end
  | Seq r1 r2 =>
      matchRe r1 pos rest cs (fun p s c => matchRe r2 p s c k)
  | Alt r1 r2 =>
      match matchRe r1 pos rest cs k with
      | Some a => Some a
      | None => matchRe r2 pos rest cs k
      end
  | Star r1 =>
      (fix loop (n : nat) (pos : nat) (rest : jsstring) (cs : captures)
         {struct n} : option R :=
         match n with
         | O => k pos rest cs
         | S n' =>
             match matchRe r1 pos rest cs
                     (fun p s c =>
                        if (List.length s <? List.length rest)%nat
                        then loop n' p s c else None) with
             | Some a => Some a
             | None => k pos rest cs
             end
         end) (List.length rest) pos rest cs
  | Group n r1 =>
      matchRe r1 pos rest cs
        (fun p s c => k p s ((n, firstn (p - pos) rest) :: c))
  | Bol => if Nat.eqb pos 0 then k pos rest cs else None
  | Eol =>
      match rest with
      | [] => k pos rest cs
      | _ :: _ => None
      end
  end.

End Matcher.

(** A compiled expression: its pattern and its i flag. *)
Record RegExp : Type := {
  pattern : regex;
  flag_i : bool
}.
Definition re (r : regex) : RegExp := {| pattern := r; flag_i := false |}.
Definition rei (r : regex) : RegExp := {| pattern := r; flag_i := true |}.

(** A match attempt at one position: the end of the match and its captures. *)
Definition matchAt (e : RegExp) (pos : nat) (rest : jsstring)
  : option (nat * captures) :=
  matchRe (flag_i e) (pattern e) pos rest [] (fun p _ c => Some (p, c)).

(** The leftmost match at or after a position: its start, end and captures. *)
Fixpoint searchFrom (e : RegExp) (pos : nat) (rest : jsstring)
  : option (nat * nat * captures) :=
  match matchAt e pos rest with
  | Some (p, c) => Some (pos, p, c)
  | None =>
      match rest with
      | [] => None
      | _ :: t => searchFrom e (S pos) t
      end
  end.

(** [s.search(e)]: [None] stands for -1. *)
Definition search (s : jsstring) (e : RegExp) : option nat :=
  match searchFrom e 0 s with
  | Some (i, _, _) => Some i
  | None => None
  end.

(** [s.match(e)] without the g flag: the captures, [None] for null. *)
Definition exec (s : jsstring) (e : RegExp) : option captures :=
  match searchFrom e 0 s with
  | Some (_, _, c) => Some c
  | None => None
  end.

(** [e.test(s)]. *)
Definition test (e : RegExp) (s : jsstring) : bool :=
  match searchFrom e 0 s with
  | Some _ => true
  | None => false
  end.

(** [s.replace(e, f)] without the g flag: the leftmost match is replaced. *)
Definition replaceFirst (s : jsstring) (e : RegExp)
           (f : jsstring -> captures -> jsstring) : jsstring :=
  match searchFrom e 0 s with
  | Some (i, j, c) =>
      firstn i s ++ f (firstn (j - i) (skipn i s)) c ++ skipn j s
  | None => s
  end.

(** [s.replace(e, f)] with the g flag.  [skip] counts the units of the last
    match that are still to be passed over. *)
Fixpoint replaceGo (e : RegExp) (f : jsstring -> captures -> jsstring)
         (skip pos : nat) (rest : jsstring) : jsstring :=
  match rest with
  | [] =>
      match skip, matchAt e pos [] with
      | O, Some (_, c) => f [] c
      | _, _ => []
      end
  | x :: t =>
      match skip with
      | S n => replaceGo e f n (S pos) t
      | O =>
          match matchAt e pos rest with
          | Some (p, c) =>
              if Nat.eqb p pos
              then f [] c ++ x :: replaceGo e f 0 (S pos) t
              else f (firstn (p - pos) rest) c
                     ++ replaceGo e f (p - pos - 1) (S pos) t
          | None => x :: replaceGo e f 0 (S pos) t
          end
      end
  end.

Definition replaceAll (s : jsstring) (e : RegExp)
           (f : jsstring -> captures -> jsstring) : jsstring :=
  replaceGo e f 0 0 s.

(** [s.split(e)] for an expression without capture groups.  [cur] is the
    piece under construction, reversed.  A match that is empty at the start
    of a piece does not split. *)
Fixpoint splitGo (e : RegExp) (skip : nat) (cur : jsstring) (pos : nat)
         (rest : jsstring) : list jsstring :=
  match rest with
  | [] => [rev cur]
  | x :: t =>
      match skip with
      | S n => splitGo e n cur (S pos) t
      | O =>
          match matchAt e pos rest with
          | Some (p, _) =>
              if Nat.eqb p pos then
                match cur with
                | [] => splitGo e 0 [x] (S pos) t
                | _ :: _ => rev cur :: splitGo e 0 [x] (S pos) t
                end
              else rev cur :: splitGo e (p - pos - 1) [] (S pos) t
          | None => splitGo e 0 (x :: cur) (S pos) t
          end
      end
  end.

Definition split (s : jsstring) (e : RegExp) : list jsstring :=
  match s with
  | [] =>
      match matchAt e 0 [] with
      | Some _ => []
      | None => [[]]
      end
  | _ :: _ => splitGo e 0 [] 0 s
  end.

End RegExp.

(* ================================================================== *)
(** ** The parser *)
(* ================================================================== *)

Module Eml.
Import JS RegExp.

(** *** Data model *)

Record EmailAddress : Type := {
  name : jsstring;
  address : jsstring
}.

Record Attachment : Type := {
  filename : jsstring;
  contentType : jsstring;
  content : Buffer;
  contentId : option jsstring
}.

Record ParsedEmail : Type := {
  from : list EmailAddress;
  to : list EmailAddress;
  cc : list EmailAddress;
  bcc : list EmailAddress;
  subject : jsstring;
  date : option Date;          (* [None] is null *)
  messageId : jsstring;
  textBody : jsstring;
  htmlBody : jsstring;
  attachments : list Attachment
}.

(** Assignments to the fields that [parseMimePart] mutates. *)
Definition set_textBody (r : ParsedEmail) (v : jsstring) : ParsedEmail :=
  {| from := from r; to := to r; cc := cc r; bcc := bcc r;
     subject := subject r; date := date r; messageId := messageId r;
     textBody := v; htmlBody := htmlBody r; attachments := attachments r |}.

Definition set_htmlBody (r : ParsedEmail) (v : jsstring) : ParsedEmail :=
  {| from := from r; to := to r; cc := cc r; bcc := bcc r;
     subject := subject r; date := date r; messageId := messageId r;
     textBody := textBody r; htmlBody := v; attachments := attachments r |}.

Definition push_attachment (r : ParsedEmail) (a : Attachment) : ParsedEmail :=
  {| from := from r; to := to r; cc := cc r; bcc := bcc r;
     subject := subject r; date := date r; messageId := messageId r;
     textBody := textBody r; htmlBody := htmlBody r;
     attachments := attachments r ++ [a] |}.

(** The header map.  [set] overwrites, so a lookup sees the last value set
    for a key: the newest binding is kept in front. *)
Definition Headers : Type := list (jsstring * jsstring).

Definition Map_set (k v : jsstring) (m : Headers) : Headers := (k, v) :: m.

Fixpoint Map_get (k : jsstring) (m : Headers) : option jsstring :=
  match m with
  | [] => None
  | (k', v) :: m' => if streq k' k then Some v else Map_get k m'
  end.

(** Text of a capture group of a successful match. *)
Definition group (n : nat) (m : captures) : jsstring :=
  match capture n m with
  | Some s => s
  | None => []
  end.

(** *** The regular expressions of the source *)

(** The source patterns are quoted with their tokens spaced out and with
    Q standing for the double quote. *)

(** /^ Q? ( [^Q<]* ) Q? \s* < ( [^>]+ ) > $/ *)
Definition ADDRESS_RE : RegExp :=
  re (seqs [ Bol; Opt (Char DQUOTE);
             Group 1 (Star (Class true [one DQUOTE; one (ch "<")]));
             Opt (Char DQUOTE); Star Space; Char (ch "<");
             Group 2 (Plus (Class true [one (ch ">")]));
             Char (ch ">"); Eol ]).

(** /^Q | Q$/g *)
Definition QUOTE_ENDS_RE : RegExp :=
  re (Alt (Seq Bol (Char DQUOTE)) (Seq (Char DQUOTE) Eol)).

(** /=\? ( [^?]+ ) \? ( [BQ] ) \? ( [^?]+ ) \?=/gi *)
Definition MIME_WORD_RE : RegExp :=
  rei (seqs [ Char (ch "="); Char (ch "?");
              Group 1 (Plus (Class true [one (ch "?")]));
              Char (ch "?");
              Group 2 (Class false [one (ch "B"); one (ch "Q")]);
              Char (ch "?");
              Group 3 (Plus (Class true [one (ch "?")]));
              Char (ch "?"); Char (ch "=") ]).

(** /_/g *)
Definition UNDERSCORE_RE : RegExp := re (Char (ch "_")).

(** /^[0-9A-Fa-f]{2}$/ *)
Definition HEX2_RE : RegExp :=
  re (seqs [ Bol; Class false hexRanges; Class false hexRanges; Eol ]).

(** /=\r?\n/g *)
Definition SOFT_BREAK_RE : RegExp :=
  re (seqs [ Char (ch "="); Opt (Char CR); Char LF ]).

(** /\s/g *)
Definition SPACE_RE : RegExp := re Space.

(** /\r?\n[\t ]+/g *)
Definition FOLD_RE : RegExp :=
  re (seqs [ Opt (Char CR); Char LF; Plus (Class false [one TAB; one 32]) ]).

(** /\r?\n/ *)
Definition EOL_RE : RegExp := re (seqs [ Opt (Char CR); Char LF ]).

(** /\r?\n\r?\n/ and /^\r?\n\r?\n/ *)
Definition BLANK_LINE_RE : RegExp :=
  re (seqs [ Opt (Char CR); Char LF; Opt (Char CR); Char LF ]).
Definition LEADING_BLANK_LINE_RE : RegExp :=
  re (seqs [ Bol; Opt (Char CR); Char LF; Opt (Char CR); Char LF ]).

(** /boundary \s* = \s* Q? ( [^Q;]+ ) Q?/i *)
Definition BOUNDARY_RE : RegExp :=
  rei (seqs [ Lit (str "boundary"); Star Space; Char (ch "="); Star Space;
              Opt (Char DQUOTE);
              Group 1 (Plus (Class true [one DQUOTE; one (ch ";")]));
              Opt (Char DQUOTE) ]).

(** /filename \*? = \s* (?: utf-8'' )? [Q']? ( [^Q';\r\n]+ ) [Q']?/i *)
Definition FILENAME_RE : RegExp :=
  rei (seqs [ Lit (str "filename"); Opt (Char (ch "*")); Char (ch "=");
              Star Space; Opt (Lit (str "utf-8''"));
              Opt (Class false [one DQUOTE; one (ch "'")]);
              Group 1 (Plus (Class true [ one DQUOTE; one (ch "'");
                                           one (ch ";"); one CR; one LF ]));
              Opt (Class false [one DQUOTE; one (ch "'")]) ]).

(** /name \s* = \s* Q? ( [^Q;]+ ) Q?/i *)
Definition NAME_RE : RegExp :=
  rei (seqs [ Lit (str "name"); Star Space; Char (ch "="); Star Space;
              Opt (Char DQUOTE);
              Group 1 (Plus (Class true [one DQUOTE; one (ch ";")]));
              Opt (Char DQUOTE) ]).

(** /[<>]/g *)
Definition ANGLES_RE : RegExp :=
  re (Class false [one (ch "<"); one (ch ">")]).

(** The syntax characters of a pattern, as listed in [escapeRegex]:
    . * + ? ^ $ { } ( ) | [ ] and the backslash. *)
Definition syntaxRanges : list (Z * Z) :=
  [ one (ch "."); one (ch "*"); one (ch "+"); one (ch "?"); one (ch "^");
    one (ch "$"); one (ch "{"); one (ch "}"); one (ch "("); one (ch ")");
    one (ch "|"); one (ch "["); one (ch "]"); one (ch "\") ].
Definition SYNTAX_RE : RegExp := re (Class false syntaxRanges).

(** [escapeRegex(str)]: the replacement text is a backslash and the match. *)
Definition escapeRegex (s : jsstring) : jsstring :=
  replaceAll s SYNTAX_RE (fun matched _ => ch "\" :: matched).

(** The reading of a pattern text in which no operator occurs: a backslash
    and a syntax character stand for that character, any other unit for
    itself; [None] when the text holds a bare syntax character or another
    escape. *)
Fixpoint compileLiteral (p : jsstring) : option regex :=
  match p with
  | [] => Some Empty
  | c :: t =>
      if c =? ch "\" then
        match t with
        | d :: t' =>
            if inRanges syntaxRanges d
            then option_map (Seq (Char d)) (compileLiteral t')
            else None
        | [] => None
        end
      else if inRanges syntaxRanges c then None
      else option_map (Seq (Char c)) (compileLiteral t)
  end.

(** new RegExp(`--${escapeRegex(boundary)} (?:--)?`).  The escaped boundary
    reads as the boundary itself ([escapeRegex_literal] below), so the
    compiled pattern is two dashes, the boundary taken literally, and an
    optional pair of dashes. *)
Definition boundaryRegExp (boundary : jsstring) : RegExp :=
  re (seqs [ Lit (str "--"); Lit boundary; Opt (Lit (str "--")) ]).

Definition erase : jsstring -> captures -> jsstring := fun _ _ => [].
Definition constant (s : jsstring) : jsstring -> captures -> jsstring :=
  fun _ _ => s.

Section WithEngine.
Context {E : Engine}.

(** *** Addresses *)

Definition parseEmailAddress (str0 : jsstring) : EmailAddress :=
  let s := trim str0 in
  match exec s ADDRESS_RE with
  | Some m =>
      {| name := replaceAll (trim (group 1 m)) QUOTE_ENDS_RE erase;
         address := trim (group 2 m) |}
  | None => {| name := []; address := s |}
  end.

(** The variables of the scanning loop of [parseEmailAddresses]. *)
Record Scan : Type := {
  addresses : list EmailAddress;
  current : jsstring;
  inQuotes : bool;
  inAngleBrackets : bool
}.

Definition flush (addrs : list EmailAddress) (cur : jsstring)
  : list EmailAddress :=
  if truthy (trim cur) then addrs ++ [parseEmailAddress cur] else addrs.

(** [str[i - 1] !== '\\']; at index 0 the left side is undefined. *)
Definition notAfterBackslash (s : jsstring) (i : nat) : bool :=
  match i with
  | O => true
  | S j =>
      match charAt s j with
      | Some c => negb (c =? ch "\")
      | None => true
      end
  end.

(** One iteration of the loop, at index [i]. *)
Definition scanStep (s : jsstring) (st : Scan) (i : nat) : Scan :=
  let char := charCodeAt s i in
  let keep (q a : bool) :=
    {| addresses := addresses st; current := current st ++ [char];
       inQuotes := q; inAngleBrackets := a |} in
  if (char =? DQUOTE) && notAfterBackslash s i then
    keep (negb (inQuotes st)) (inAngleBrackets st)
  else if (char =? ch "<") && negb (inQuotes st) then
    keep (inQuotes st) true
  else if (char =? ch ">") && negb (inQuotes st) then
    keep (inQuotes st) false
  else if (char =? ch ",") && negb (inQuotes st)
          && negb (inAngleBrackets st) then
    {| addresses := flush (addresses st) (current st); current := [];
       inQuotes := inQuotes st; inAngleBrackets := inAngleBrackets st |}
  else keep (inQuotes st) (inAngleBrackets st).

Definition scanInit : Scan :=
  {| addresses := []; current := []; inQuotes := false;
     inAngleBrackets := false |}.

Definition parseEmailAddresses (s : jsstring) : list EmailAddress :=
  if negb (truthy s) then []
  else
    let st := fold_left (scanStep s) (seq 0 (List.length s)) scanInit in
    flush (addresses st) (current st).

(** *** Transfer decoding *)

(** The loop shared, word for word, by the Q branch of [decodeMimeWord] and
    by [decodeQuotedPrintableToBuffer]: [i] is the index, [bytes] the array
    filled so far. *)
Fixpoint escapeLoop (fuel : nat) (s : jsstring) (i : nat) (bytes : list Z)
  : list Z :=
  match fuel with
  | O => bytes
  | S f =>
      if (i <? List.length s)%nat then
        if match charAt s i with Some c => c =? ch "=" | None => false end
           && (i + 2 <? List.length s)%nat
        then
          let hex := substring s (i + 1) (i + 3) in
          if test HEX2_RE hex
          then escapeLoop f s (i + 3) (bytes ++ [parseInt16 hex])
          else escapeLoop f s (i + 1) (bytes ++ [charCodeAt s i])
        else escapeLoop f s (i + 1) (bytes ++ [charCodeAt s i])
      else bytes
  end.

(** The loop advances at every turn, so the length is fuel enough. *)
Definition escapeBytes (s : jsstring) : list Z :=
  escapeLoop (List.length s) s 0 [].

Definition decodeMimeWord (s : jsstring) : jsstring :=
  replaceAll s MIME_WORD_RE (fun matched m =>
    let encoding := group 2 m in
    let text := group 3 m in
    tryCatch
      (if streq (toUpperCase encoding) (str "B") then
         ret (Buffer_toString_utf8 (Buffer_from_base64 text))
       else if streq (toUpperCase encoding) (str "Q") then
         let withSpaces := replaceAll text UNDERSCORE_RE (constant (str " ")) in
         ret (Buffer_toString_utf8 (Buffer_from_array (escapeBytes withSpaces)))
       else ret matched)
      matched).

Definition decodeQuotedPrintableToBuffer (s : jsstring) : Buffer :=
  let withoutSoftBreaks := replaceAll s SOFT_BREAK_RE erase in
  Buffer_from_array (escapeBytes withoutSoftBreaks).

Definition decodeQuotedPrintable (s : jsstring) : jsstring :=
  let buffer := decodeQuotedPrintableToBuffer s in
  tryCatch (ret (Buffer_toString_utf8 buffer))
           (replaceAll s SOFT_BREAK_RE erase).

Definition decodeBase64 (s : jsstring) : jsstring :=
  tryCatch
    (ret (Buffer_toString_utf8
            (Buffer_from_base64 (replaceAll s SPACE_RE erase))))
    s.

(** *** Headers *)

Definition parseHeaders (headerText : jsstring) : Headers :=
  let unfoldedText := replaceAll headerText FOLD_RE (constant (str " ")) in
  let lines := split unfoldedText EOL_RE in
  fold_left
    (fun headers line =>
       match indexOf line (ch ":") with
       | Some (S _ as colonIndex) =>
           let key := toLowerCase (trim (substring line 0 colonIndex)) in
           let value :=
             decodeMimeWord (trim (substringFrom line (colonIndex + 1))) in
           Map_set key value headers
       | _ => headers
       end)
    lines [].

Definition extractBoundary (contentType : jsstring) : option jsstring :=
  match exec contentType BOUNDARY_RE with
  | Some m => Some (group 1 m)
  | None => None
  end.

Definition getEncoding (headers : Headers) : jsstring :=
  toLowerCase
    (orElse (Map_get (str "content-transfer-encoding") headers) (str "7bit")).

Definition getContentType (headers : Headers) : jsstring :=
  let ct := orElse (Map_get (str "content-type") headers) (str "text/plain") in
  toLowerCase (trim (beforeFirst (ch ";") ct)).

Definition getFilename (headers : Headers) : Result (option jsstring) :=
  let disposition := orElse (Map_get (str "content-disposition") headers) [] in
  let contentType := orElse (Map_get (str "content-type") headers) [] in
  match exec disposition FILENAME_RE with
  | Some m =>
      bind (decodeURIComponent (group 1 m)) (fun decoded =>
      ret (Some (decodeMimeWord decoded)))
  | None =>
      match exec contentType NAME_RE with
      | Some m => ret (Some (decodeMimeWord (group 1 m)))
      | None => ret None
      end
  end.

Definition decodeContent (content encoding : jsstring) : jsstring :=
  if streq encoding (str "base64") then decodeBase64 content
  else if streq encoding (str "quoted-printable")
  then decodeQuotedPrintable content
  else content.

Definition decodeContentToBuffer (content encoding : jsstring) : Buffer :=
  if streq encoding (str "base64")
  then Buffer_from_base64 (replaceAll content SPACE_RE erase)
  else if streq encoding (str "quoted-printable")
  then decodeQuotedPrintableToBuffer content
  else Buffer_from_binary content.

(** *** MIME parts *)

(** [filename || `attachment_${n}`] and the truthiness of [filename], which
    is a string or null. *)
Definition orName (filename : option jsstring) (n : nat) : jsstring :=
  orElse filename (str "attachment_" ++ numberToString n).
Definition declared (filename : option jsstring) : bool :=
  truthy (orElse filename []).

(** The test that guards the construction of an attachment. *)
Definition isAttachment (filename : option jsstring)
           (disposition contentType : jsstring) : bool :=
  declared filename
  || includes disposition (str "attachment")
  || (negb (startsWith contentType (str "text/"))
      && negb (startsWith contentType (str "multipart/"))).

(** The tail of [parseMimePart], reached by a part that is not multipart:
    text handling, then attachment handling. *)
Definition parseLeaf (headers : Headers)
           (contentType encoding bodyText : jsstring) (result : ParsedEmail)
  : Result ParsedEmail :=
  if streq contentType (str "text/plain") then
    let decoded := decodeContent bodyText encoding in
    if negb (truthy (textBody result))
    then ret (set_textBody result decoded)
    else ret result
  else if streq contentType (str "text/html") then
    let decoded := decodeContent bodyText encoding in
    if negb (truthy (htmlBody result))
    then ret (set_htmlBody result decoded)
    else ret result
  else
    let disposition :=
      orElse (Map_get (str "content-disposition") headers) [] in
    bind (getFilename headers) (fun filename =>
    if isAttachment filename disposition contentType then
      let attachment :=
        {| filename :=
             orName filename (List.length (attachments result) + 1);
           contentType := contentType;
           content := decodeContentToBuffer bodyText encoding;
           contentId :=
             option_map (fun v => replaceAll v ANGLES_RE erase)
                        (Map_get (str "content-id") headers) |} in
      ret (push_attachment result attachment)
    else ret result).

(** The test both loops put on a trimmed piece of a multipart body:
    [part && part !== '--']. *)
Definition isCandidate (part : jsstring) : bool :=
  truthy part && negb (streq part (str "--")).

(** The first statements of [parseMimePart] and of [parseEml], which are the
    same: the header block and the body, [None] when no blank line is
    found. *)
Definition headerAndBody (partText : jsstring) : option (jsstring * jsstring) :=
  match search partText BLANK_LINE_RE with
  | None => None
  | Some headerEndIndex =>
      Some (substring partText 0 headerEndIndex,
            replaceFirst (substringFrom partText headerEndIndex)
                         LEADING_BLANK_LINE_RE erase)
  end.

(** [parseMimePart(partText, result)].  The recursion goes into pieces of the
    body, which are shorter than the part; [fuel] bounds its depth. *)
Fixpoint parseMimePartFuel (fuel : nat) (partText : jsstring)
         (result : ParsedEmail) {struct fuel} : Result ParsedEmail :=
  match fuel with
  | O => ret result
  | S f =>
      match headerAndBody partText with
      | None => ret result
      | Some (headerText, bodyText) =>
          let headers := parseHeaders headerText in
          let contentType := getContentType headers in
          let encoding := getEncoding headers in
          if startsWith contentType (str "multipart/") then
            match extractBoundary
                    (orElse (Map_get (str "content-type") headers) []) with
            | Some boundary =>
                if truthy boundary then
                  let parts := split bodyText (boundaryRegExp boundary) in
                  (* Skip first (preamble) and last (epilogue) parts *)
                  forLoop 1 (List.length parts - 1)
                    (fun i result =>
                       let part := trim (nth i parts []) in
                       if isCandidate part
                       then parseMimePartFuel f part result
                       else ret result)
                    result
                else ret result
            | None => ret result
            end
          else parseLeaf headers contentType encoding bodyText result
      end
  end.

Definition parseMimePart (partText : jsstring) (result : ParsedEmail)
  : Result ParsedEmail :=
  parseMimePartFuel (S (List.length partText)) partText result.

(** *** URLs *)

Definition isSafeUrl (url : jsstring) : bool :=
  let trimmed := toLowerCase (trim url) in
  startsWith trimmed (str "http://")
  || startsWith trimmed (str "https://")
  || startsWith trimmed (str "mailto:")
  || startsWith trimmed (str "cid:").

Definition sanitizeUrl (url : jsstring) : jsstring :=
  if isSafeUrl url then url else [].

(** *** The entry point *)

Definition emptyEmail : ParsedEmail :=
  {| from := []; to := []; cc := []; bcc := []; subject := [];
     date := None; messageId := []; textBody := []; htmlBody := [];
     attachments := [] |}.

(** The date statement of [parseEml]. *)
Definition parseDate (headers : Headers) : option Date :=
  match Map_get (str "date") headers with
  | Some dateStr =>
      if truthy dateStr
      then tryCatch (ret (Some (NewDate dateStr))) None
      else None
  | None => None
  end.

(** The assignments of [parseEml] from the top-level headers; the bodies and
    the attachments are still as initialised. *)
Definition headerFields (headers : Headers) : ParsedEmail :=
  let field k := orElse (Map_get k headers) [] in
  {| from := parseEmailAddresses (field (str "from"));
     to := parseEmailAddresses (field (str "to"));
     cc := parseEmailAddresses (field (str "cc"));
     bcc := parseEmailAddresses (field (str "bcc"));
     subject := field (str "subject");
     date := parseDate headers;
     messageId := replaceAll (field (str "message-id")) ANGLES_RE erase;
     textBody := [];
     htmlBody := [];
     attachments := [] |}.

Definition parseEml (content : jsstring) : Result ParsedEmail :=
  match headerAndBody content with
  | None => ret emptyEmail
  | Some (headerText, bodyText) =>
      let headers := parseHeaders headerText in
      let result := headerFields headers in
      let contentType := getContentType headers in
      let encoding := getEncoding headers in
      if startsWith contentType (str "multipart/") then
        match extractBoundary
                (orElse (Map_get (str "content-type") headers) []) with
        | Some boundary =>
            if truthy boundary then
              let parts := split bodyText (boundaryRegExp boundary) in
              forLoop 1 (List.length parts)
                (fun i result =>
                   let part := trim (nth i parts []) in
                   if isCandidate part
                   then parseMimePart part result
                   else ret result)
                result
            else ret result
        | None => ret result
        end
      else if streq contentType (str "text/plain") then
        ret (set_textBody result (decodeContent bodyText encoding))
      else if streq contentType (str "text/html") then
        ret (set_htmlBody result (decodeContent bodyText encoding))
      else ret result
  end.

End WithEngine.

(** *** Display of addresses *)

Definition formatEmailAddress (addr : EmailAddress) : jsstring :=
  if truthy (name addr)
  then name addr ++ str " <" ++ address addr ++ str ">"
  else address addr.

(** [l.join(sep)]. *)
Fixpoint Array_join (sep : jsstring) (l : list jsstring) : jsstring :=
  match l with
  | [] => []
  | [s] => s
  | s :: l' => s ++ sep ++ Array_join sep l'
  end.

Definition formatEmailAddresses (addrs : list EmailAddress) : jsstring :=
  Array_join (str ", ") (map formatEmailAddress addrs).

(** *** The plugin: file names *)

(** The characters that [sanitizeFilename] replaces: < > : Q / \ | ? * *)
Definition unsafeRanges : list (Z * Z) :=
  [ one (ch "<"); one (ch ">"); one (ch ":"); one DQUOTE; one (ch "/");
    one (ch "\"); one (ch "|"); one (ch "?"); one (ch "*") ].

(** The three expressions of [sanitizeFilename]: the class above, /\s+/g
    and /_+/g. *)
Definition UNSAFE_RE : RegExp := re (Class false unsafeRanges).
Definition SPACES_RE : RegExp := re (Plus Space).
Definition UNDERSCORES_RE : RegExp := re (Plus (Char (ch "_"))).

Definition sanitizeFilename (filename : jsstring) : jsstring :=
  substring
    (replaceAll
       (replaceAll
          (replaceAll filename UNSAFE_RE (constant (str "_")))
          SPACES_RE (constant (str "_")))
       UNDERSCORES_RE (constant (str "_")))
    0 200.

(** *** The plugin: YAML strings *)

(** The three expressions of [escapeYaml]: a backslash, a double quote and a
    line feed, each with the g flag. *)
Definition BACKSLASH_RE : RegExp := re (Char (ch "\")).
Definition DQUOTE_RE : RegExp := re (Char DQUOTE).
Definition LF_RE : RegExp := re (Char LF).

(** The replacement texts are two backslashes, a backslash and a double
    quote, and a backslash and the letter n. *)
Definition escapeYaml (s : jsstring) : jsstring :=
  replaceAll
    (replaceAll
       (replaceAll s BACKSLASH_RE (constant [ch "\"; ch "\"]))
       DQUOTE_RE (constant [ch "\"; DQUOTE]))
    LF_RE (constant [ch "\"; ch "n"]).

(** *** The plugin: the attachments folder *)

(** [isInAttachmentsFolder(file)].  The first argument is the value of the
    vault setting attachmentFolderPath, [None] when it is not set; the second
    is [file.path]. *)
Definition isInAttachmentsFolder (attachmentFolderPath : option jsstring)
           (path : jsstring) : bool :=
  match attachmentFolderPath with
  | None => false
  | Some p =>
      if negb (truthy p) || streq p (str "/") then false
      else if startsWith p (str "./") then
        (* Relative attachments folder *)
        let folderName := substringFrom p 2 in
        includes path (str "/" ++ folderName ++ str "/")
        || startsWith path (folderName ++ str "/")
      else
        (* Absolute attachments folder *)
        startsWith path (p ++ str "/") || startsWith path p
  end.

(** *** The plugin: dates *)

(** The getters of a Date depend on the date parser of the engine and on the
    local time zone; they are taken as given.  [getTime] is [None] for an
    Invalid Date, whose time value is NaN; the other getters return
    integers. *)
Class Clock : Type := {
  getTime : Date -> option Z;
  getFullYear : Date -> Z;
  getMonth : Date -> Z;
  getDate : Date -> Z;
  getHours : Date -> Z;
  getMinutes : Date -> Z;
  getSeconds : Date -> Z
}.

(** [n.toString()] for an integer. *)
Definition intToString (n : Z) : jsstring :=
  if n <? 0 then ch "-" :: numberToString (Z.to_nat (- n))
  else numberToString (Z.to_nat n).

(** [s.padStart(2, '0')]. *)
Definition padStart2 (s : jsstring) : jsstring :=
  repeat (ch "0") (2 - List.length s) ++ s.

(** [s.replace(pat, rep)] for a pattern that is a string: the first
    occurrence is replaced.  The replacement texts of [formatDate] are
    numbers, in which no dollar sign occurs, so they are taken literally. *)
Fixpoint replaceText (s pat rep : jsstring) : jsstring :=
  if startsWith s pat then rep ++ skipn (List.length pat) s
  else
    match s with
    | [] => []
    | c :: t => c :: replaceText t pat rep
    end.

(** The default of the setting dateFormat. *)
Definition DEFAULT_dateFormat : jsstring := str "YYYY-MM-DD HH:mm".

Section WithClock.
Context {C : Clock}.

Definition pad (n : Z) : jsstring := padStart2 (intToString n).

(** [formatDate(date)], with the setting dateFormat as first argument. *)
Definition formatDate (format : jsstring) (date : option Date) : jsstring :=
  match date with
  | None => []
  | Some d =>
      match getTime d with
      | None => []
      | Some _ =>
          replaceText
            (replaceText
               (replaceText
                  (replaceText
                     (replaceText
                        (replaceText format (str "YYYY")
                                     (intToString (getFullYear d)))
                        (str "MM") (pad (getMonth d + 1)))
                     (str "DD") (pad (getDate d)))
                  (str "HH") (pad (getHours d)))
               (str "mm") (pad (getMinutes d)))
            (str "ss") (pad (getSeconds d))
      end
  end.

End WithClock.

(** *** The plugin: saving attachments *)

Definition MAX_ATTACHMENT_SIZE : Z := 500 * 1024 * 1024.

(** The map from original names to link names.  A Map keeps its keys in the
    order of their first insertion; [set] on a key that is present replaces
    its value in place. *)
Definition Links : Type := list (jsstring * jsstring).

Fixpoint Links_set (k v : jsstring) (m : Links) : Links :=
  match m with
  | [] => [(k, v)]
  | (k', v') :: m' =>
      if streq k' k then (k, v) :: m' else (k', v') :: Links_set k v m'
  end.

(** [s.split(sep)] for a one-unit separator; [cur] is the piece under
    construction, reversed. *)
Fixpoint splitOnGo (sep : Z) (cur s : jsstring) : list jsstring :=
  match s with
  | [] => [rev cur]
  | c :: t =>
      if c =? sep then rev cur :: splitOnGo sep [] t
      else splitOnGo sep (c :: cur) t
  end.
Definition splitOn (s : jsstring) (sep : Z) : list jsstring :=
  splitOnGo sep [] s.

(** The vault of Obsidian, as far as the plugin uses it, with the calls
    taken in program order.  [getAbstractFileByPath] says whether something
    is found at a path; [createFolder] and [createBinary] give the vault
    afterwards and whether the promise was fulfilled rather than rejected.
    Nothing is assumed about their answers. *)
Class VaultApi (Vault : Type) : Type := {
  normalizePath : jsstring -> jsstring;
  getAbstractFileByPath : Vault -> jsstring -> bool;
  createFolder : Vault -> jsstring -> Vault * bool;
  createBinary : Vault -> jsstring -> Buffer -> Vault * bool
}.

(** The rejection of a vault call. *)
Inductive VaultError : Type :=
| Rejected.

Section WithVault.
Context {Vault : Type} {V : VaultApi Vault}.

(** The loop of [ensureFolderExists] over the parts of the path. *)
Fixpoint createFolders (parts : list jsstring) (currentPath : jsstring)
         (v : Vault) : VaultError + Vault :=
  match parts with
  | [] => inr v
  | part :: rest =>
      let currentPath :=
        if truthy currentPath then currentPath ++ str "/" ++ part else part in
      if getAbstractFileByPath v currentPath
      then createFolders rest currentPath v
      else
        let (v', fulfilled) := createFolder v currentPath in
        if fulfilled then createFolders rest currentPath v'
        else
          (* Folder may have been created concurrently *)
          if getAbstractFileByPath v' currentPath
          then createFolders rest currentPath v'
          else inl Rejected
  end.

Definition ensureFolderExists (v : Vault) (folderPath : jsstring)
  : VaultError + Vault :=
  if negb (truthy folderPath) then inr v
  else
    let normalizedPath := normalizePath folderPath in
    if getAbstractFileByPath v normalizedPath then inr v
    else createFolders (splitOn normalizedPath (ch "/")) [] v.

(** The two [set] calls that store the link of an attachment. *)
Definition storeLink (attachment : Attachment) (attachmentName : jsstring)
           (attachmentLinks : Links) : Links :=
  let links := Links_set (filename attachment) attachmentName attachmentLinks in
  match contentId attachment with
  | Some cid =>
      if truthy cid
      then Links_set (str "cid:" ++ cid) attachmentName links
      else links
  | None => links
  end.

(** One turn of the loop of [saveAttachments]; a rejection of
    [createBinary] is caught and logged, and the loop goes on. *)
Definition saveAttachment (baseName attachmentFolder : jsstring)
           (st : Links * Vault) (attachment : Attachment) : Links * Vault :=
  let (attachmentLinks, v) := st in
  (* Skip attachments over size limit *)
  if Z.of_nat (List.length (content attachment)) >? MAX_ATTACHMENT_SIZE
  then st
  else
    let safeName := sanitizeFilename (filename attachment) in
    let attachmentName := baseName ++ str "_" ++ safeName in
    let attachmentPath :=
      if truthy attachmentFolder
      then normalizePath (attachmentFolder ++ str "/" ++ attachmentName)
      else attachmentName in
    if getAbstractFileByPath v attachmentPath
    then (storeLink attachment attachmentName attachmentLinks, v)
    else
      let (v', fulfilled) :=
        createBinary v attachmentPath (content attachment) in
      if fulfilled
      then (storeLink attachment attachmentName attachmentLinks, v')
      else (attachmentLinks, v').

(** [saveAttachments(email, sourceFile, attachmentFolder)], with
    [sourceFile.basename] as second argument. *)
Definition saveAttachments (email : ParsedEmail)
           (baseName attachmentFolder : jsstring) (v : Vault)
  : VaultError + (Links * Vault) :=
  if Nat.eqb (List.length (attachments email)) 0 then inr ([], v)
  else
    match ensureFolderExists v attachmentFolder with
    | inl e => inl e
    | inr v1 =>
        inr (fold_left (saveAttachment baseName attachmentFolder)
                       (attachments email) ([], v1))
    end.

End WithVault.

(** *** The plugin: the list of attachments *)

Definition imageExtensions : list jsstring :=
  [ str "png"; str "jpg"; str "jpeg"; str "gif"; str "webp"; str "svg";
    str "bmp" ].

Section AttachmentList.
Context {E : Engine}.

(** The line written for a link name: an embed for an image, a link for
    anything else. *)
Definition attachmentLine (linkName : jsstring) : jsstring :=
  let ext :=
    orElse (option_map toLowerCase
                       (nth_error (splitOn linkName (ch "."))
                                  (List.length (splitOn linkName (ch "."))
                                   - 1)))
           [] in
  let isImage := existsb (fun e => streq e ext) imageExtensions in
  if isImage then str "- ![[" ++ linkName ++ str "]]"
  else str "- [[" ++ linkName ++ str "]]".

Definition generateAttachmentList (attachmentLinks : Links) : list jsstring :=
  if Nat.eqb (List.length attachmentLinks) 0 then []
  else
    [ str "### Attachments"; [] ]
    ++ flat_map
         (fun entry =>
            let originalName := fst entry in
            let linkName := snd entry in
            (* Skip cid: entries (duplicates) *)
            if startsWith originalName (str "cid:") then []
            else [attachmentLine linkName])
         attachmentLinks
    ++ [ [] ].

End AttachmentList.

(** *** Reference descriptions used by the properties *)

(** Quoted-printable, as the description words it.  First the soft line
    breaks go: an equals sign immediately followed by a line ending, LF or
    CR LF. *)
Fixpoint removeSoftBreaks (s : jsstring) : jsstring :=
  match s with
  | [] => []
  | c :: t =>
      if c =? ch "=" then
        match t with
        | n :: t' =>
            if n =? LF then removeSoftBreaks t'
            else if n =? CR then
              match t' with
              | m :: t'' =>
                  if m =? LF then removeSoftBreaks t''
                  else c :: removeSoftBreaks t
              | [] => c :: removeSoftBreaks t
              end
            else c :: removeSoftBreaks t
        | [] => [c]
        end
      else c :: removeSoftBreaks t
  end.

(** Then the escapes are expanded: an equals sign and two hexadecimal digits
    give one byte, any other unit stands for its own code. *)
Fixpoint expandEscapes (s : jsstring) : list Z :=
  match s with
  | [] => []
  | c :: t =>
      match t with
      | h :: l :: t' =>
          if c =? ch "=" then
            match hexValue h, hexValue l with
            | Some a, Some b => 16 * a + b :: expandEscapes t'
            | _, _ => c :: expandEscapes t
            end
          else c :: expandEscapes t
      | _ => c :: expandEscapes t
      end
  end.

(** Binary mode returns the bytes; text mode reads them as UTF-8. *)
Definition quotedPrintableBytes (s : jsstring) : Buffer :=
  Buffer_from_array (expandEscapes (removeSoftBreaks s)).
Definition quotedPrintableText (s : jsstring) : jsstring :=
  Buffer_toString_utf8 (quotedPrintableBytes s).

(** Whether the unit just read is a backslash, and the unit before an
    index. *)
Definition escapedBy (prev : option Z) : bool :=
  match prev with Some p => p =? ch "\" | None => false end.
Definition prevAt (s : jsstring) (i : nat) : option Z :=
  match i with
  | O => None
  | S j => charAt s j
  end.

(** An address list read from left to right: [q] says the reader is inside
    double quotes, [a] inside angle brackets, [prev] is the unit just read
    and [cur] the segment being collected.  A comma ends the segment only
    when both flags are down. *)
Fixpoint segmentsFrom (prev : option Z) (q a : bool) (cur rest : jsstring)
  : list jsstring :=
  match rest with
  | [] => [cur]
  | c :: t =>
      if (c =? DQUOTE) && negb (escapedBy prev) then
        segmentsFrom (Some c) (negb q) a (cur ++ [c]) t
      else if (c =? ch "<") && negb q then
        segmentsFrom (Some c) q true (cur ++ [c]) t
      else if (c =? ch ">") && negb q then
        segmentsFrom (Some c) q false (cur ++ [c]) t
      else if (c =? ch ",") && negb q && negb a then
        cur :: segmentsFrom (Some c) q a [] t
      else segmentsFrom (Some c) q a (cur ++ [c]) t
  end.

Definition topLevelSegments (s : jsstring) : list jsstring :=
  segmentsFrom None false false [] s.

Definition nonBlank (s : jsstring) : bool := truthy (trim s).

(** What the scanning loop returns from a state once the string is read. *)
Definition finish (st : Scan) : list EmailAddress :=
  flush (addresses st) (current st).

(** [l.join(sep)] for a one-unit separator. *)
Fixpoint join (sep : Z) (l : list jsstring) : jsstring :=
  match l with
  | [] => []
  | [s] => s
  | s :: l' => s ++ sep :: join sep l'
  end.


(** The pieces of a split body that pass the test of the loops, trimmed. *)
Definition candidates (pieces : list jsstring) : list jsstring :=
  filter isCandidate (map trim pieces).

(** A list without its first and its last element. *)
Definition inner (parts : list jsstring) : list jsstring :=
  removelast (tl parts).

(** The schemes of the allow-list, and the ones the description names as
    rejected. *)
Definition allowedSchemes : list jsstring :=
  [ str "http://"; str "https://"; str "mailto:"; str "cid:" ].
Definition rejectedSchemes : list jsstring :=
  [ str "javascript:"; str "data:"; str "file:" ].

Section Walk.
Context {E : Engine}.

(** A part that is not multipart, as [parseMimePart] sees it once the
    headers are read. *)
Record Leaf : Type := {
  leafHeaders : Headers;
  leafType : jsstring;
  leafEncoding : jsstring;
  leafBody : jsstring
}.

(** The leaves passed through by [parseMimePart] on a part, in the order of
    the calls: the same descent, without the result object. *)
Fixpoint leavesFuel (fuel : nat) (partText : jsstring) : list Leaf :=
  match fuel with
  | O => []
  | S f =>
      match headerAndBody partText with
      | None => []
      | Some (headerText, bodyText) =>
          let headers := parseHeaders headerText in
          let contentType := getContentType headers in
          if startsWith contentType (str "multipart/") then
            match extractBoundary
                    (orElse (Map_get (str "content-type") headers) []) with
            | Some boundary =>
                if truthy boundary then
                  flat_map (leavesFuel f)
                    (candidates
                       (inner (split bodyText (boundaryRegExp boundary))))
                else []
            | None => []
            end
          else
            [ {| leafHeaders := headers; leafType := contentType;
                 leafEncoding := getEncoding headers;
                 leafBody := bodyText |} ]
      end
  end.

Definition leaves (partText : jsstring) : list Leaf :=
  leavesFuel (S (List.length partText)) partText.

(** What [parseMimePart] does with one leaf. *)
Definition applyLeaf (l : Leaf) (result : ParsedEmail) : Result ParsedEmail :=
  parseLeaf (leafHeaders l) (leafType l) (leafEncoding l) (leafBody l) result.

(** The boundary of a header block that announces a multipart body. *)
Definition multipartBoundary (headers : Headers) : option jsstring :=
  if startsWith (getContentType headers) (str "multipart/") then
    match extractBoundary
            (orElse (Map_get (str "content-type") headers) []) with
    | Some boundary => if truthy boundary then Some boundary else None
    | None => None
    end
  else None.

(** The parts that [parseEml] hands to [parseMimePart] for a multipart
    document, and the leaves of the whole walk. *)
Definition documentParts (content : jsstring) : list jsstring :=
  match headerAndBody content with
  | None => []
  | Some (headerText, bodyText) =>
      match multipartBoundary (parseHeaders headerText) with
      | Some boundary =>
          candidates (tl (split bodyText (boundaryRegExp boundary)))
      | None => []
      end
  end.

Definition isMultipart (content : jsstring) : bool :=
  match headerAndBody content with
  | None => false
  | Some (headerText, _) =>
      startsWith (getContentType (parseHeaders headerText)) (str "multipart/")
  end.

Definition walk (content : jsstring) : list Leaf :=
  flat_map leaves (documentParts content).


(** One line of an unfolded header block: its key and value, when a colon
    follows at least one character. *)
Definition headerLine (line : jsstring) : option (jsstring * jsstring) :=
  match indexOf line (ch ":") with
  | Some (S _ as colonIndex) =>
      Some (toLowerCase (trim (substring line 0 colonIndex)),
            decodeMimeWord (trim (substringFrom line (colonIndex + 1))))
  | _ => None
  end.

(** The value of the last line that carries a key. *)
Fixpoint lastValue (k : jsstring) (lines : list jsstring)
  : option jsstring :=
  match lines with
  | [] => None
  | line :: rest =>
      match lastValue k rest with
      | Some v => Some v
      | None =>
          match headerLine line with
          | Some (k', v) => if streq k' k then Some v else None
          | None => None
          end
      end
  end.

(** The disposition type of a Content-Disposition value, as the type is
    read off a Content-Type value: the text before the first semicolon,
    trimmed and lower-cased. *)
Definition dispositionType (disposition : jsstring) : jsstring :=
  toLowerCase (trim (beforeFirst (ch ";") disposition)).

End Walk.

(** The angle brackets that are taken off a Content-ID. *)
Definition isAngle (c : Z) : bool := (c =? ch "<") || (c =? ch ">").


(** The test of the attachment branch, as the description lists it: the part
    declares a filename, or its disposition mentions attachment, or its type
    is neither text/* nor multipart/*. *)
Definition attachmentRule (fn : option jsstring)
           (disposition contentType : jsstring) : Prop :=
  declared fn = true
  \/ includes disposition (str "attachment") = true
  \/ (startsWith contentType (str "text/") = false
      /\ startsWith contentType (str "multipart/") = false).

(** *** Further reference descriptions *)

(** Reading a string from left to right with every maximal run of units
    accepted by [P] written as one underscore; [inRun] says that the unit
    just read was accepted. *)
Fixpoint squeeze (P : Z -> bool) (inRun : bool) (s : jsstring) : jsstring :=
  match s with
  | [] => []
  | c :: t =>
      if P c then
        if inRun then squeeze P true t else ch "_" :: squeeze P true t
      else c :: squeeze P false t
  end.

(** The length of the run of accepted units at the head of a string. *)
Fixpoint run (P : Z -> bool) (s : jsstring) : nat :=
  match s with
  | c :: t => if P c then S (run P t) else O
  | [] => O
  end.

Definition isUnsafe (c : Z) : bool := inRanges unsafeRanges c.
Definition isUnderscore (c : Z) : bool := c =? ch "_".

(** A unit that may stay in a file name. *)
Definition safeUnit (c : Z) : bool := negb (isUnsafe c) && negb (isWhiteSpace c).

(** The first replacement of [sanitizeFilename], on one unit. *)
Definition underscoreIfUnsafe (c : Z) : Z := if isUnsafe c then ch "_" else c.

(** [r] reads exactly one unit, which [P] accepts. *)
Definition readsOne (ic : bool) (r : regex) (P : Z -> bool) : Prop :=
  forall (R : Type) (pos : nat) (rest : jsstring) (cs : captures)
         (k : nat -> jsstring -> captures -> option R),
    matchRe ic r pos rest cs k
    = match rest with
      | c :: t => if P c then k (S pos) t cs else None
      | [] => None
      end.

(** What [escapeYaml] writes for one unit. *)
Definition escapeUnit (c : Z) : jsstring :=
  if c =? ch "\" then [ch "\"; ch "\"]
  else if c =? DQUOTE then [ch "\"; DQUOTE]
  else if c =? LF then [ch "\"; ch "n"]
  else [c].

(** The reading of the body of a double-quoted YAML scalar, for the escapes
    that [escapeYaml] writes: a backslash and n give a line feed, a
    backslash and another unit give that unit. *)
Fixpoint unescapeYaml (s : jsstring) : jsstring :=
  match s with
  | [] => []
  | c :: t =>
      if c =? ch "\" then
        match t with
        | d :: t' =>
            (if d =? ch "n" then LF else d) :: unescapeYaml t'
        | [] => [c]
        end
      else c :: unescapeYaml t
  end.

(** The index of the double quote that closes a double-quoted scalar: the
    first one that no backslash escapes. *)
Fixpoint closingQuote (s : jsstring) : option nat :=
  match s with
  | [] => None
  | c :: t =>
      if c =? ch "\" then
        match t with
        | _ :: t' => option_map (fun i => S (S i)) (closingQuote t')
        | [] => None
        end
      else if c =? DQUOTE then Some O
      else option_map S (closingQuote t)
  end.

(** A unit that has no meaning in an address list: not a double quote, an
    angle bracket or a comma. *)
Definition plainUnit (c : Z) : bool :=
  negb ((c =? DQUOTE) || (c =? ch "<") || (c =? ch ">") || (c =? ch ",")).

(** An address that can be displayed without loss: name and address are
    trimmed and made of plain units, and the address is not empty. *)
Definition displayable (a : EmailAddress) : Prop :=
  forallb plainUnit (name a) = true
  /\ forallb plainUnit (address a) = true
  /\ trim (name a) = name a
  /\ trim (address a) = address a
  /\ address a <> [].

(** A byte. *)
Definition isByte (b : Z) : bool := (0 <=? b) && (b <? 256).

(** The quoted-printable writing of a byte sequence: a printable ASCII
    character other than the equals sign stands for itself, any other byte
    is an equals sign and its two upper-case hexadecimal digits. *)
Definition hexDigit (v : Z) : Z := if v <? 10 then 48 + v else 55 + v.
Definition quotedPrintableUnit (b : Z) : jsstring :=
  if (33 <=? b) && (b <=? 126) && negb (b =? ch "=") then [b]
  else [ch "="; hexDigit (b / 16); hexDigit (b mod 16)].
Definition quotedPrintableEncode (bytes : Buffer) : jsstring :=
  flat_map quotedPrintableUnit bytes.

(** The base64 writing of a byte sequence, with padding. *)
Definition base64Digit (v : Z) : Z :=
  if v <? 26 then 65 + v
  else if v <? 52 then 71 + v
  else if v <? 62 then v - 4
  else if v =? 62 then ch "+"
  else ch "/".

Fixpoint base64Encode (bytes : Buffer) : jsstring :=
  match bytes with
  | a :: b :: c :: rest =>
      base64Digit (a / 4)
      :: base64Digit (a mod 4 * 16 + b / 16)
      :: base64Digit (b mod 16 * 4 + c / 64)
      :: base64Digit (c mod 64)
      :: base64Encode rest
  | [a; b] =>
      [ base64Digit (a / 4); base64Digit (a mod 4 * 16 + b / 16);
        base64Digit (b mod 16 * 4); ch "=" ]
  | [a] => [ base64Digit (a / 4); base64Digit (a mod 4 * 16); ch "="; ch "=" ]
  | [] => []
  end.

(** An ASCII unit other than the equals sign. *)
Definition plainAscii (c : Z) : bool := isAscii c && negb (c =? ch "=").

(** A pattern without capture groups. *)
Fixpoint noGroups (r : regex) : bool :=
  match r with
  | Seq r1 r2 | Alt r1 r2 => noGroups r1 && noGroups r2
  | Star r1 => noGroups r1
  | Group _ _ => false
  | _ => true
  end.

(** A unit that can stand in a boundary parameter. *)
Definition boundaryUnit (c : Z) : bool :=
  negb ((c =? DQUOTE) || (c =? ch ";")).

(** The fields of a message that come from its own header block. *)
Definition envelope (r : ParsedEmail) :=
  (from r, to r, cc r, bcc r, subject r, date r, messageId r).

(** A leaf whose type is neither text/plain nor text/html. *)
Definition notText (l : Leaf) : bool :=
  negb (streq (leafType l) (str "text/plain"))
  && negb (streq (leafType l) (str "text/html")).

(** A leaf that passes without an exception: if it is neither text/plain
    nor text/html, so that its filename is looked at, the filename is
    extracted. *)
Section Quiet.
Context {E : Engine}.

Definition quiet (l : Leaf) : Prop :=
  notText l = true -> exists fn, getFilename (leafHeaders l) = inr fn.

End Quiet.

(** A unit of a number written in decimal: a digit or the minus sign. *)
Definition numeric (c : Z) : bool := ((48 <=? c) && (c <=? 57)) || (c =? ch "-").

(** An entry of the link map that stands for an attachment: its value is
    the base name, an underscore and the sanitized file name, its key the
    file name or cid: and the Content-ID. *)
Definition linkOf (baseName : jsstring) (a : Attachment)
           (entry : jsstring * jsstring) : Prop :=
  snd entry = baseName ++ str "_" ++ sanitizeFilename (filename a)
  /\ (fst entry = filename a
      \/ exists cid,
           contentId a = Some cid /\ fst entry = str "cid:" ++ cid).

(** The entries that [generateAttachmentList] writes a line for. *)
Definition listed (m : Links) : Links :=
  filter (fun entry => negb (startsWith (fst entry) (str "cid:"))) m.

(** The path that the loop of [ensureFolderExists] has built after a list
    of parts, from the path it had. *)
Definition extendPath (currentPath part : jsstring) : jsstring :=
  if truthy currentPath then currentPath ++ str "/" ++ part else part.

(** An encoded word of a header: charset, encoding letter and encoded
    text between the marks. *)
Definition encodedWord (charset : jsstring) (encoding : Z)
           (text : jsstring) : jsstring :=
  str "=?" ++ charset ++ str "?" ++ [encoding] ++ str "?" ++ text ++ str "?=".

(** A unit other than the question mark. *)
Definition notQuestion (c : Z) : bool := negb (c =? ch "?").

(** The Q writing of ASCII text: a space is an underscore, a printable
    character other than = ? and _ stands for itself, any other unit is an
    equals sign and its two hexadecimal digits. *)
Definition qUnit (c : Z) : jsstring :=
  if c =? ch " " then [ch "_"]
  else if (33 <=? c) && (c <=? 126)
          && negb ((c =? ch "=") || (c =? ch "?") || (c =? ch "_"))
  then [c]
  else [ch "="; hexDigit (c / 16); hexDigit (c mod 16)].
Definition qEncode (text : jsstring) : jsstring := flat_map qUnit text.

(** **** Sample documents *)

(** Lines joined by LF. *)
Fixpoint unlines (l : list jsstring) : jsstring :=
  match l with
  | [] => []
  | [s] => s
  | s :: l' => s ++ LF :: unlines l'
  end.

(** A multipart/mixed message holding a multipart/alternative part (plain
    text and HTML) and an unnamed binary part. *)
Definition mailNested : jsstring :=
  unlines
    [ str "From: Ann <ann@x.org>";
      str "Subject: hi";
      str "Content-Type: multipart/mixed; boundary=OUT";
      [];
      str "preamble";
      str "--OUT";
      str "Content-Type: multipart/alternative; boundary=IN";
      [];
      str "--IN";
      str "Content-Type: text/plain";
      [];
      str "plain text";
      str "--IN";
      str "Content-Type: text/html";
      [];
      str "<p>html</p>";
      str "--IN--";
      [];
      str "--OUT";
      str "Content-Type: application/octet-stream";
      str "Content-ID: <abc123>";
      [];
      str "DATA";
      str "--OUT--";
      [] ].

(** A part whose Content-Disposition carries a percent sign that starts no
    escape. *)
Definition mailBadFilename : jsstring :=
  unlines
    [ str "Content-Type: multipart/mixed; boundary=B";
      [];
      str "--B";
      str "Content-Type: application/pdf";
      str "Content-Disposition: attachment; filename=100%.pdf";
      [];
      str "x";
      str "--B--";
      [] ].

(** A Date header that is no date. *)
Definition mailInvalidDate : jsstring :=
  unlines [ str "Date: not a date"; str "Subject: x"; []; str "body" ].

(** A text/plain part sent as an attachment with a file name. *)
Definition partTextAttachment : jsstring :=
  unlines
    [ str "Content-Type: text/plain";
      str "Content-Disposition: attachment; filename=notes.txt";
      [];
      str "some notes" ].

(** A binary part without a name: its header block, then the part. *)
Definition partBinaryHeader : jsstring :=
  unlines
    [ str "Content-Type: application/octet-stream";
      str "Content-ID: <abc123>" ].
Definition partBinary : jsstring :=
  unlines [ partBinaryHeader; []; str "DATA" ].




(** A binary part with a file name and no content: cut out of its message
    and trimmed, it is its header block alone.  Then a message that holds
    it. *)
Definition partHeaderOnly : jsstring :=
  unlines
    [ str "Content-Type: application/pdf";
      str "Content-Disposition: attachment; filename=empty.pdf" ].
Definition mailEmptyAttachment : jsstring :=
  unlines
    [ str "Content-Type: multipart/mixed; boundary=B";
      [];
      str "--B";
      str "Content-Type: application/pdf";
      str "Content-Disposition: attachment; filename=empty.pdf";
      [];
      [];
      str "--B--";
      [] ].

(** A calendar part shown inline, whose disposition carries the word
    attachment in a parameter. *)
Definition partInlineNote : jsstring :=
  unlines
    [ str "Content-Type: text/calendar";
      str "Content-Disposition: inline; comment=attachment";
      [];
      str "BEGIN:VCALENDAR" ].

(** A calendar part whose disposition type is written in capitals. *)
Definition partUpperDisposition : jsstring :=
  unlines
    [ str "Content-Type: text/calendar";
      str "Content-Disposition: ATTACHMENT";
      [];
      str "BEGIN:VCALENDAR" ].



(** What [parseEml] returns on [mailNested]. *)
Definition mailNestedResult : ParsedEmail :=
  {| from := [ {| name := str "Ann"; address := str "ann@x.org" |} ];
     to := []; cc := []; bcc := [];
     subject := str "hi";
     date := None;
     messageId := [];
     textBody := str "plain text";
     htmlBody := str "<p>html</p>";
     attachments :=
       [ {| filename := str "attachment_1";
            contentType := str "application/octet-stream";
            content := str "DATA";
            contentId := Some (str "abc123") |} ] |}.

(** The leaf of [partBinary] and the attachment made of it. *)
Definition leafBinary : Leaf :=
  {| leafHeaders := parseHeaders partBinaryHeader;
     leafType := str "application/octet-stream";
     leafEncoding := str "7bit";
     leafBody := str "DATA" |}.
Definition attachmentBinary : Attachment :=
  {| filename := str "attachment_1";
     contentType := str "application/octet-stream";
     content := str "DATA";
     contentId := Some (str "abc123") |}.

(** The header block of [mailNested]. *)
Definition mailNestedHeader : jsstring :=
  unlines
    [ str "From: Ann <ann@x.org>";
      str "Subject: hi";
      str "Content-Type: multipart/mixed; boundary=OUT" ].

(** Two addresses, the first with a display name. *)
Definition addressBook : list EmailAddress :=
  [ {| name := str "John Doe"; address := str "john@x.com" |};
    {| name := []; address := str "jane@y.com" |} ].

(** A clock that reads every date as 5 March 2024, 09:07:30. *)
Definition sampleClock : Clock :=
  {| getTime := fun _ => Some 1709629650000;
     getFullYear := fun _ => 2024;
     getMonth := fun _ => 2;
     getDate := fun _ => 5;
     getHours := fun _ => 9;
     getMinutes := fun _ => 7;
     getSeconds := fun _ => 30 |}.

(** A vault that is the list of its paths, in which paths are normal as
    they are written and every call succeeds. *)
Definition listVault : VaultApi (list jsstring) :=
  {| normalizePath := fun p => p;
     getAbstractFileByPath := fun v p => existsb (streq p) v;
     createFolder := fun v p => (p :: v, true);
     createBinary := fun v p _ => (p :: v, true) |}.

(** The link map of the attachment of [mailNestedResult], saved for a
    message file named mail. *)
Definition mailNestedLinks : Links :=
  [ (str "attachment_1", str "mail_attachment_1");
    (str "cid:abc123", str "mail_attachment_1") ].

(** *** Properties *)

Section Properties.
Context {E : Engine}.

(** **** URLs *)

Lemma isSafeUrl_schemes (url : jsstring) :
  isSafeUrl url
  = existsb (startsWith (toLowerCase (trim url))) allowedSchemes.
Proof.
  unfold isSafeUrl, allowedSchemes. simpl.
  rewrite orb_false_r, !orb_assoc. reflexivity.
Qed.

(** On an ASCII literal the check is decided by the ASCII tables. *)
Lemma isSafeUrl_ascii (url : jsstring) :
  forallb isAscii (trim url) = true ->
  isSafeUrl url
  = existsb (startsWith (map lowerUnit (trim url))) allowedSchemes.
Proof.
  intros H. rewrite isSafeUrl_schemes, (toLowerCase_ascii _ H). reflexivity.
Qed.

(** A string that starts with one of the rejected schemes starts with none
    of the allowed ones. *)
Lemma rejected_scheme (t scheme : jsstring) :
  In scheme rejectedSchemes ->
  startsWith t scheme = true ->
  existsb (startsWith t) allowedSchemes = false.
Proof.
  unfold rejectedSchemes, allowedSchemes.
  intros Hin Hs.
  destruct t as [|c t].
  { destruct Hin as [ <- | [ <- | [ <- | [] ] ] ]; discriminate. }
  assert (Hc : c = ch "j" \/ c = ch "d" \/ c = ch "f").
  { destruct Hin as [ <- | [ <- | [ <- | [] ] ] ];
      cbn [str map list_ascii_of_string startsWith] in Hs;
      apply andb_prop in Hs; destruct Hs as [Hs _];
      apply Z.eqb_eq in Hs; auto. }
  cbn [existsb str map list_ascii_of_string startsWith].
  destruct Hc as [ -> | [ -> | -> ] ]; reflexivity.
Qed.

(** C5: sanitizeUrl returns the URL when its trimmed, lower-cased form starts
    with http://, https://, mailto: or cid:, and the empty string for every
    other URL, among them every javascript:, data: and file: URL;
    javascript:alert(1) and a data:text/html URL are rejected,
    https://example.com, mailto:a@b.com and cid:img1 are accepted. *)
Theorem sanitizeUrl_allow_list :
  (forall url,
      existsb (startsWith (toLowerCase (trim url))) allowedSchemes = true ->
      sanitizeUrl url = url)
  /\ (forall url,
      existsb (startsWith (toLowerCase (trim url))) allowedSchemes = false ->
      sanitizeUrl url = [])
  /\ (forall url scheme,
      In scheme rejectedSchemes ->
      startsWith (toLowerCase (trim url)) scheme = true ->
      sanitizeUrl url = [])
  /\ sanitizeUrl (str "javascript:alert(1)") = []
  /\ sanitizeUrl (str "data:text/html,<script>alert(1)</script>") = []
  /\ sanitizeUrl (str "https://example.com") = str "https://example.com"
  /\ sanitizeUrl (str "mailto:a@b.com") = str "mailto:a@b.com"
  /\ sanitizeUrl (str "cid:img1") = str "cid:img1".
Proof.
  assert (closed : forall url b,
             forallb isAscii (trim url) = true ->
             existsb (startsWith (map lowerUnit (trim url))) allowedSchemes
             = b ->
             sanitizeUrl url = if b then url else []).
  { intros url b Ha Hb. unfold sanitizeUrl.
    rewrite (isSafeUrl_ascii _ Ha), Hb. reflexivity. }
  assert (open : forall url b,
             existsb (startsWith (toLowerCase (trim url))) allowedSchemes = b ->
             sanitizeUrl url = if b then url else []).
  { intros url b H. unfold sanitizeUrl.
    rewrite isSafeUrl_schemes, H. reflexivity. }
  split; [intros url H; apply (open url true H)|].
  split; [intros url H; apply (open url false H)|].
  split.
  { intros url scheme Hin Hs.
    apply (open url false). apply (rejected_scheme _ scheme Hin Hs). }
  split; [apply (closed _ false); reflexivity|].
  split; [apply (closed _ false); reflexivity|].
  split; [apply (closed _ true); reflexivity|].
  split; apply (closed _ true); reflexivity.
Qed.

(** C9: sanitizeUrl returns its argument unchanged or the empty string.  A
    URL whose trimmed, lower-cased form starts with a scheme of the
    allow-list is returned as it was given, surrounding blanks and capitals
    included, and only such a URL is returned; the trimmed, lower-cased form
    only serves the check, as on a mailto: URL written with blanks and
    capitals, which differs both from its trimmed and from its lower-cased
    form and comes back unchanged. *)
Theorem sanitizeUrl_unchanged_or_empty :
  (forall url, sanitizeUrl url = url \/ sanitizeUrl url = [])
  /\ (forall url,
         existsb (startsWith (toLowerCase (trim url))) allowedSchemes = true ->
         sanitizeUrl url = url)
  /\ (forall url,
         sanitizeUrl url <> [] ->
         existsb (startsWith (toLowerCase (trim url))) allowedSchemes = true)
  /\ (let url := str " MailTo:Ann@X.org " in
      sanitizeUrl url = url
      /\ trim url <> url
      /\ toLowerCase url <> url
      /\ toLowerCase (trim url) <> url).
Proof.
  split.
  { intros url. unfold sanitizeUrl.
    destruct (isSafeUrl url); [left | right]; reflexivity. }
  split.
  { intros url H. unfold sanitizeUrl.
    rewrite isSafeUrl_schemes, H. reflexivity. }
  split.
  { intros url H. unfold sanitizeUrl in H. rewrite isSafeUrl_schemes in H.
    destruct (existsb _ _); [reflexivity | contradiction]. }
  cbv zeta. split.
  { unfold sanitizeUrl. rewrite isSafeUrl_ascii by reflexivity. reflexivity. }
  split; [discriminate|].
  rewrite !toLowerCase_ascii by reflexivity. split; discriminate.
Qed.

(** **** Fuel of the built-ins *)

Lemma percentByte_length (s rest : jsstring) (b : Z) :
  percentByte s = Some (b, rest) -> List.length s = (List.length rest + 3)%nat.
Proof.
  unfold percentByte. destruct s as [|p [|h [|l t]]]; try discriminate.
  destruct (p =? 37); [|discriminate].
  destruct (hexValue h); [|discriminate].
  destruct (hexValue l); [|discriminate].
  intros H. injection H as _ <-. simpl. lia.
Qed.

Lemma continuation_length (n : nat) :
  forall (s rest : jsstring) (cp cp' : Z),
    continuation n s cp = Some (cp', rest) ->
    (List.length rest <= List.length s)%nat.
Proof.
  induction n as [|n IH]; intros s rest cp cp' H; cbn [continuation] in H.
  - injection H as _ <-. lia.
  - destruct (percentByte s) as [[b r]|] eqn:Hp; [|discriminate].
    destruct (Z.land b 192 =? 128); [|discriminate].
    apply IH in H. apply percentByte_length in Hp. lia.
Qed.

(** A step of the decoder consumes at least one unit. *)
Lemma decodeStep_length (c : Z) (t out rest : jsstring) :
  decodeStep (c :: t) = inr (out, rest) ->
  (List.length rest <= List.length t)%nat.
Proof.
  unfold decodeStep.
  destruct (negb (c =? 37)); [intros H; injection H as _ <-; lia|].
  destruct (percentByte (c :: t)) as [[b r]|] eqn:Hp; [|discriminate].
  apply percentByte_length in Hp. simpl in Hp.
  destruct (b <? 128); [intros H; injection H as _ <-; lia|].
  assert (Hm : forall n mask lo,
             match continuation n r (Z.land b mask) with
             | Some (cp, rest') =>
                 if (lo <=? cp) && (cp <=? 1114111)
                    && negb ((55296 <=? cp) && (cp <=? 57343))
                 then ret (utf16 cp, rest')
                 else throw URIError
             | None => throw URIError
             end = inr (out, rest) ->
             (List.length rest <= List.length t)%nat).
  { intros n mask lo H.
    destruct (continuation n r (Z.land b mask)) as [[cp r']|] eqn:Hc;
      [|discriminate].
    apply continuation_length in Hc.
    destruct (_ && _); [|discriminate]. injection H as _ <-. lia. }
  destruct (Z.land b 224 =? 192); [apply Hm|].
  destruct (Z.land b 240 =? 224); [apply Hm|].
  destruct (Z.land b 248 =? 240); [apply Hm | discriminate].
Qed.

(** Fuel beyond the length of the string changes nothing in
    [decodeURIComponent]. *)
Lemma decodeURIFuel_enough (f1 : nat) :
  forall (f2 : nat) (s : jsstring),
    (List.length s <= f1)%nat -> (List.length s <= f2)%nat ->
    decodeURIFuel f1 s = decodeURIFuel f2 s.
Proof.
  induction f1 as [|f1 IH]; intros f2 s H1 H2.
  - destruct s; [|simpl in H1; lia]. destruct f2; reflexivity.
  - destruct s as [|c t]; [destruct f2; reflexivity|].
    destruct f2 as [|f2]; [simpl in H2; lia|].
    cbn [decodeURIFuel]. simpl in H1, H2.
    destruct (decodeStep (c :: t)) as [e|[out rest]] eqn:Hs; [reflexivity|].
    cbn [bind]. apply decodeStep_length in Hs.
    rewrite (IH f2 rest) by lia. reflexivity.
Qed.

(** Likewise for the digits of a number. *)
Lemma digitsFuel_enough (f1 : nat) :
  forall (f2 n : nat) (acc : jsstring),
    (n < f1)%nat -> (n < f2)%nat ->
    digitsFuel f1 n acc = digitsFuel f2 n acc.
Proof.
  induction f1 as [|f1 IH]; intros f2 n acc H1 H2; [lia|].
  destruct f2 as [|f2]; [lia|].
  cbn [digitsFuel].
  destruct (n <? 10)%nat eqn:Hn; [reflexivity|].
  apply Nat.ltb_ge in Hn.
  assert (n / 10 < n)%nat by (apply Nat.div_lt; lia).
  apply IH; lia.
Qed.

(** **** The boundary pattern *)

Lemma syntax_match (pos : nat) (c : Z) (t : jsstring) :
  matchAt SYNTAX_RE pos (c :: t)
  = if inRanges syntaxRanges c then Some (S pos, []) else None.
Proof.
  unfold matchAt, SYNTAX_RE, re.
  cbn [pattern flag_i matchRe inClass xorb].
  destruct (inRanges syntaxRanges c); reflexivity.
Qed.

Lemma escapeRegex_go (s : jsstring) :
  forall pos,
    compileLiteral
      (replaceGo SYNTAX_RE (fun matched _ => ch "\" :: matched) 0 pos s)
    = Some (Lit s).
Proof.
  induction s as [|c t IH]; intros pos; [reflexivity|].
  cbn [replaceGo]. rewrite syntax_match.
  destruct (inRanges syntaxRanges c) eqn:Hc.
  - replace (Nat.eqb (S pos) pos) with false
      by (symmetry; apply Nat.eqb_neq; lia).
    replace (S pos - pos - 1)%nat with 0%nat by lia.
    replace (S pos - pos)%nat with 1%nat by lia.
    cbn [firstn app compileLiteral]. rewrite Z.eqb_refl, Hc, IH. reflexivity.
  - cbn [compileLiteral]. rewrite Hc.
    destruct (c =? ch "\") eqn:Hb.
    + apply Z.eqb_eq in Hb. subst c. discriminate.
    + rewrite IH. reflexivity.
Qed.

(** The pattern text built from a boundary reads as the boundary, unit by
    unit. *)
Lemma escapeRegex_literal (boundary : jsstring) :
  compileLiteral (escapeRegex boundary) = Some (Lit boundary).
Proof. apply escapeRegex_go. Qed.

(** **** Quoted-printable *)

Lemma inRanges_hex (c : Z) : inRanges hexRanges c = isHexDigit c.
Proof.
  unfold inRanges, hexRanges, isHexDigit, hexValue. simpl.
  destruct ((48 <=? c) && (c <=? 57)); simpl; auto.
  destruct ((65 <=? c) && (c <=? 70)); simpl; auto.
  destruct ((97 <=? c) && (c <=? 102)); simpl; auto.
Qed.

(** The test of the loop on a two-unit string. *)
Lemma test_hex2 (h l : Z) :
  test HEX2_RE [h; l] = isHexDigit h && isHexDigit l.
Proof.
  unfold test, HEX2_RE, re.
  cbn [searchFrom matchAt pattern flag_i seqs matchRe Nat.eqb inClass xorb].
  rewrite !inRanges_hex.
  destruct (isHexDigit h); cbn.
  - destruct (isHexDigit l); cbn; reflexivity.
  - reflexivity.
Qed.

Lemma parseInt16_pair (h l a b : Z) :
  hexValue h = Some a -> hexValue l = Some b -> parseInt16 [h; l] = 16 * a + b.
Proof.
  intros Ha Hb. unfold parseInt16. cbn [fold_left]. rewrite Ha, Hb. lia.
Qed.

Lemma skipn_nth (s : jsstring) (i : nat) :
  (i < List.length s)%nat -> skipn i s = nth i s 0 :: skipn (S i) s.
Proof.
  revert i. induction s as [|x s IH]; intros i H; simpl in H; [lia|].
  destruct i as [|i]; [reflexivity|]. simpl. apply IH. lia.
Qed.

Lemma charAt_nth (s : jsstring) (i : nat) :
  (i < List.length s)%nat -> charAt s i = Some (nth i s 0).
Proof.
  intros H. unfold charAt. apply nth_error_nth'. exact H.
Qed.

Lemma expandEscapes_cons3 (c h l : Z) (t : jsstring) :
  expandEscapes (c :: h :: l :: t)
  = if c =? ch "=" then
      match hexValue h, hexValue l with
      | Some a, Some b => 16 * a + b :: expandEscapes t
      | _, _ => c :: expandEscapes (h :: l :: t)
      end
    else c :: expandEscapes (h :: l :: t).
Proof. reflexivity. Qed.

Lemma expandEscapes_short (c : Z) (t : jsstring) :
  (List.length t < 2)%nat -> expandEscapes (c :: t) = c :: expandEscapes t.
Proof.
  destruct t as [|h [|l t]]; simpl; intros H; try reflexivity. lia.
Qed.

(** Loop invariant: with fuel for the units that are left, the loop appends
    the expansion of the rest of the string to the bytes it holds. *)
Lemma escapeLoop_spec (fuel : nat) :
  forall (s : jsstring) (i : nat) (acc : list Z),
    (List.length s - i <= fuel)%nat ->
    escapeLoop fuel s i acc = acc ++ expandEscapes (skipn i s).
Proof.
  induction fuel as [|f IH]; intros s i acc Hf.
  - simpl. rewrite skipn_all2 by lia. now rewrite app_nil_r.
  - cbn [escapeLoop].
    destruct (i <? List.length s)%nat eqn:Hi.
    2:{ apply Nat.ltb_ge in Hi. rewrite skipn_all2 by lia.
        now rewrite app_nil_r. }
    apply Nat.ltb_lt in Hi.
    rewrite (charAt_nth _ _ Hi), (skipn_nth _ _ Hi).
    unfold charCodeAt.
    set (c := nth i s 0).
    assert (Hstep : escapeLoop f s (i + 1) (acc ++ [c])
                    = acc ++ c :: expandEscapes (skipn (S i) s)).
    { rewrite IH by lia. rewrite <- app_assoc. simpl.
      now rewrite Nat.add_1_r. }
    destruct (i + 2 <? List.length s)%nat eqn:Hi2.
    + apply Nat.ltb_lt in Hi2.
      assert (Hrest : skipn (S i) s
                      = nth (S i) s 0 :: nth (S (S i)) s 0 :: skipn (i + 3) s).
      { rewrite (skipn_nth s (S i)) by lia.
        rewrite (skipn_nth s (S (S i))) by lia.
        now replace (i + 3)%nat with (S (S (S i))) by lia. }
      set (h := nth (S i) s 0) in *. set (l := nth (S (S i)) s 0) in *.
      assert (Hhex : substring s (i + 1) (i + 3) = [h; l]).
      { unfold substring. replace (i + 3 - (i + 1))%nat with 2%nat by lia.
        rewrite Nat.add_1_r, Hrest. reflexivity. }
      rewrite Hhex, test_hex2. rewrite Hrest at 1.
      rewrite expandEscapes_cons3, <- Hrest.
      rewrite Nat.add_1_r in *.
      unfold isHexDigit.
      destruct (c =? ch "="); cbn [andb]; [|exact Hstep].
      destruct (hexValue h) as [a|] eqn:Ha; cbn [andb]; [|exact Hstep].
      destruct (hexValue l) as [b|] eqn:Hb; [|exact Hstep].
      rewrite IH by lia. rewrite <- app_assoc.
      rewrite (parseInt16_pair _ _ _ _ Ha Hb). reflexivity.
    + rewrite andb_false_r, Hstep.
      apply Nat.ltb_ge in Hi2. rewrite expandEscapes_short; [reflexivity|].
      rewrite length_skipn. lia.
Qed.

Lemma escapeBytes_spec (s : jsstring) : escapeBytes s = expandEscapes s.
Proof.
  unfold escapeBytes. rewrite escapeLoop_spec by lia. reflexivity.
Qed.

(** Where the soft-break pattern matches. *)
Lemma softBreak_cons (pos : nat) (c : Z) (t : jsstring) :
  matchAt SOFT_BREAK_RE pos (c :: t)
  = if c =? ch "=" then
      match t with
      | n :: t' =>
          if n =? LF then Some (S (S pos), [])
          else if n =? CR then
            match t' with
            | m :: _ => if m =? LF then Some (S (S (S pos)), []) else None
            | [] => None
            end
          else None
      | [] => None
      end
    else None.
Proof.
  unfold matchAt, SOFT_BREAK_RE, re, Opt.
  cbn [pattern flag_i seqs matchRe sameChar].
  rewrite (Z.eqb_sym (ch "=") c).
  destruct (c =? ch "="); [|reflexivity].
  destruct t as [|n t']; [reflexivity|].
  rewrite (Z.eqb_sym CR n), (Z.eqb_sym LF n).
  destruct (n =? LF) eqn:Hn.
  - destruct (n =? CR) eqn:Hc; [|reflexivity].
    apply Z.eqb_eq in Hn, Hc. unfold LF, CR in *. lia.
  - destruct (n =? CR); [|reflexivity].
    destruct t' as [|m t'']; [reflexivity|].
    rewrite (Z.eqb_sym LF m). destruct (m =? LF); reflexivity.
Qed.

Lemma replace_softBreaks_go (n : nat) :
  forall (s : jsstring) (pos : nat),
    (List.length s <= n)%nat ->
    replaceGo SOFT_BREAK_RE erase 0 pos s = removeSoftBreaks s.
Proof.
  induction n as [|n IH]; intros s pos Hn.
  - destruct s; [reflexivity | simpl in Hn; lia].
  - destruct s as [|c t]; [reflexivity|].
    simpl in Hn. cbn [replaceGo removeSoftBreaks].
    rewrite softBreak_cons.
    destruct (c =? ch "="); [|now rewrite IH by lia].
    destruct t as [|x t']; [reflexivity|].
    simpl in Hn.
    destruct (x =? LF).
    { replace (Nat.eqb (S (S pos)) pos) with false
        by (symmetry; apply Nat.eqb_neq; lia).
      replace (S (S pos) - pos - 1)%nat with 1%nat by lia.
      cbn [erase app replaceGo]. apply IH. lia. }
    destruct (x =? CR); [|now rewrite IH by (simpl; lia)].
    destruct t' as [|m t'']; [now rewrite IH by (simpl; lia)|].
    simpl in Hn.
    destruct (m =? LF); [|now rewrite IH by (simpl; lia)].
    replace (Nat.eqb (S (S (S pos))) pos) with false
      by (symmetry; apply Nat.eqb_neq; lia).
    replace (S (S (S pos)) - pos - 1)%nat with 2%nat by lia.
    cbn [erase app replaceGo]. apply IH. lia.
Qed.

Lemma replace_softBreaks (s : jsstring) :
  replaceAll s SOFT_BREAK_RE erase = removeSoftBreaks s.
Proof. apply (replace_softBreaks_go (List.length s)). lia. Qed.

(** C7: for every input the text-mode quoted-printable decoder is the UTF-8
    reading of the bytes of the binary-mode decoder; both remove the soft line
    breaks and expand the escapes as described, and differ only in the last
    step. *)
Theorem decodeQuotedPrintable_is_utf8_of_buffer (s : jsstring) :
  decodeQuotedPrintable s
  = Buffer_toString_utf8 (decodeQuotedPrintableToBuffer s)
  /\ decodeQuotedPrintableToBuffer s = quotedPrintableBytes s
  /\ decodeQuotedPrintable s = quotedPrintableText s.
Proof.
  assert (Hb : decodeQuotedPrintableToBuffer s = quotedPrintableBytes s).
  { unfold decodeQuotedPrintableToBuffer, quotedPrintableBytes.
    now rewrite replace_softBreaks, escapeBytes_spec. }
  assert (Ht : decodeQuotedPrintable s
               = Buffer_toString_utf8 (decodeQuotedPrintableToBuffer s)).
  { unfold decodeQuotedPrintable, tryCatch, ret. reflexivity. }
  split; [exact Ht | split; [exact Hb |]].
  rewrite Ht, Hb. reflexivity.
Qed.

(** **** Address lists *)

Lemma notAfterBackslash_prev (s : jsstring) (i : nat) :
  notAfterBackslash s i = negb (escapedBy (prevAt s i)).
Proof.
  destruct i as [|j]; [reflexivity|]. simpl.
  destruct (charAt s j); reflexivity.
Qed.

Lemma flush_segment (addrs : list EmailAddress) (cur : jsstring)
      (l : list jsstring) :
  flush addrs cur ++ map parseEmailAddress (filter nonBlank l)
  = addrs ++ map parseEmailAddress (filter nonBlank (cur :: l)).
Proof.
  unfold flush. cbn [filter]. unfold nonBlank at 2.
  destruct (truthy (trim cur)); [|reflexivity].
  rewrite <- app_assoc. reflexivity.
Qed.

(** The loop over the indices from [i] on does what the left-to-right reading
    of the rest of the string does. *)
Lemma scan_segments (rest : jsstring) :
  forall (s : jsstring) (i : nat) (st : Scan),
    skipn i s = rest ->
    finish (fold_left (scanStep s) (seq i (List.length rest)) st)
    = addresses st
      ++ map parseEmailAddress
           (filter nonBlank
              (segmentsFrom (prevAt s i) (inQuotes st) (inAngleBrackets st)
                            (current st) rest)).
Proof.
  induction rest as [|c t IH]; intros s i st Hs.
  - simpl. unfold finish. rewrite <- (app_nil_r (flush _ _)).
    apply (flush_segment _ _ []).
  - assert (Hi : (i < List.length s)%nat).
    { destruct (Nat.lt_ge_cases i (List.length s)) as [H|H]; [exact H|].
      rewrite skipn_all2 in Hs by lia. discriminate. }
    rewrite (skipn_nth _ _ Hi) in Hs. injection Hs as Hc Ht.
    cbn [List.length seq fold_left].
    assert (Hp : prevAt s (S i) = Some c).
    { simpl. rewrite (charAt_nth _ _ Hi). now rewrite Hc. }
    specialize (IH s (S i) (scanStep s st i) Ht). rewrite IH, Hp. clear IH.
    unfold scanStep. rewrite notAfterBackslash_prev.
    unfold charCodeAt. rewrite Hc.
    cbn [segmentsFrom].
    destruct ((c =? DQUOTE) && negb (escapedBy (prevAt s i))); [reflexivity|].
    destruct ((c =? ch "<") && negb (inQuotes st)); [reflexivity|].
    destruct ((c =? ch ">") && negb (inQuotes st)); [reflexivity|].
    destruct ((c =? ch ",") && negb (inQuotes st)
              && negb (inAngleBrackets st)); [|reflexivity].
    cbn [addresses current inQuotes inAngleBrackets].
    apply flush_segment.
Qed.

Lemma parseEmailAddresses_segments (s : jsstring) :
  parseEmailAddresses s
  = map parseEmailAddress (filter nonBlank (topLevelSegments s)).
Proof.
  unfold parseEmailAddresses, topLevelSegments.
  destruct s as [|c t] eqn:Hs; [reflexivity|]. rewrite <- Hs.
  replace (if negb (truthy s) then _ else _)
    with (finish (fold_left (scanStep s) (seq 0 (List.length s)) scanInit)).
  2:{ rewrite Hs. reflexivity. }
  rewrite (scan_segments s s 0 scanInit eq_refl). reflexivity.
Qed.

(** The segments are the pieces of the string between the separating commas:
    joined by commas they give the string back. *)
Lemma join_segments (rest : jsstring) :
  forall prev q a cur,
    join (ch ",") (segmentsFrom prev q a cur rest) = cur ++ rest.
Proof.
  induction rest as [|c t IH]; intros prev q a cur.
  - simpl. now rewrite app_nil_r.
  - cbn [segmentsFrom].
    assert (Hk : forall p q' a',
               join (ch ",") (segmentsFrom p q' a' (cur ++ [c]) t)
               = cur ++ c :: t).
    { intros. rewrite IH, <- app_assoc. reflexivity. }
    destruct ((c =? DQUOTE) && _); [apply Hk|].
    destruct ((c =? ch "<") && _); [apply Hk|].
    destruct ((c =? ch ">") && _); [apply Hk|].
    destruct ((c =? ch ",") && negb q && negb a) eqn:Hc; [|apply Hk].
    apply andb_prop in Hc. destruct Hc as [Hc _].
    apply andb_prop in Hc. destruct Hc as [Hc _].
    apply Z.eqb_eq in Hc. subst c.
    specialize (IH (Some (ch ",")) q a []).
    destruct (segmentsFrom (Some (ch ",")) q a [] t) as [|x l] eqn:Hseg.
    + destruct t; simpl in Hseg; [discriminate|].
      exfalso. clear -Hseg IH. simpl in IH. discriminate.
    + change (join (ch ",") (cur :: x :: l))
        with (cur ++ ch "," :: join (ch ",") (x :: l)).
      rewrite IH. reflexivity.
Qed.

(** C8: parseEmailAddresses cuts its input at a comma only when the scan is
    outside double quotes and outside angle brackets: its result is the parse
    of the non-blank segments of the left-to-right reading, which are the
    pieces between those commas.  The quoted name Doe, John followed by
    john@x.com in brackets, a comma and jane@y.com gives exactly two
    addresses. *)
Theorem parseEmailAddresses_top_level_commas :
  (forall s,
      parseEmailAddresses s
      = map parseEmailAddress (filter nonBlank (topLevelSegments s)))
  /\ (forall s, join (ch ",") (topLevelSegments s) = s)
  /\ topLevelSegments
       (dq ++ str "Doe, John" ++ dq ++ str " <john@x.com>, jane@y.com")
     = [ dq ++ str "Doe, John" ++ dq ++ str " <john@x.com>";
         str " jane@y.com" ]
  /\ parseEmailAddresses
       (dq ++ str "Doe, John" ++ dq ++ str " <john@x.com>, jane@y.com")
     = [ {| name := str "Doe, John"; address := str "john@x.com" |};
         {| name := []; address := str "jane@y.com" |} ].
Proof.
  split; [exact parseEmailAddresses_segments|].
  split; [intros s; apply (join_segments s None false false [])|].
  split; vm_compute; reflexivity.
Qed.

(** **** Lengths, searches and loops *)

Lemma trimStart_length (s : jsstring) :
  (List.length (trimStart s) <= List.length s)%nat.
Proof.
  induction s as [|c t IH]; simpl; [lia|].
  destruct (isWhiteSpace c); simpl; lia.
Qed.

Lemma trim_length (s : jsstring) : (List.length (trim s) <= List.length s)%nat.
Proof.
  unfold trim, trimEnd. rewrite length_rev.
  etransitivity; [apply trimStart_length|]. rewrite length_rev.
  apply trimStart_length.
Qed.

Lemma Forall_length_le (l : list jsstring) (n m : nat) :
  Forall (fun p => (List.length p <= n)%nat) l -> (n <= m)%nat ->
  Forall (fun p => (List.length p <= m)%nat) l.
Proof.
  intros Hl Hn. eapply Forall_impl; [|exact Hl]. simpl. intros; lia.
Qed.

Lemma splitGo_length (e : RegExp) (rest : jsstring) :
  forall skip cur pos,
    Forall (fun p => (List.length p <= List.length cur + List.length rest)%nat)
           (splitGo e skip cur pos rest).
Proof.
  induction rest as [|x t IH]; intros skip cur pos.
  - simpl. constructor; [|constructor]. rewrite length_rev. lia.
  - cbn [splitGo].
    destruct skip as [|n].
    + destruct (matchAt e pos (x :: t)) as [[p ?]|].
      * destruct (Nat.eqb p pos).
        -- destruct cur as [|y cur'].
           ++ eapply Forall_length_le; [apply IH|]. simpl; lia.
           ++ constructor; [rewrite length_rev; simpl; lia|].
              eapply Forall_length_le; [apply IH|]. simpl; lia.
        -- constructor; [rewrite length_rev; simpl; lia|].
           eapply Forall_length_le; [apply IH|]. simpl; lia.
      * eapply Forall_length_le; [apply IH|]. simpl; lia.
    + eapply Forall_length_le; [apply IH|]. simpl; lia.
Qed.

Lemma split_length (s : jsstring) (e : RegExp) :
  Forall (fun p => (List.length p <= List.length s)%nat) (split s e).
Proof.
  unfold split. destruct s as [|x t].
  - destruct (matchAt e 0 []); constructor; [simpl; lia | constructor].
  - apply (splitGo_length e (x :: t) 0 [] 0).
Qed.

Lemma searchFrom_spec (e : RegExp) (rest : jsstring) :
  forall pos i j c,
    searchFrom e pos rest = Some (i, j, c) ->
    (pos <= i)%nat /\ (i - pos <= List.length rest)%nat
    /\ matchAt e i (skipn (i - pos) rest) = Some (j, c).
Proof.
  induction rest as [|x t IH]; intros pos i j c H; cbn [searchFrom] in H.
  - destruct (matchAt e pos []) as [[p c']|] eqn:Hm; [|discriminate].
    injection H as <- <- <-. rewrite Nat.sub_diag. simpl. auto with arith.
  - destruct (matchAt e pos (x :: t)) as [[p c']|] eqn:Hm.
    + injection H as <- <- <-. rewrite Nat.sub_diag. simpl.
      split; [lia|]. split; [lia|]. exact Hm.
    + apply IH in H. destruct H as (H1 & H2 & H3).
      replace (i - pos)%nat with (S (i - S pos)) by lia.
      simpl. repeat split; try lia. exact H3.
Qed.

Ltac eqb_cases :=
  repeat match goal with
         | |- context [Z.eqb ?a ?b] => destruct (Z.eqb a b) eqn:?
         end.

Lemma blankLine_match (pos : nat) (s : jsstring) (e : nat) (c : captures) :
  matchAt BLANK_LINE_RE pos s = Some (e, c) ->
  exists k, (2 <= k <= List.length s)%nat /\ e = (pos + k)%nat
            /\ matchAt LEADING_BLANK_LINE_RE 0 s = Some (k, c).
Proof.
  unfold matchAt, BLANK_LINE_RE, LEADING_BLANK_LINE_RE, re, Opt.
  cbn [pattern flag_i seqs matchRe sameChar Nat.eqb].
  destruct s as [|a [|b [|x [|y t]]]]; cbn -[Z.eqb]; eqb_cases; intros H;
    try discriminate; injection H as <- <-;
    first [ exists 2%nat; simpl; repeat split; (lia || reflexivity)
          | exists 3%nat; simpl; repeat split; (lia || reflexivity)
          | exists 4%nat; simpl; repeat split; (lia || reflexivity) ].
Qed.

Lemma headerAndBody_spec (part h b : jsstring) :
  headerAndBody part = Some (h, b) ->
  exists i k, (2 <= k)%nat /\ (i + k <= List.length part)%nat
              /\ h = firstn i part /\ b = skipn (i + k) part.
Proof.
  unfold headerAndBody, search, replaceFirst, substring, substringFrom.
  destruct (searchFrom BLANK_LINE_RE 0 part) as [[[i j] c]|] eqn:Hs;
    [|discriminate].
  apply searchFrom_spec in Hs. destruct Hs as (_ & Hi & Hm).
  rewrite Nat.sub_0_r in *.
  apply blankLine_match in Hm. destruct Hm as (k & Hk & _ & Hm).
  rewrite length_skipn in Hk.
  intros H. injection H as <- <-.
  exists i, k. repeat split; try lia.
  assert (Hsearch : searchFrom LEADING_BLANK_LINE_RE 0 (skipn i part)
                    = Some (0%nat, k, c)).
  { destruct (skipn i part); cbn [searchFrom]; rewrite Hm; reflexivity. }
  rewrite Hsearch. cbn [firstn app erase]. rewrite skipn_skipn.
  f_equal. lia.
Qed.

Lemma headerAndBody_shorter (part h b : jsstring) :
  headerAndBody part = Some (h, b) ->
  (List.length b < List.length part)%nat.
Proof.
  intros H. apply headerAndBody_spec in H.
  destruct H as (i & k & Hk & Hik & _ & ->). rewrite length_skipn. lia.
Qed.

Section Fold.
Context {St A : Type}.

Lemma foldM_ext (f g : A -> St -> Result St) (l : list A) :
  (forall a, In a l -> forall s, f a s = g a s) ->
  forall s, foldM f l s = foldM g l s.
Proof.
  induction l as [|a l IH]; intros H s; [reflexivity|].
  cbn [foldM]. rewrite (H a (or_introl eq_refl)).
  destruct (g a s) as [e|s']; [reflexivity|]. cbn [bind].
  apply IH. intros a' Ha'. apply H. now right.
Qed.

Lemma foldM_app (f : A -> St -> Result St) (l1 l2 : list A) (s : St) :
  foldM f (l1 ++ l2) s = bind (foldM f l1 s) (foldM f l2).
Proof.
  revert s. induction l1 as [|a l1 IH]; intros s; [reflexivity|].
  cbn [app foldM]. destruct (f a s) as [e|s']; [reflexivity|].
  cbn [bind]. apply IH.
Qed.

Lemma foldM_invariant (P : St -> Prop) (f : A -> St -> Result St) (l : list A) :
  (forall a s s', In a l -> P s -> f a s = inr s' -> P s') ->
  forall s s', P s -> foldM f l s = inr s' -> P s'.
Proof.
  induction l as [|a l IH]; intros H s s' Hs Hf; cbn [foldM] in Hf.
  - injection Hf as <-. exact Hs.
  - destruct (f a s) as [e|s1] eqn:Ha; [discriminate|]. cbn [bind] in Hf.
    apply (IH (fun a' t t' Hin => H a' t t' (or_intror Hin)) s1 s');
      [|exact Hf].
    apply (H a s s1); auto. now left.
Qed.
End Fold.

Lemma foldM_flat_map {St A B : Type} (g : B -> St -> Result St)
      (h : A -> list B) (l : list A) :
  forall s, foldM (fun a => foldM g (h a)) l s = foldM g (flat_map h l) s.
Proof.
  induction l as [|a l IH]; intros s; [reflexivity|].
  cbn [foldM flat_map]. rewrite foldM_app.
  destruct (foldM g (h a) s) as [e|s']; [reflexivity|]. cbn [bind]. apply IH.
Qed.

Lemma skipn_cons_nth {A : Type} (d : A) (l : list A) (i : nat) :
  (i < List.length l)%nat -> skipn i l = nth i l d :: skipn (S i) l.
Proof.
  revert i. induction l as [|x l IH]; intros i H; simpl in H; [lia|].
  destruct i as [|i]; [reflexivity|]. simpl. apply IH. lia.
Qed.

Lemma candidates_cons (x : jsstring) (l : list jsstring) :
  candidates (x :: l)
  = if isCandidate (trim x) then trim x :: candidates l else candidates l.
Proof. reflexivity. Qed.

(** The loops over the indices of the pieces run over the candidates. *)
Lemma loop_candidates {St : Type} (g : jsstring -> St -> Result St)
      (parts : list jsstring) (n : nat) :
  forall lo s,
    (lo + n <= List.length parts)%nat ->
    foldM (fun i r =>
             let part := trim (nth i parts []) in
             if isCandidate part then g part r else ret r)
          (seq lo n) s
    = foldM g (candidates (firstn n (skipn lo parts))) s.
Proof.
  induction n as [|n IH]; intros lo s H; [reflexivity|].
  rewrite (skipn_cons_nth (A:=jsstring) [] parts lo) by lia.
  cbn [seq firstn foldM]. rewrite candidates_cons.
  destruct (isCandidate (trim (nth lo parts []))).
  - cbn [foldM]. destruct (g _ s) as [e|s']; [reflexivity|].
    cbn [bind]. apply IH. lia.
  - cbn [ret bind]. apply IH. lia.
Qed.

Lemma inner_firstn (parts : list jsstring) :
  firstn (List.length parts - 1 - 1) (skipn 1 parts) = inner parts.
Proof.
  unfold inner. destruct parts as [|x l]; [reflexivity|].
  cbn [skipn tl List.length]. rewrite removelast_firstn_len.
  f_equal. lia.
Qed.

Lemma tl_firstn (parts : list jsstring) :
  firstn (List.length parts - 1) (skipn 1 parts) = tl parts.
Proof.
  destruct parts as [|x l]; [reflexivity|].
  cbn [skipn tl List.length].
  replace (S (List.length l) - 1)%nat with (List.length l) by lia.
  apply firstn_all.
Qed.

(** **** The descent of parseMimePart *)

(** One level of [parseMimePart], the loop read over the candidates. *)
Lemma parseMimePartFuel_step (f : nat) (part : jsstring) (r : ParsedEmail) :
  parseMimePartFuel (S f) part r
  = match headerAndBody part with
    | None => ret r
    | Some (headerText, bodyText) =>
        let headers := parseHeaders headerText in
        if startsWith (getContentType headers) (str "multipart/") then
          match multipartBoundary headers with
          | Some boundary =>
              foldM (parseMimePartFuel f)
                    (candidates
                       (inner (split bodyText (boundaryRegExp boundary))))
                    r
          | None => ret r
          end
        else
          parseLeaf headers (getContentType headers) (getEncoding headers)
                    bodyText r
    end.
Proof.
  cbn [parseMimePartFuel].
  destruct (headerAndBody part) as [[h b]|]; [|reflexivity].
  cbn zeta. unfold multipartBoundary.
  destruct (startsWith _ _); [|reflexivity].
  destruct (extractBoundary _) as [boundary|]; [|reflexivity].
  destruct (truthy boundary); [|reflexivity].
  unfold forLoop.
  set (parts := split b (boundaryRegExp boundary)).
  destruct parts as [|x l] eqn:Hparts; [reflexivity|]. rewrite <- Hparts.
  rewrite (loop_candidates (parseMimePartFuel f) parts), inner_firstn;
    [reflexivity|].
  rewrite Hparts. simpl. lia.
Qed.

Lemma candidates_length (pieces : list jsstring) (n : nat) :
  Forall (fun p => (List.length p <= n)%nat) pieces ->
  Forall (fun p => (List.length p <= n)%nat) (candidates pieces).
Proof.
  intros H. unfold candidates.
  apply Forall_forall. intros p Hp.
  apply filter_In in Hp. destruct Hp as [Hp _].
  apply in_map_iff in Hp. destruct Hp as (x & <- & Hx).
  rewrite Forall_forall in H. specialize (H x Hx).
  pose proof (trim_length x). lia.
Qed.

Lemma inner_incl (parts : list jsstring) (p : jsstring) :
  In p (inner parts) -> In p parts.
Proof.
  unfold inner. intros H.
  destruct parts as [|x l]; [exact H|]. right. cbn [tl] in H.
  destruct l as [|y l] using rev_ind; [exact H|].
  rewrite removelast_last in H. apply in_or_app. now left.
Qed.

(** The pieces handed down by a multipart part are shorter than the part. *)
Lemma subparts_shorter (part h b : jsstring) (e : RegExp) (p : jsstring) :
  headerAndBody part = Some (h, b) ->
  In p (candidates (inner (split b e))) ->
  (List.length p < List.length part)%nat.
Proof.
  intros Hb Hp. apply headerAndBody_shorter in Hb.
  assert (Hall : Forall (fun p => (List.length p <= List.length b)%nat)
                        (candidates (inner (split b e)))).
  { apply candidates_length. apply Forall_forall. intros x Hx.
    apply inner_incl in Hx.
    pose proof (split_length b e) as Hs. rewrite Forall_forall in Hs.
    apply Hs, Hx. }
  rewrite Forall_forall in Hall. specialize (Hall p Hp). lia.
Qed.

(** Fuel beyond the length of the part changes nothing. *)
Lemma parseMimePartFuel_enough (f1 : nat) :
  forall (f2 : nat) (part : jsstring) (r : ParsedEmail),
    (List.length part < f1)%nat -> (List.length part < f2)%nat ->
    parseMimePartFuel f1 part r = parseMimePartFuel f2 part r.
Proof.
  induction f1 as [|f1 IH]; intros f2 part r H1 H2; [lia|].
  destruct f2 as [|f2]; [lia|].
  rewrite !parseMimePartFuel_step.
  destruct (headerAndBody part) as [[h b]|] eqn:Hb; [|reflexivity].
  cbn zeta. destruct (startsWith _ _); [|reflexivity].
  destruct (multipartBoundary _) as [boundary|]; [|reflexivity].
  apply foldM_ext. intros p Hp s.
  pose proof (subparts_shorter _ _ _ _ _ Hb Hp).
  apply IH; lia.
Qed.

Lemma parseMimePart_fuel (f : nat) (part : jsstring) (r : ParsedEmail) :
  (List.length part < f)%nat ->
  parseMimePartFuel f part r = parseMimePart part r.
Proof.
  intros H. unfold parseMimePart. apply parseMimePartFuel_enough; lia.
Qed.

(** [parseMimePart] on a part, one level unfolded. *)
Lemma parseMimePart_step (part : jsstring) (r : ParsedEmail) :
  parseMimePart part r
  = match headerAndBody part with
    | None => ret r
    | Some (headerText, bodyText) =>
        let headers := parseHeaders headerText in
        if startsWith (getContentType headers) (str "multipart/") then
          match multipartBoundary headers with
          | Some boundary =>
              foldM parseMimePart
                    (candidates
                       (inner (split bodyText (boundaryRegExp boundary))))
                    r
          | None => ret r
          end
        else
          parseLeaf headers (getContentType headers) (getEncoding headers)
                    bodyText r
    end.
Proof.
  unfold parseMimePart at 1. rewrite parseMimePartFuel_step.
  destruct (headerAndBody part) as [[h b]|] eqn:Hb; [|reflexivity].
  cbn zeta. destruct (startsWith _ _); [|reflexivity].
  destruct (multipartBoundary _) as [boundary|]; [|reflexivity].
  apply foldM_ext. intros p Hp s.
  apply parseMimePart_fuel. eapply subparts_shorter; eassumption.
Qed.

(** The same for the list of leaves. *)
Lemma leavesFuel_step (f : nat) (part : jsstring) :
  leavesFuel (S f) part
  = match headerAndBody part with
    | None => []
    | Some (headerText, bodyText) =>
        let headers := parseHeaders headerText in
        if startsWith (getContentType headers) (str "multipart/") then
          match multipartBoundary headers with
          | Some boundary =>
              flat_map (leavesFuel f)
                    (candidates
                       (inner (split bodyText (boundaryRegExp boundary))))
          | None => []
          end
        else
          [ {| leafHeaders := headers; leafType := getContentType headers;
               leafEncoding := getEncoding headers; leafBody := bodyText |} ]
    end.
Proof.
  cbn [leavesFuel].
  destruct (headerAndBody part) as [[h b]|]; [|reflexivity].
  cbn zeta. unfold multipartBoundary.
  destruct (startsWith _ _); [|reflexivity].
  destruct (extractBoundary _) as [boundary|]; [|reflexivity].
  destruct (truthy boundary); reflexivity.
Qed.

Lemma flat_map_ext_in {A B : Type} (f g : A -> list B) (l : list A) :
  (forall a, In a l -> f a = g a) -> flat_map f l = flat_map g l.
Proof.
  induction l as [|a l IH]; intros H; [reflexivity|].
  cbn [flat_map]. rewrite (H a (or_introl eq_refl)). f_equal.
  apply IH. intros a' Ha'. apply H. now right.
Qed.

Lemma leavesFuel_enough (f1 : nat) :
  forall (f2 : nat) (part : jsstring),
    (List.length part < f1)%nat -> (List.length part < f2)%nat ->
    leavesFuel f1 part = leavesFuel f2 part.
Proof.
  induction f1 as [|f1 IH]; intros f2 part H1 H2; [lia|].
  destruct f2 as [|f2]; [lia|].
  rewrite !leavesFuel_step.
  destruct (headerAndBody part) as [[h b]|] eqn:Hb; [|reflexivity].
  cbn zeta. destruct (startsWith _ _); [|reflexivity].
  destruct (multipartBoundary _) as [boundary|]; [|reflexivity].
  apply flat_map_ext_in. intros p Hp.
  pose proof (subparts_shorter _ _ _ _ _ Hb Hp).
  apply IH; lia.
Qed.

Lemma leaves_step (part : jsstring) :
  leaves part
  = match headerAndBody part with
    | None => []
    | Some (headerText, bodyText) =>
        let headers := parseHeaders headerText in
        if startsWith (getContentType headers) (str "multipart/") then
          match multipartBoundary headers with
          | Some boundary =>
              flat_map leaves
                    (candidates
                       (inner (split bodyText (boundaryRegExp boundary))))
          | None => []
          end
        else
          [ {| leafHeaders := headers; leafType := getContentType headers;
               leafEncoding := getEncoding headers; leafBody := bodyText |} ]
    end.
Proof.
  unfold leaves at 1. rewrite leavesFuel_step.
  destruct (headerAndBody part) as [[h b]|] eqn:Hb; [|reflexivity].
  cbn zeta. destruct (startsWith _ _); [|reflexivity].
  destruct (multipartBoundary _) as [boundary|]; [|reflexivity].
  apply flat_map_ext_in. intros p Hp.
  unfold leaves. apply leavesFuel_enough; [|lia].
  eapply subparts_shorter; eassumption.
Qed.

(** [parseMimePart] applies the leaves of the part, in order. *)
Lemma parseMimePartFuel_leaves (f : nat) :
  forall (part : jsstring) (r : ParsedEmail),
    parseMimePartFuel f part r = foldM applyLeaf (leavesFuel f part) r.
Proof.
  induction f as [|f IH]; intros part r; [reflexivity|].
  rewrite parseMimePartFuel_step, leavesFuel_step.
  destruct (headerAndBody part) as [[h b]|]; [|reflexivity].
  cbn zeta. destruct (startsWith _ _).
  - destruct (multipartBoundary _) as [boundary|]; [|reflexivity].
    rewrite <- foldM_flat_map. apply foldM_ext. intros p _ s. apply IH.
  - cbn [foldM]. unfold applyLeaf.
    cbn [leafHeaders leafType leafEncoding leafBody].
    destruct (parseLeaf _ _ _ _ r); reflexivity.
Qed.

Lemma parseMimePart_leaves (part : jsstring) (r : ParsedEmail) :
  parseMimePart part r = foldM applyLeaf (leaves part) r.
Proof. apply parseMimePartFuel_leaves. Qed.

(** **** The walk of parseEml *)

Lemma streq_eq (a b : jsstring) : streq a b = true <-> a = b.
Proof.
  revert b. induction a as [|x a IH]; intros [|y b]; simpl; split; intros H;
    try reflexivity; try discriminate.
  - apply andb_prop in H. destruct H as [Hx Ha].
    apply Z.eqb_eq in Hx. apply IH in Ha. now subst.
  - injection H as -> ->. rewrite Z.eqb_refl. simpl. now apply IH.
Qed.

Lemma parseEml_multipart (content h b boundary : jsstring) :
  headerAndBody content = Some (h, b) ->
  multipartBoundary (parseHeaders h) = Some boundary ->
  parseEml content
  = foldM parseMimePart
          (candidates (tl (split b (boundaryRegExp boundary))))
          (headerFields (parseHeaders h)).
Proof.
  intros Hb Hm. unfold parseEml. rewrite Hb. cbn zeta.
  unfold multipartBoundary in Hm.
  destruct (startsWith _ _); [|discriminate].
  destruct (extractBoundary _) as [bd|]; [|discriminate].
  destruct (truthy bd); [|discriminate]. injection Hm as ->.
  unfold forLoop.
  set (parts := split b (boundaryRegExp boundary)).
  destruct parts as [|x l] eqn:Hparts; [reflexivity|]. rewrite <- Hparts.
  rewrite (loop_candidates parseMimePart parts), tl_firstn; [reflexivity|].
  rewrite Hparts. simpl. lia.
Qed.

Lemma parseEml_walk (content h b : jsstring) :
  headerAndBody content = Some (h, b) ->
  isMultipart content = true ->
  parseEml content
  = foldM applyLeaf (walk content) (headerFields (parseHeaders h)).
Proof.
  intros Hb Hm. unfold isMultipart in Hm. rewrite Hb in Hm.
  unfold walk, documentParts. rewrite Hb.
  destruct (multipartBoundary (parseHeaders h)) as [boundary|] eqn:Hbd.
  - rewrite (parseEml_multipart _ _ _ _ Hb Hbd), <- foldM_flat_map.
    apply foldM_ext. intros p _ s. apply parseMimePart_leaves.
  - unfold parseEml. rewrite Hb. cbn zeta. rewrite Hm.
    unfold multipartBoundary in Hbd. rewrite Hm in Hbd.
    destruct (extractBoundary _) as [bd|]; [|reflexivity].
    destruct (truthy bd); [discriminate | reflexivity].
Qed.









(** **** Attachments *)







(** **** Classification of leaf parts *)

Lemma push_attachment_differs (r : ParsedEmail) (a : Attachment) :
  attachments (push_attachment r a) <> attachments r.
Proof.
  cbn [attachments push_attachment]. intros H.
  apply (f_equal (@List.length Attachment)) in H.
  rewrite length_app in H. simpl in H. lia.
Qed.

Lemma isAttachment_rule (fn : option jsstring) (disposition ct : jsstring) :
  isAttachment fn disposition ct = true <-> attachmentRule fn disposition ct.
Proof.
  unfold isAttachment, attachmentRule.
  rewrite !orb_true_iff, andb_true_iff, !negb_true_iff. tauto.
Qed.

(** C2, as amended: of the parts handed to parseMimePart that are not
    multipart, a part in which no empty line follows the header block is
    dropped whole, whatever its headers say; a part whose type is text/plain
    or text/html is a body candidate and never joins the attachments; for
    any other part an exception of the filename extraction leaves
    parseMimePart, and otherwise the part joins the attachments if and only
    if it declares a non-empty filename, or the value of its
    Content-Disposition header contains the text attachment, or its type is
    neither text/* nor multipart/*, and is dropped otherwise. *)
Theorem leaf_attachment_rule (part : jsstring) (result : ParsedEmail) :
  (headerAndBody part = None -> parseMimePart part result = inr result)
  /\ (forall headerText bodyText,
         headerAndBody part = Some (headerText, bodyText) ->
         let headers := parseHeaders headerText in
         let contentType := getContentType headers in
         let disposition :=
           orElse (Map_get (str "content-disposition") headers) [] in
         startsWith contentType (str "multipart/") = false ->
         (streq contentType (str "text/plain")
          || streq contentType (str "text/html") = true ->
          exists r',
            parseMimePart part result = inr r'
            /\ attachments r' = attachments result)
         /\ (streq contentType (str "text/plain")
             || streq contentType (str "text/html") = false ->
             (forall e,
                 getFilename headers = inl e ->
                 parseMimePart part result = inl e)
             /\ (forall fn,
                    getFilename headers = inr fn ->
                    exists r',
                      parseMimePart part result = inr r'
                      /\ ((exists a,
                              attachments r' = attachments result ++ [a])
                          <-> attachmentRule fn disposition contentType)
                      /\ (~ attachmentRule fn disposition contentType ->
                          r' = result)))).
Proof.
  split.
  { intros Hb. rewrite parseMimePart_step, Hb. reflexivity. }
  intros headerText bodyText Hb headers contentType disposition Hmulti.
  rewrite parseMimePart_step, Hb. cbn zeta.
  fold headers. fold contentType. rewrite Hmulti.
  unfold parseLeaf. fold disposition.
  split.
  - intros Ht. apply orb_true_iff in Ht.
    destruct (streq contentType (str "text/plain")).
    { destruct (negb _); eexists; split; reflexivity. }
    destruct Ht as [Ht|Ht]; [discriminate|]. rewrite Ht.
    destruct (negb _); eexists; split; reflexivity.
  - intros Ht. apply orb_false_iff in Ht. destruct Ht as [-> ->].
    split; [intros e ->; reflexivity|].
    intros fn ->. cbn [bind].
    destruct (isAttachment fn disposition contentType) eqn:Ha.
    + eexists. split; [reflexivity|].
      apply isAttachment_rule in Ha. split.
      * split; [intros _; exact Ha|]. intros _. eexists. reflexivity.
      * intros Hn. contradiction.
    + eexists. split; [reflexivity|].
      assert (Hn : ~ attachmentRule fn disposition contentType).
      { intros H. apply isAttachment_rule in H. congruence. }
      split; [|reflexivity].
      split; [|intros H; contradiction].
      intros [a Ha']. exfalso.
      apply (f_equal (@List.length Attachment)) in Ha'.
      rewrite length_app in Ha'. simpl in Ha'. lia.
Qed.

(** **** Multipart segments *)





(** **** The date *)

(** Whatever is in the Date header, a header that is present and not empty
    gives a Date object: the date field is not null. *)
Lemma parseDate_present (headers : Headers) (dateStr : jsstring) :
  Map_get (str "date") headers = Some dateStr ->
  truthy dateStr = true ->
  parseDate headers = Some (NewDate dateStr).
Proof.
  intros Hg Ht. unfold parseDate. rewrite Hg, Ht. reflexivity.
Qed.

(** **** Exceptions *)

(** [getFilename] throws when, and only when, the filename parameter of the
    Content-Disposition is found and [decodeURIComponent] refuses it. *)
Lemma getFilename_throws (headers : Headers) (e : exn) :
  getFilename headers = inl e
  <-> exists m,
        exec (orElse (Map_get (str "content-disposition") headers) [])
             FILENAME_RE = Some m
        /\ decodeURIComponent (group 1 m) = inl e.
Proof.
  unfold getFilename. split.
  - destruct (exec _ FILENAME_RE) as [m|].
    + intros H. exists m. split; [reflexivity|].
      destruct (decodeURIComponent (group 1 m)) as [e'|d];
        [now injection H as -> | discriminate].
    + destruct (exec _ NAME_RE); discriminate.
  - intros (m & -> & ->). reflexivity.
Qed.

(** A leaf throws when it is not a text body and its filename does. *)
Lemma applyLeaf_throws (l : Leaf) (r : ParsedEmail) (e : exn) :
  applyLeaf l r = inl e
  <-> notText l = true /\ getFilename (leafHeaders l) = inl e.
Proof.
  unfold applyLeaf, parseLeaf, notText.
  destruct (streq (leafType l) (str "text/plain")).
  { split; [destruct (negb _); discriminate | intros [H _]; discriminate]. }
  destruct (streq (leafType l) (str "text/html")).
  { split; [destruct (negb _); discriminate | intros [H _]; discriminate]. }
  destruct (getFilename (leafHeaders l)) as [e0|fn]; cbn [bind negb andb].
  - split; [intros H | intros [_ H]]; now injection H as ->.
  - split; [destruct (isAttachment _ _ _)|intros [_ H]]; discriminate.
Qed.

Lemma applyLeaf_quiet (l : Leaf) (r : ParsedEmail) :
  quiet l <-> exists r', applyLeaf l r = inr r'.
Proof.
  split.
  - intros Hq. destruct (applyLeaf l r) as [e|r'] eqn:Hl; [|now exists r'].
    apply applyLeaf_throws in Hl. destruct Hl as [Hn He].
    destruct (Hq Hn) as [fn Hfn]. congruence.
  - intros [r' Hr] Hn.
    destruct (getFilename (leafHeaders l)) as [e|fn] eqn:Hf; [|now exists fn].
    assert (Ht : applyLeaf l r = inl e) by (apply applyLeaf_throws; now split).
    congruence.
Qed.

(** A walk throws at its first leaf that does, with the exception of that
    leaf. *)
Lemma foldM_applyLeaf_throws (ls : list Leaf) :
  forall r e,
    foldM applyLeaf ls r = inl e
    <-> exists pre l post,
          ls = pre ++ l :: post
          /\ Forall quiet pre
          /\ notText l = true
          /\ getFilename (leafHeaders l) = inl e.
Proof.
  induction ls as [|l0 ls IH]; intros r e; cbn [foldM].
  { split; [discriminate|]. intros (pre & l & post & H & _).
    destruct pre; discriminate. }
  destruct (applyLeaf l0 r) as [e0|r1] eqn:Hl; cbn [bind].
  - apply applyLeaf_throws in Hl. destruct Hl as [Hn He]. split.
    + intros H. injection H as ->.
      exists [], l0, ls. repeat split; [constructor | exact Hn | exact He].
    + intros (pre & l & post & Heq & Hq & Hn' & He').
      destruct pre as [|p pre]; cbn [app] in Heq; injection Heq as -> ->.
      * congruence.
      * apply Forall_inv in Hq. destruct (Hq Hn) as [fn Hfn]. congruence.
  - rewrite IH. split.
    + intros (pre & l & post & -> & Hq & Hn & He).
      exists (l0 :: pre), l, post. repeat split; try assumption.
      constructor; [|exact Hq].
      apply (applyLeaf_quiet l0 r). now exists r1.
    + intros (pre & l & post & Heq & Hq & Hn & He).
      destruct pre as [|p pre]; cbn [app] in Heq; injection Heq as -> ->.
      * assert (Ht : applyLeaf l r = inl e)
          by (apply applyLeaf_throws; now split).
        congruence.
      * exists pre, l, post. apply Forall_inv_tail in Hq.
        repeat split; assumption.
Qed.

(** X4: with a call stack deep enough for the nesting of the parts, parseEml
    throws exactly when the walk of a multipart document reaches a leaf that
    is neither text/plain nor text/html and whose Content-Disposition holds
    a filename parameter that decodeURIComponent refuses, every leaf before
    it having passed; the exception is the one raised by decodeURIComponent
    on that parameter. *)
Theorem parseEml_throws_only_in_getFilename (content : jsstring) (e : exn) :
  parseEml content = inl e
  <-> exists pre l post m,
        walk content = pre ++ l :: post
        /\ Forall quiet pre
        /\ notText l = true
        /\ exec (orElse (Map_get (str "content-disposition") (leafHeaders l))
                        [])
                FILENAME_RE = Some m
        /\ decodeURIComponent (group 1 m) = inl e.
Proof.
  assert (Hshape :
            (exists pre l post m,
                walk content = pre ++ l :: post
                /\ Forall quiet pre
                /\ notText l = true
                /\ exec (orElse (Map_get (str "content-disposition")
                                         (leafHeaders l)) [])
                        FILENAME_RE = Some m
                /\ decodeURIComponent (group 1 m) = inl e)
            <-> exists pre l post,
                  walk content = pre ++ l :: post
                  /\ Forall quiet pre
                  /\ notText l = true
                  /\ getFilename (leafHeaders l) = inl e).
  { split.
    - intros (pre & l & post & m & Hw & Hq & Hn & Hm & Hd).
      exists pre, l, post. repeat split; try assumption.
      apply getFilename_throws. now exists m.
    - intros (pre & l & post & Hw & Hq & Hn & Hf).
      apply getFilename_throws in Hf. destruct Hf as (m & Hm & Hd).
      exists pre, l, post, m. repeat split; assumption. }
  rewrite Hshape. clear Hshape.
  destruct (headerAndBody content) as [[h b]|] eqn:Hb.
  2:{ unfold walk, documentParts, parseEml. rewrite Hb. split; [discriminate|].
      intros (pre & l & post & H & _). destruct pre; discriminate. }
  destruct (isMultipart content) eqn:Hm.
  - rewrite (parseEml_walk _ _ _ Hb Hm). apply foldM_applyLeaf_throws.
  - unfold isMultipart in Hm. rewrite Hb in Hm.
    unfold walk, documentParts, multipartBoundary, parseEml.
    rewrite Hb. cbn zeta. rewrite Hm. split.
    + destruct (streq _ _); [discriminate|].
      destruct (streq _ _); discriminate.
    + intros (pre & l & post & H & _). destruct pre; discriminate.
Qed.

(** **** Header lines and Content-ID *)

Lemma angles_match (pos : nat) (c : Z) (t : jsstring) :
  matchAt ANGLES_RE pos (c :: t)
  = if isAngle c then Some (S pos, []) else None.
Proof.
  unfold matchAt, ANGLES_RE, re, isAngle.
  cbn [pattern flag_i matchRe inClass xorb].
  unfold inRanges, one. cbn [existsb fst snd].
  rewrite orb_false_r.
  replace ((ch "<" <=? c) && (c <=? ch "<")) with (c =? ch "<")
    by (destruct (c =? ch "<") eqn:H;
        [apply Z.eqb_eq in H | apply Z.eqb_neq in H]; lia).
  replace ((ch ">" <=? c) && (c <=? ch ">")) with (c =? ch ">")
    by (destruct (c =? ch ">") eqn:H;
        [apply Z.eqb_eq in H | apply Z.eqb_neq in H]; lia).
  destruct (_ || _); reflexivity.
Qed.

Lemma strip_angles_go (s : jsstring) :
  forall pos,
    replaceGo ANGLES_RE erase 0 pos s = filter (fun c => negb (isAngle c)) s.
Proof.
  induction s as [|c t IH]; intros pos; [reflexivity|].
  cbn [replaceGo filter]. rewrite angles_match.
  destruct (isAngle c); cbn [negb].
  - replace (Nat.eqb (S pos) pos) with false
      by (symmetry; apply Nat.eqb_neq; lia).
    replace (S pos - pos - 1)%nat with 0%nat by lia.
    cbn [erase app]. apply IH.
  - f_equal. apply IH.
Qed.

Lemma fold_headers (lines : list jsstring) :
  forall (k : jsstring) (m : Headers),
    Map_get k
      (fold_left
         (fun headers line =>
            match indexOf line (ch ":") with
            | Some (S _ as colonIndex) =>
                Map_set (toLowerCase (trim (substring line 0 colonIndex)))
                        (decodeMimeWord
                           (trim (substringFrom line (colonIndex + 1))))
                        headers
            | _ => headers
            end) lines m)
    = match lastValue k lines with
      | Some v => Some v
      | None => Map_get k m
      end.
Proof.
  induction lines as [|line rest IH]; intros k m; [reflexivity|].
  cbn [fold_left lastValue]. rewrite IH.
  destruct (lastValue k rest); [reflexivity|].
  unfold headerLine.
  destruct (indexOf line (ch ":")) as [[|n]|]; try reflexivity.
  cbn [Map_get Map_set]. destruct (streq _ k); reflexivity.
Qed.

(** **** Further properties *)

(** X2: the recursion of parseMimePart ends on every input: each part handed
    down by a multipart part is strictly shorter than it, so fuel beyond the
    length of the text is never used. *)
Theorem parseMimePart_recursion_decreases :
  (forall part h b boundary p,
      headerAndBody part = Some (h, b) ->
      In p (candidates (inner (split b (boundaryRegExp boundary)))) ->
      (List.length p < List.length part)%nat)
  /\ (forall fuel part r,
         (List.length part < fuel)%nat ->
         parseMimePartFuel fuel part r = parseMimePart part r).
Proof.
  split.
  - intros part h b boundary p. apply subparts_shorter.
  - intros fuel part r. apply parseMimePart_fuel.
Qed.

(** X3: the contentId of an attachment is the Content-ID header without its
    angle brackets (undefined when the part has no such header). *)
Theorem attachment_contentId_stripped
        (l : Leaf) (r r' : ParsedEmail) (a : Attachment) :
  applyLeaf l r = inr r' ->
  attachments r' = attachments r ++ [a] ->
  contentId a
  = option_map (filter (fun c => negb (isAngle c)))
               (Map_get (str "content-id") (leafHeaders l)).
Proof.
  unfold applyLeaf, parseLeaf. intros H Ha.
  assert (Hsame : attachments r' = attachments r -> False).
  { intros Hs. rewrite Hs in Ha.
    apply (f_equal (@List.length Attachment)) in Ha.
    rewrite length_app in Ha. simpl in Ha. lia. }
  destruct (streq _ _).
  { destruct (negb _); injection H as <-; exfalso; now apply Hsame. }
  destruct (streq _ _).
  { destruct (negb _); injection H as <-; exfalso; now apply Hsame. }
  destruct (getFilename (leafHeaders l)) as [e|fn]; [discriminate|].
  cbn [bind] in H.
  destruct (isAttachment _ _ _); injection H as <-;
    [|exfalso; now apply Hsame].
  cbn [attachments push_attachment] in Ha.
  apply app_inj_tail in Ha. destruct Ha as [_ <-].
  cbn [contentId].
  destruct (Map_get _ _) as [v|]; [|reflexivity].
  cbn [option_map]. f_equal. apply strip_angles_go.
Qed.

Lemma isSafeUrl_empty : isSafeUrl [] = false.
Proof.
  rewrite isSafeUrl_ascii by reflexivity. reflexivity.
Qed.

(** X5: sanitizing twice is sanitizing once. *)
Theorem sanitizeUrl_idempotent (url : jsstring) :
  sanitizeUrl (sanitizeUrl url) = sanitizeUrl url.
Proof.
  unfold sanitizeUrl at 2 3.
  destruct (isSafeUrl url) eqn:H.
  - unfold sanitizeUrl. now rewrite H.
  - unfold sanitizeUrl. now rewrite isSafeUrl_empty.
Qed.

(** X6: header lookups see the value of the last line with the key: a
    repeated header overwrites the earlier one. *)
Theorem parseHeaders_last_wins (headerText k : jsstring) :
  Map_get k (parseHeaders headerText)
  = lastValue k
      (split (replaceAll headerText FOLD_RE (constant (str " "))) EOL_RE).
Proof.
  unfold parseHeaders. cbn zeta. rewrite fold_headers.
  destruct (lastValue _ _); reflexivity.
Qed.

(** **** Patterns that read one unit, and their repetition *)

Lemma readsOne_Class (ic neg : bool) (rs : list (Z * Z)) :
  readsOne ic (Class neg rs) (fun c => xorb neg (inClass ic rs c)).
Proof. intros R pos rest cs k. reflexivity. Qed.

Lemma readsOne_Char (ic : bool) (p : Z) :
  readsOne ic (Char p) (sameChar ic p).
Proof. intros R pos rest cs k. reflexivity. Qed.

Lemma star_nil (ic : bool) (r : regex) {R : Type} (pos : nat) (cs : captures)
      (k : nat -> jsstring -> captures -> option R) :
  matchRe ic (Star r) pos [] cs k = k pos [] cs.
Proof. reflexivity. Qed.

(** One turn of the loop of a star over a one-unit pattern: the greedy
    branch first, the exit second. *)
Lemma star_cons (ic : bool) (r : regex) (P : Z -> bool) {R : Type}
      (pos : nat) (c : Z) (t : jsstring) (cs : captures)
      (k : nat -> jsstring -> captures -> option R) :
  readsOne ic r P ->
  matchRe ic (Star r) pos (c :: t) cs k
  = if P c then
      match matchRe ic (Star r) (S pos) t cs k with
      | Some a => Some a
      | None => k pos (c :: t) cs
      end
    else k pos (c :: t) cs.
Proof.
  intros Hr. cbn [matchRe List.length]. rewrite Hr.
  destruct (P c); [|reflexivity].
  replace (List.length t <? S (List.length t))%nat with true
    by (symmetry; apply Nat.ltb_lt; lia).
  reflexivity.
Qed.

(** With nothing after it the star takes the whole run. *)
Lemma star_run (ic : bool) (r : regex) (P : Z -> bool) (rest : jsstring) :
  readsOne ic r P ->
  forall pos cs,
    matchRe ic (Star r) pos rest cs (fun p _ c => Some (p, c))
    = Some ((pos + run P rest)%nat, cs).
Proof.
  intros Hr. induction rest as [|c t IH]; intros pos cs.
  - rewrite star_nil. cbn [run]. now rewrite Nat.add_0_r.
  - rewrite (star_cons ic r P) by exact Hr. cbn [run].
    destruct (P c).
    + rewrite IH. f_equal. f_equal. lia.
    + now rewrite Nat.add_0_r.
Qed.

Lemma plus_match (ic : bool) (r : regex) (P : Z -> bool) (pos : nat)
      (rest : jsstring) :
  readsOne ic r P ->
  matchAt {| pattern := Plus r; flag_i := ic |} pos rest
  = match rest with
    | c :: t => if P c then Some ((S pos + run P t)%nat, []) else None
    | [] => None
    end.
Proof.
  intros Hr. unfold matchAt, Plus. cbn [pattern flag_i].
  change (matchRe ic (Seq r (Star r)) pos rest []
                  (fun p _ c => Some (p, c)))
    with (matchRe ic r pos rest []
            (fun p s c => matchRe ic (Star r) p s c
                            (fun p _ c => Some (p, c)))).
  rewrite Hr. destruct rest as [|c t]; [reflexivity|].
  destruct (P c); [|reflexivity].
  apply (star_run ic r P t Hr).
Qed.

(** Replacing every match of a repeated one-unit pattern by an underscore
    squeezes the runs. *)
Lemma replace_runs (e : RegExp) (P : Z -> bool) :
  (forall pos rest,
      matchAt e pos rest
      = match rest with
        | c :: t => if P c then Some ((S pos + run P t)%nat, []) else None
        | [] => None
        end) ->
  forall rest pos,
    replaceGo e (constant (str "_")) 0 pos rest = squeeze P false rest
    /\ replaceGo e (constant (str "_")) (run P rest) pos rest
       = squeeze P true rest.
Proof.
  intros He. induction rest as [|c t IH]; intros pos.
  - cbn [replaceGo run squeeze]. rewrite He. split; reflexivity.
  - destruct (IH (S pos)) as [IH0 IH1].
    cbn [run squeeze replaceGo]. rewrite He.
    destruct (P c).
    + replace (Nat.eqb (S pos + run P t) pos) with false
        by (symmetry; apply Nat.eqb_neq; lia).
      replace (S pos + run P t - pos - 1)%nat with (run P t) by lia.
      rewrite IH1. split; reflexivity.
    + rewrite IH0. split; reflexivity.
Qed.

(** **** File names *)

Lemma unsafe_match (pos : nat) (rest : jsstring) :
  matchAt UNSAFE_RE pos rest
  = match rest with
    | c :: _ => if isUnsafe c then Some (S pos, []) else None
    | [] => None
    end.
Proof.
  unfold matchAt, UNSAFE_RE, re, isUnsafe.
  cbn [pattern flag_i matchRe inClass xorb].
  destruct rest as [|c t]; [reflexivity|].
  destruct (inRanges unsafeRanges c); reflexivity.
Qed.

Lemma replace_unsafe (s : jsstring) :
  forall pos,
    replaceGo UNSAFE_RE (constant (str "_")) 0 pos s
    = map underscoreIfUnsafe s.
Proof.
  induction s as [|c t IH]; intros pos.
  - cbn [replaceGo map]. rewrite unsafe_match. reflexivity.
  - cbn [replaceGo map]. rewrite unsafe_match. unfold underscoreIfUnsafe at 1.
    destruct (isUnsafe c).
    + replace (Nat.eqb (S pos) pos) with false
        by (symmetry; apply Nat.eqb_neq; lia).
      replace (S pos - pos - 1)%nat with 0%nat by lia.
      rewrite IH. reflexivity.
    + rewrite IH. reflexivity.
Qed.

Lemma spaces_match (pos : nat) (rest : jsstring) :
  matchAt SPACES_RE pos rest
  = match rest with
    | c :: t =>
        if isWhiteSpace c then Some ((S pos + run isWhiteSpace t)%nat, [])
        else None
    | [] => None
    end.
Proof.
  apply (plus_match false Space isWhiteSpace).
  intros R pos' rest' cs k. reflexivity.
Qed.

Lemma underscores_match (pos : nat) (rest : jsstring) :
  matchAt UNDERSCORES_RE pos rest
  = match rest with
    | c :: t =>
        if isUnderscore c then Some ((S pos + run isUnderscore t)%nat, [])
        else None
    | [] => None
    end.
Proof.
  apply (plus_match false (Char (ch "_")) isUnderscore).
  intros R pos' rest' cs k. cbn [matchRe sameChar]. unfold isUnderscore.
  destruct rest' as [|c t]; [reflexivity|].
  now rewrite (Z.eqb_sym (ch "_") c).
Qed.

(** What [sanitizeFilename] computes, read from left to right. *)
Lemma sanitizeFilename_spec (filename : jsstring) :
  sanitizeFilename filename
  = firstn 200
      (squeeze isUnderscore false
         (squeeze isWhiteSpace false (map underscoreIfUnsafe filename))).
Proof.
  unfold sanitizeFilename, replaceAll, substring.
  rewrite replace_unsafe.
  rewrite (proj1 (replace_runs SPACES_RE isWhiteSpace spaces_match _ 0%nat)).
  rewrite (proj1 (replace_runs UNDERSCORES_RE isUnderscore
                               underscores_match _ 0%nat)).
  reflexivity.
Qed.

Lemma squeeze_Forall (P Q : Z -> bool) (s : jsstring) :
  Q (ch "_") = true ->
  forall b,
    Forall (fun c => Q c = true) s ->
    Forall (fun c => Q c = true) (squeeze P b s).
Proof.
  intros Hu. induction s as [|c t IH]; intros b Hs; [constructor|].
  inversion Hs as [|? ? Hc Ht]; subst. cbn [squeeze].
  destruct (P c); [destruct b|]; auto.
Qed.

Lemma squeeze_rejects (P : Z -> bool) (s : jsstring) :
  P (ch "_") = false ->
  forall b, Forall (fun c => P c = false) (squeeze P b s).
Proof.
  intros Hu. induction s as [|c t IH]; intros b; [constructor|].
  cbn [squeeze]. destruct (P c) eqn:Hc; [destruct b|]; auto.
Qed.

(** After the runs of underscores are squeezed no two underscores are
    adjacent. *)
Lemma startsWith_nil (s : jsstring) : startsWith s [] = true.
Proof. destruct s; reflexivity. Qed.

Lemma squeeze_no_double (s : jsstring) :
  forall b,
    includes (squeeze isUnderscore b s) (str "__") = false
    /\ startsWith (squeeze isUnderscore true s) (str "_") = false.
Proof.
  change (str "__") with [ch "_"; ch "_"]. change (str "_") with [ch "_"].
  induction s as [|c t IH]; intros b; [split; reflexivity|].
  destruct (IH true) as [IHt Hst]. destruct (IH false) as [IHf _].
  cbn [squeeze]. destruct (isUnderscore c) eqn:Hc.
  - split; [|exact Hst].
    destruct b; [exact IHt|].
    cbn [includes startsWith]. rewrite Z.eqb_refl. cbn [andb].
    rewrite Hst, IHt. reflexivity.
  - unfold isUnderscore in Hc.
    cbn [includes startsWith]. rewrite Hc. cbn [andb orb].
    split; [exact IHf | reflexivity].
Qed.

Lemma startsWith_firstn (p : jsstring) :
  forall (s : jsstring) (n : nat),
    startsWith (firstn n s) p = true -> startsWith s p = true.
Proof.
  induction p as [|x p IH]; intros s n H; [destruct s; reflexivity|].
  destruct n as [|n]; [discriminate|].
  destruct s as [|c t]; [discriminate|].
  cbn [firstn startsWith] in *.
  apply andb_prop in H. destruct H as [H1 H2].
  rewrite H1. cbn [andb]. exact (IH t n H2).
Qed.

Lemma includes_firstn (p : jsstring) (s : jsstring) :
  forall n, includes s p = false -> includes (firstn n s) p = false.
Proof.
  induction s as [|c t IH]; intros n H.
  - destruct n; exact H.
  - cbn [includes] in H. apply orb_false_elim in H. destruct H as [H1 H2].
    destruct (includes (firstn n (c :: t)) p) eqn:Hi; [|reflexivity].
    destruct n as [|n].
    + cbn [firstn includes] in Hi. rewrite orb_false_r in Hi.
      apply (startsWith_firstn p (c :: t) 0) in Hi. congruence.
    + cbn [firstn includes] in Hi. apply orb_prop in Hi.
      destruct Hi as [Hi|Hi].
      * apply (startsWith_firstn p (c :: t) (S n)) in Hi. congruence.
      * rewrite (IH n H2) in Hi. discriminate.
Qed.

Lemma Forall_prefix {A : Type} (P : A -> Prop) (n : nat) (l : list A) :
  Forall P l -> Forall P (firstn n l).
Proof.
  intros H. rewrite <- (firstn_skipn n l) in H.
  apply Forall_app in H. apply H.
Qed.

Lemma underscoreIfUnsafe_safe (s : jsstring) :
  Forall (fun c => negb (isUnsafe c) = true) (map underscoreIfUnsafe s).
Proof.
  induction s as [|c t IH]; [constructor|]. cbn [map]. constructor; [|exact IH].
  unfold underscoreIfUnsafe. destruct (isUnsafe c) eqn:Hc; [reflexivity|].
  now rewrite Hc.
Qed.

Lemma sanitized_units (filename : jsstring) :
  Forall (fun c => safeUnit c = true) (sanitizeFilename filename).
Proof.
  rewrite sanitizeFilename_spec. apply Forall_prefix. unfold safeUnit.
  assert (H1 : Forall (fun c => negb (isUnsafe c) = true)
                 (squeeze isUnderscore false
                    (squeeze isWhiteSpace false
                       (map underscoreIfUnsafe filename)))).
  { apply squeeze_Forall; [reflexivity|].
    apply squeeze_Forall; [reflexivity|]. apply underscoreIfUnsafe_safe. }
  assert (H2 : Forall (fun c => negb (isWhiteSpace c) = true)
                 (squeeze isUnderscore false
                    (squeeze isWhiteSpace false
                       (map underscoreIfUnsafe filename)))).
  { apply squeeze_Forall; [reflexivity|].
    eapply Forall_impl; [|apply squeeze_rejects; reflexivity].
    cbv beta. intros c ->. reflexivity. }
  rewrite Forall_forall in *. intros c Hc.
  rewrite (H1 c Hc), (H2 c Hc). reflexivity.
Qed.

Lemma sanitized_no_double (filename : jsstring) :
  includes (sanitizeFilename filename) (str "__") = false.
Proof.
  rewrite sanitizeFilename_spec. apply includes_firstn.
  apply squeeze_no_double.
Qed.

Lemma sanitized_length (filename : jsstring) :
  (List.length (sanitizeFilename filename) <= 200)%nat.
Proof. rewrite sanitizeFilename_spec, length_firstn. lia. Qed.

(** X7: a sanitized file name has at most 200 units, holds none of the
    characters < > : double quote / \ | ? * and no white space, and no two
    underscores in a row; it is empty only for the empty name. *)
Theorem sanitizeFilename_safe (filename : jsstring) :
  (List.length (sanitizeFilename filename) <= 200)%nat
  /\ forallb safeUnit (sanitizeFilename filename) = true
  /\ includes (sanitizeFilename filename) (str "__") = false
  /\ (sanitizeFilename filename = [] <-> filename = []).
Proof.
  split; [apply sanitized_length|].
  split; [apply forallb_forall, Forall_forall, sanitized_units|].
  split; [apply sanitized_no_double|].
  rewrite sanitizeFilename_spec. split.
  - destruct filename as [|c t]; [reflexivity|]. intros H. exfalso.
    cbn [map squeeze] in H.
    destruct (isWhiteSpace (underscoreIfUnsafe c));
      cbn [squeeze] in H; destruct (isUnderscore _); discriminate.
  - intros ->. reflexivity.
Qed.

Lemma map_underscoreIfUnsafe_id (s : jsstring) :
  Forall (fun c => safeUnit c = true) s -> map underscoreIfUnsafe s = s.
Proof.
  induction 1 as [|c t Hc _ IH]; [reflexivity|].
  cbn [map]. rewrite IH. unfold underscoreIfUnsafe.
  unfold safeUnit in Hc. destruct (isUnsafe c); [discriminate|reflexivity].
Qed.

Lemma squeeze_none (P : Z -> bool) (s : jsstring) :
  Forall (fun c => P c = false) s -> squeeze P false s = s.
Proof.
  induction 1 as [|c t Hc _ IH]; [reflexivity|].
  cbn [squeeze]. now rewrite Hc, IH.
Qed.

Lemma squeeze_single (s : jsstring) :
  forall b,
    includes s [ch "_"; ch "_"] = false ->
    (b = true -> startsWith s [ch "_"] = false) ->
    squeeze isUnderscore b s = s.
Proof.
  induction s as [|c t IH]; intros b Hi Hb; [reflexivity|].
  cbn [includes startsWith] in Hi. apply orb_false_elim in Hi.
  destruct Hi as [Hs Hi]. cbn [squeeze]. unfold isUnderscore at 1.
  destruct (c =? ch "_") eqn:Hc.
  - cbn [andb] in Hs.
    destruct b.
    + specialize (Hb eq_refl). cbn [startsWith] in Hb.
      rewrite Hc, startsWith_nil in Hb. discriminate.
    + apply Z.eqb_eq in Hc. rewrite <- Hc at 1.
      f_equal. apply IH; [exact Hi|]. intros _. exact Hs.
  - f_equal. apply IH; [exact Hi | discriminate].
Qed.

(** X8: sanitizing a sanitized name changes nothing. *)
Theorem sanitizeFilename_idempotent (filename : jsstring) :
  sanitizeFilename (sanitizeFilename filename) = sanitizeFilename filename.
Proof.
  pose proof (sanitized_units filename) as Hu.
  pose proof (sanitized_no_double filename) as Hd.
  pose proof (sanitized_length filename) as Hl.
  rewrite (sanitizeFilename_spec (sanitizeFilename filename)).
  rewrite (map_underscoreIfUnsafe_id _ Hu).
  rewrite (squeeze_none isWhiteSpace (sanitizeFilename filename)).
  2:{ eapply Forall_impl; [|exact Hu]. cbv beta. unfold safeUnit.
      intros c Hc. apply andb_prop in Hc. destruct Hc as [_ Hc].
      now destruct (isWhiteSpace c). }
  rewrite squeeze_single; [apply firstn_all2; exact Hl | exact Hd | discriminate].
Qed.

(** **** YAML strings *)

Lemma replace_char (p : Z) (r s : jsstring) :
  forall pos,
    replaceGo (re (Char p)) (constant r) 0 pos s
    = flat_map (fun c => if c =? p then r else [c]) s.
Proof.
  induction s as [|c t IH]; intros pos; [reflexivity|].
  cbn [replaceGo flat_map]. unfold matchAt at 1.
  cbn [pattern flag_i re matchRe sameChar]. rewrite (Z.eqb_sym p c).
  destruct (c =? p).
  - replace (Nat.eqb (S pos) pos) with false
      by (symmetry; apply Nat.eqb_neq; lia).
    replace (S pos - pos - 1)%nat with 0%nat by lia.
    unfold constant at 1. rewrite IH. reflexivity.
  - rewrite IH. reflexivity.
Qed.

Lemma flat_map_flat_map {A B C : Type} (f : A -> list B) (g : B -> list C)
      (l : list A) :
  flat_map g (flat_map f l) = flat_map (fun a => flat_map g (f a)) l.
Proof.
  induction l as [|a l IH]; [reflexivity|].
  cbn [flat_map]. now rewrite flat_map_app, IH.
Qed.

(** [escapeYaml] works unit by unit. *)
Lemma escapeYaml_spec (s : jsstring) : escapeYaml s = flat_map escapeUnit s.
Proof.
  unfold escapeYaml, replaceAll, BACKSLASH_RE, DQUOTE_RE, LF_RE.
  rewrite !replace_char, !flat_map_flat_map.
  apply flat_map_ext. intros c. unfold escapeUnit.
  destruct (c =? ch "\") eqn:Hb.
  - reflexivity.
  - cbn [flat_map app].
    destruct (c =? DQUOTE) eqn:Hq; [reflexivity|].
    cbn [flat_map app]. destruct (c =? LF); reflexivity.
Qed.

(** X9: escapeYaml loses nothing: reading its result as the body of a
    double-quoted scalar gives the string back. *)
Theorem escapeYaml_round_trip (s : jsstring) :
  unescapeYaml (escapeYaml s) = s.
Proof.
  rewrite escapeYaml_spec.
  induction s as [|c t IH]; [reflexivity|].
  cbn [flat_map]. unfold escapeUnit at 1.
  destruct (c =? ch "\") eqn:Hb.
  { apply Z.eqb_eq in Hb. subst c. cbn -[unescapeYaml flat_map].
    cbn [app unescapeYaml]. rewrite IH. reflexivity. }
  destruct (c =? DQUOTE) eqn:Hq.
  { apply Z.eqb_eq in Hq. subst c. cbn [app unescapeYaml].
    rewrite IH. reflexivity. }
  destruct (c =? LF) eqn:Hl.
  { apply Z.eqb_eq in Hl. subst c. cbn [app unescapeYaml].
    rewrite IH. reflexivity. }
  cbn [app unescapeYaml]. rewrite Hb, IH. reflexivity.
Qed.

(** X10: between the quotes written around it, an escaped string holds no
    line feed and no double quote that would close the scalar: the first
    unescaped quote is the one written after it. *)
Theorem escapeYaml_stays_quoted (s rest : jsstring) :
  closingQuote (escapeYaml s ++ DQUOTE :: rest)
  = Some (List.length (escapeYaml s))
  /\ forallb (fun c => negb (c =? LF)) (escapeYaml s) = true.
Proof.
  rewrite escapeYaml_spec. split.
  - induction s as [|c t IH]; [reflexivity|].
    cbn [flat_map]. rewrite <- app_assoc, length_app.
    set (tail := flat_map escapeUnit t) in *. unfold escapeUnit.
    destruct (c =? ch "\") eqn:Hb.
    { cbn [app closingQuote List.length]. rewrite Z.eqb_refl, IH.
      reflexivity. }
    destruct (c =? DQUOTE) eqn:Hq.
    { cbn [app closingQuote List.length]. rewrite Z.eqb_refl, IH.
      reflexivity. }
    destruct (c =? LF) eqn:Hl.
    { cbn [app closingQuote List.length]. rewrite Z.eqb_refl, IH.
      reflexivity. }
    cbn [app closingQuote List.length]. rewrite Hb, Hq, IH. reflexivity.
  - induction s as [|c t IH]; [reflexivity|].
    cbn [flat_map]. rewrite forallb_app, IH, andb_true_r.
    clear IH. unfold escapeUnit.
    destruct (c =? ch "\"); [reflexivity|].
    destruct (c =? DQUOTE); [reflexivity|].
    destruct (c =? LF) eqn:Hl; [reflexivity|].
    cbn [forallb]. now rewrite Hl.
Qed.

(** **** The attachments folder *)

Lemma startsWith_app (a b : jsstring) :
  forall s, startsWith s (a ++ b) = true -> startsWith s a = true.
Proof.
  induction a as [|x a IH]; intros s H; [apply startsWith_nil|].
  destruct s as [|c t]; [discriminate|].
  cbn [app startsWith] in *. apply andb_prop in H. destruct H as [H1 H2].
  now rewrite H1, (IH t H2).
Qed.

(** X11: for a folder given by its path in the vault the test asks only
    that the path of the file starts with the text of the setting; the
    slash of the first comparison adds nothing. *)
Theorem absolute_folder_is_a_prefix_test (p path : jsstring) :
  truthy p = true ->
  streq p (str "/") = false ->
  startsWith p (str "./") = false ->
  isInAttachmentsFolder (Some p) path = startsWith path p.
Proof.
  intros Ht Hs Hr. unfold isInAttachmentsFolder. rewrite Ht, Hs, Hr.
  cbn [negb orb].
  destruct (startsWith path (p ++ str "/")) eqn:H; [|reflexivity].
  symmetry. exact (startsWith_app p (str "/") path H).
Qed.

(** **** Matching step by step *)

(** Each lemma gives what a match needs from the pattern at its head; the
    continuation is then applied to the position reached. *)

Section Steps.
Variable ic : bool.
Context {R : Type}.
Implicit Types (k : nat -> jsstring -> captures -> option R) (a : R).

Lemma step_seq (r1 r2 : regex) pos rest cs k a :
  matchRe ic r1 pos rest cs (fun p s c => matchRe ic r2 p s c k) = Some a ->
  matchRe ic (Seq r1 r2) pos rest cs k = Some a.
Proof. intros H. exact H. Qed.

Lemma step_group (n : nat) (r : regex) pos rest cs k a :
  matchRe ic r pos rest cs
          (fun p s c => k p s ((n, firstn (p - pos) rest) :: c)) = Some a ->
  matchRe ic (Group n r) pos rest cs k = Some a.
Proof. intros H. exact H. Qed.

Lemma step_bol rest cs k a :
  k 0%nat rest cs = Some a -> matchRe ic Bol 0 rest cs k = Some a.
Proof. intros H. exact H. Qed.

Lemma step_eol pos cs k a :
  k pos [] cs = Some a -> matchRe ic Eol pos [] cs k = Some a.
Proof. intros H. exact H. Qed.

Lemma step_one (r : regex) (P : Z -> bool) pos c t cs k a :
  readsOne ic r P -> P c = true ->
  k (S pos) t cs = Some a ->
  matchRe ic r pos (c :: t) cs k = Some a.
Proof. intros Hr Hc H. rewrite Hr, Hc. exact H. Qed.

(** An optional one-unit pattern in front of a unit it does not accept. *)
Lemma step_opt_skip (r : regex) (P : Z -> bool) pos rest cs k a :
  readsOne ic r P ->
  match rest with c :: _ => P c | [] => false end = false ->
  k pos rest cs = Some a ->
  matchRe ic (Opt r) pos rest cs k = Some a.
Proof.
  intros Hr Hc H. unfold Opt. cbn [matchRe].
  rewrite (Hr R pos rest cs k).
  destruct rest as [|c t]; [exact H|]. rewrite Hc. exact H.
Qed.

(** A star over a one-unit pattern in front of a run of accepted units and
    a unit that is not accepted: when the rest of the pattern matches after
    the whole run, that is the match. *)
Lemma step_star (r : regex) (P : Z -> bool) (x : jsstring) :
  readsOne ic r P ->
  forallb P x = true ->
  forall pos c t cs k a,
    P c = false ->
    k (pos + List.length x)%nat (c :: t) cs = Some a ->
    matchRe ic (Star r) pos (x ++ c :: t) cs k = Some a.
Proof.
  intros Hr. induction x as [|y x IH]; intros Hx pos c t cs k a Hc H.
  - cbn [app]. rewrite (star_cons ic r P) by exact Hr. rewrite Hc.
    cbn [List.length] in H. now rewrite Nat.add_0_r in H.
  - cbn [forallb] in Hx. apply andb_prop in Hx. destruct Hx as [Hy Hx].
    cbn [app]. rewrite (star_cons ic r P) by exact Hr. rewrite Hy.
    rewrite (IH Hx (S pos) c t cs k a Hc); [reflexivity|].
    cbn [List.length] in H. now rewrite Nat.add_succ_r in H.
Qed.

(** A pattern cannot match where what follows it cannot: [Q] is a property
    of the input that its tails keep and under which the continuation
    fails. *)
Lemma matchRe_dead (Q : jsstring -> Prop) :
  (forall c t, Q (c :: t) -> Q t) ->
  forall (r : regex) pos rest cs k,
    Q rest ->
    (forall p s c, Q s -> k p s c = None) ->
    matchRe ic r pos rest cs k = None.
Proof.
  intros Htl. induction r as [|p|neg rs|r1 IH1 r2 IH2|r1 IH1 r2 IH2|r1 IH1
                              |n r1 IH1| |];
    intros pos rest cs k Hq Hk; cbn [matchRe].
  - now apply Hk.
  - destruct rest as [|c t]; [reflexivity|].
    destruct (sameChar ic p c); [|reflexivity]. apply Hk. now apply Htl in Hq.
  - destruct rest as [|c t]; [reflexivity|].
    destruct (xorb neg (inClass ic rs c)); [|reflexivity].
    apply Hk. now apply Htl in Hq.
  - apply IH1; [exact Hq|]. intros p s c Hs. now apply IH2.
  - rewrite IH1 by assumption. now apply IH2.
  - generalize (List.length rest). intros n. revert pos rest cs Hq.
    induction n as [|n IHn]; intros pos rest cs Hq; [now apply Hk|].
    rewrite IH1; [now apply Hk | exact Hq |].
    intros p s c Hs. destruct (_ <? _)%nat; [|reflexivity]. now apply IHn.
  - apply IH1; [exact Hq|]. intros p s c Hs. now apply Hk.
  - destruct (Nat.eqb pos 0); [|reflexivity]. now apply Hk.
  - destruct rest; [|reflexivity]. now apply Hk.
Qed.

Lemma dead_seq (Q : jsstring -> Prop) (r1 r2 : regex) pos rest cs k :
  (forall c t, Q (c :: t) -> Q t) ->
  Q rest ->
  (forall p s c, Q s -> matchRe ic r2 p s c k = None) ->
  matchRe ic (Seq r1 r2) pos rest cs k = None.
Proof.
  intros Htl Hq Hk. cbn [matchRe]. now apply (matchRe_dead Q Htl).
Qed.

End Steps.

(** A pattern that begins with ^ matches at the start only. *)
Lemma searchFrom_bol (r : regex) (rest : jsstring) :
  forall pos, searchFrom (re (Seq Bol r)) (S pos) rest = None.
Proof.
  induction rest as [|c t IH]; intros pos; cbn [searchFrom];
    unfold matchAt; cbn [pattern flag_i re matchRe Nat.eqb]; [reflexivity|].
  apply IH.
Qed.

Lemma exec_bol (r : regex) (s : jsstring) :
  exec s (re (Seq Bol r))
  = match matchAt (re (Seq Bol r)) 0 s with
    | Some (_, c) => Some c
    | None => None
    end.
Proof.
  unfold exec. destruct s as [|c t]; cbn [searchFrom];
    destruct (matchAt _ _ _) as [[p cs]|]; try reflexivity.
  now rewrite searchFrom_bol.
Qed.

(** **** Displaying and reading addresses *)

Lemma trimStart_fixed (s : jsstring) :
  List.length (trimStart s) = List.length s -> trimStart s = s.
Proof.
  destruct s as [|c t]; [reflexivity|]. cbn [trimStart].
  destruct (isWhiteSpace c); [|reflexivity].
  intros H. pose proof (trimStart_length t). simpl in H. lia.
Qed.

(** A trimmed string has no white space at either end. *)
Lemma trim_fixed (s : jsstring) :
  trim s = s -> trimStart s = s /\ trimStart (rev s) = rev s.
Proof.
  intros H.
  assert (Hs : trimStart s = s).
  { apply trimStart_fixed. apply Nat.le_antisymm; [apply trimStart_length|].
    rewrite <- H at 1. unfold trim, trimEnd. rewrite length_rev.
    etransitivity; [apply trimStart_length|]. now rewrite length_rev. }
  split; [exact Hs|].
  unfold trim, trimEnd in H. rewrite Hs in H.
  rewrite <- H at 2. now rewrite rev_involutive.
Qed.

Lemma trimStart_head (c : Z) (t : jsstring) :
  trimStart (c :: t) = c :: t -> isWhiteSpace c = false.
Proof.
  cbn [trimStart]. destruct (isWhiteSpace c); [|reflexivity].
  intros H. pose proof (trimStart_length t) as Hl. rewrite H in Hl.
  simpl in Hl. lia.
Qed.

Lemma trim_between (c d : Z) (x : jsstring) :
  isWhiteSpace c = false -> isWhiteSpace d = false ->
  trim (c :: x ++ [d]) = c :: x ++ [d].
Proof.
  intros Hc Hd. unfold trim, trimEnd. cbn [trimStart]. rewrite Hc.
  change (c :: x ++ [d]) with ((c :: x) ++ [d]).
  rewrite rev_app_distr. cbn [rev app trimStart]. rewrite Hd.
  cbn [rev]. rewrite rev_app_distr, rev_involutive. reflexivity.
Qed.

Lemma trim_space_cons (s : jsstring) : trim (32 :: s) = trim s.
Proof. reflexivity. Qed.

(** The name as the pattern captures it, followed by a space. *)
Lemma trim_name_space (n : jsstring) :
  n <> [] -> trim n = n -> trim (n ++ [32]) = n.
Proof.
  intros Hn Ht. apply trim_fixed in Ht. destruct Ht as [Hs Hr].
  destruct n as [|c t]; [congruence|].
  pose proof (trimStart_head c t Hs) as Hc.
  unfold trim, trimEnd. cbn [app trimStart]. rewrite Hc.
  change (c :: t ++ [32]) with ((c :: t) ++ [32]).
  rewrite rev_app_distr.
  change (rev [32] ++ rev (c :: t)) with (32 :: rev (c :: t)).
  cbn [trimStart]. change (isWhiteSpace 32) with true. cbn iota.
  rewrite Hr. apply rev_involutive.
Qed.

Lemma plainUnit_spec (c : Z) :
  plainUnit c = true ->
  (c =? DQUOTE) = false /\ (c =? ch "<") = false
  /\ (c =? ch ">") = false /\ (c =? ch ",") = false.
Proof.
  unfold plainUnit. destruct (c =? DQUOTE); [discriminate|].
  destruct (c =? ch "<"); [discriminate|].
  destruct (c =? ch ">"); [discriminate|].
  destruct (c =? ch ","); [discriminate|]. auto.
Qed.

Lemma one_range (x c : Z) : (x <=? c) && (c <=? x) = (c =? x).
Proof.
  destruct (c =? x) eqn:H; [apply Z.eqb_eq in H | apply Z.eqb_neq in H]; lia.
Qed.

(** Membership of the two classes of the address pattern. *)
Lemma in_name_class (c : Z) :
  xorb true (inClass false [one DQUOTE; one (ch "<")] c)
  = negb ((c =? DQUOTE) || (c =? ch "<")).
Proof.
  unfold inClass, inRanges, one. cbn [existsb fst snd].
  now rewrite !one_range, orb_false_r.
Qed.

Lemma in_address_class (c : Z) :
  xorb true (inClass false [one (ch ">")] c) = negb (c =? ch ">").
Proof.
  unfold inClass, inRanges, one. cbn [existsb fst snd].
  now rewrite !one_range, orb_false_r.
Qed.

Lemma plain_in_name_class (x : jsstring) :
  forallb plainUnit x = true ->
  forallb (fun c => xorb true (inClass false [one DQUOTE; one (ch "<")] c)) x
  = true.
Proof.
  intros H. rewrite forallb_forall in *. intros c Hc.
  apply H, plainUnit_spec in Hc. destruct Hc as (H1 & H2 & _).
  now rewrite in_name_class, H1, H2.
Qed.

Lemma plain_in_address_class (x : jsstring) :
  forallb plainUnit x = true ->
  forallb (fun c => xorb true (inClass false [one (ch ">")] c)) x = true.
Proof.
  intros H. rewrite forallb_forall in *. intros c Hc.
  apply H, plainUnit_spec in Hc. destruct Hc as (_ & _ & H3 & _).
  now rewrite in_address_class, H3.
Qed.

Lemma firstn_exact {A : Type} (x y : list A) (n : nat) :
  n = List.length x -> firstn n (x ++ y) = x.
Proof.
  intros ->. rewrite firstn_app, Nat.sub_diag, firstn_all. cbn [firstn].
  apply app_nil_r.
Qed.

(** The address pattern on a displayed name and address. *)
Lemma address_match (n ad : jsstring) :
  n <> [] -> ad <> [] ->
  forallb plainUnit n = true -> forallb plainUnit ad = true ->
  exists e,
    matchAt ADDRESS_RE 0 (n ++ str " <" ++ ad ++ str ">")
    = Some (e, [ (2%nat, ad); (1%nat, n ++ [32]) ]).
Proof.
  intros Hn Had Hpn Hpa.
  destruct n as [|n0 n']; [congruence|]. destruct ad as [|a0 ad']; [congruence|].
  assert (Hn0 : plainUnit n0 = true) by (cbn [forallb] in Hpn; now apply andb_prop in Hpn).
  assert (Ha0 : plainUnit a0 = true) by (cbn [forallb] in Hpa; now apply andb_prop in Hpa).
  apply plainUnit_spec in Hn0. destruct Hn0 as (Hq & _).
  replace ((n0 :: n') ++ str " <" ++ (a0 :: ad') ++ str ">")
    with (((n0 :: n') ++ [32]) ++ ch "<" :: (a0 :: ad') ++ [ch ">"])
    by (now rewrite <- app_assoc).
  eexists. unfold matchAt, ADDRESS_RE. cbn [pattern flag_i re seqs].
  apply step_seq, step_bol. cbv beta.
  apply step_seq.
  apply (step_opt_skip false (Char DQUOTE) (sameChar false DQUOTE));
    [apply readsOne_Char
    | cbn [app sameChar]; rewrite Z.eqb_sym; exact Hq |].
  cbv beta. apply step_seq, step_group.
  apply (step_star false _ _ ((n0 :: n') ++ [32]) (readsOne_Class false true _)).
  { apply plain_in_name_class. rewrite forallb_app, Hpn. reflexivity. }
  { reflexivity. }
  cbv beta. apply step_seq.
  apply (step_opt_skip false (Char DQUOTE) (sameChar false DQUOTE));
    [apply readsOne_Char | reflexivity |].
  cbv beta. apply step_seq.
  rewrite (star_cons false Space isWhiteSpace)
    by (intros R pos' rest' cs k; reflexivity).
  change (isWhiteSpace (ch "<")) with false. cbv iota.
  apply step_seq.
  apply (step_one false (Char (ch "<")) (sameChar false (ch "<")));
    [apply readsOne_Char | reflexivity |].
  cbv beta. apply step_seq, step_group. unfold Plus. apply step_seq.
  cbn [app].
  apply (step_one false _ _ _ _ _ _ _ _ (readsOne_Class false true _)).
  { rewrite in_address_class. apply plainUnit_spec in Ha0.
    destruct Ha0 as (_ & _ & -> & _). reflexivity. }
  cbv beta.
  apply (step_star false _ _ ad' (readsOne_Class false true _)).
  { apply plain_in_address_class. cbn [forallb] in Hpa.
    now apply andb_prop in Hpa. }
  { reflexivity. }
  cbv beta. apply step_seq.
  apply (step_one false (Char (ch ">")) (sameChar false (ch ">")));
    [apply readsOne_Char | reflexivity |].
  cbv beta. apply step_eol.
  f_equal. f_equal. f_equal; [f_equal | f_equal; f_equal].
  - apply (firstn_exact (a0 :: ad') [ch ">"]). cbn [List.length]. lia.
  - apply (firstn_exact ((n0 :: n') ++ [32])). cbn [app List.length]. lia.
Qed.

(** A string without an opening angle bracket is not matched by the
    address pattern. *)
Lemma address_no_match (s : jsstring) :
  forallb plainUnit s = true -> exec s ADDRESS_RE = None.
Proof.
  intros Hs. unfold ADDRESS_RE. cbn [seqs]. rewrite exec_bol.
  unfold matchAt. cbn [pattern flag_i re].
  set (Q := fun x : jsstring => forallb plainUnit x = true).
  assert (Htl : forall c t, Q (c :: t) -> Q t).
  { unfold Q. intros c t H. cbn [forallb] in H. now apply andb_prop in H. }
  rewrite (dead_seq false Q); [reflexivity | exact Htl | exact Hs |].
  intros p0 s0 c0 H0. apply (dead_seq false Q); [exact Htl | exact H0 |].
  intros p1 s1 c1 H1. apply (dead_seq false Q); [exact Htl | exact H1 |].
  intros p2 s2 c2 H2. apply (dead_seq false Q); [exact Htl | exact H2 |].
  intros p3 s3 c3 H3. apply (dead_seq false Q); [exact Htl | exact H3 |].
  intros p4 s4 c4 H4. cbn [matchRe sameChar].
  destruct s4 as [|c t]; [reflexivity|].
  unfold Q in H4. cbn [forallb] in H4. apply andb_prop in H4.
  destruct H4 as [H4 _]. apply plainUnit_spec in H4.
  destruct H4 as (_ & H4 & _). now rewrite Z.eqb_sym, H4.
Qed.

(** No match of the pattern that takes the quotes off a name. *)
Lemma quote_ends_go (s : jsstring) :
  forallb plainUnit s = true ->
  forall pos, replaceGo QUOTE_ENDS_RE erase 0 pos s = s.
Proof.
  induction s as [|c t IH]; intros Hs pos.
  - cbn [replaceGo]. unfold matchAt, QUOTE_ENDS_RE.
    cbn [pattern flag_i re matchRe]. destruct (Nat.eqb pos 0); reflexivity.
  - cbn [forallb] in Hs. apply andb_prop in Hs. destruct Hs as [Hc Ht].
    apply plainUnit_spec in Hc. destruct Hc as (Hq & _).
    cbn [replaceGo]. unfold matchAt at 1, QUOTE_ENDS_RE.
    cbn [pattern flag_i re matchRe sameChar]. rewrite (Z.eqb_sym DQUOTE c), Hq.
    destruct (Nat.eqb pos 0); now rewrite IH.
Qed.

Lemma formatted_trimmed (a : EmailAddress) :
  displayable a ->
  trim (formatEmailAddress a) = formatEmailAddress a
  /\ formatEmailAddress a <> [].
Proof.
  intros (Hpn & Hpa & Htn & Hta & Hne). unfold formatEmailAddress.
  destruct (name a) as [|c t] eqn:Hn; cbn [truthy]; [now split|].
  split; [|discriminate].
  apply trim_fixed in Htn. destruct Htn as [Hs _].
  apply trimStart_head in Hs.
  replace ((c :: t) ++ str " <" ++ address a ++ str ">")
    with (c :: (t ++ str " <" ++ address a) ++ [ch ">"])
    by (cbn [app]; now rewrite <- !app_assoc).
  now apply trim_between.
Qed.

(** Reading a displayed address gives the address back. *)
Lemma parse_formatted (a : EmailAddress) :
  displayable a -> parseEmailAddress (formatEmailAddress a) = a.
Proof.
  intros Ha. destruct (formatted_trimmed a Ha) as [Ht _].
  unfold parseEmailAddress. rewrite Ht. clear Ht.
  destruct Ha as (Hpn & Hpa & Htn & Hta & Hne).
  destruct a as [n ad]. cbn [name address] in *. unfold formatEmailAddress.
  cbn [name address].
  destruct n as [|c t] eqn:Hn; cbn [truthy].
  - now rewrite address_no_match.
  - rewrite <- Hn in *.
    assert (Hnn : n <> []) by (rewrite Hn; discriminate).
    destruct (address_match n ad Hnn Hne Hpn Hpa) as [e He].
    unfold ADDRESS_RE in *. cbn [seqs] in *. rewrite exec_bol, He.
    unfold group. cbn [capture Nat.eqb].
    rewrite (trim_name_space n Hnn Htn), Hta.
    unfold replaceAll. now rewrite quote_ends_go.
Qed.

(** The segments of a displayed list. *)
Lemma segments_plain (x : jsstring) :
  forallb plainUnit x = true ->
  forall prev q a cur rest,
  exists prev',
    segmentsFrom prev q a cur (x ++ rest)
    = segmentsFrom prev' q a (cur ++ x) rest.
Proof.
  induction x as [|c t IH]; intros Hx prev q a cur rest.
  - exists prev. now rewrite app_nil_r.
  - cbn [forallb] in Hx. apply andb_prop in Hx. destruct Hx as [Hc Ht].
    apply plainUnit_spec in Hc. destruct Hc as (H1 & H2 & H3 & H4).
    destruct (IH Ht (Some c) q a (cur ++ [c]) rest) as [prev' Hp].
    exists prev'. cbn [app segmentsFrom]. rewrite H1, H2, H3, H4.
    cbn [andb]. rewrite Hp, <- app_assoc. reflexivity.
Qed.

Lemma segments_formatted (a : EmailAddress) :
  displayable a ->
  forall prev cur rest,
  exists prev',
    segmentsFrom prev false false cur (formatEmailAddress a ++ rest)
    = segmentsFrom prev' false false (cur ++ formatEmailAddress a) rest.
Proof.
  intros (Hpn & Hpa & _) prev cur rest. unfold formatEmailAddress.
  destruct (truthy (name a)); [|now apply segments_plain].
  assert (Hn : forallb plainUnit (name a ++ [32]) = true)
    by (rewrite forallb_app, Hpn; reflexivity).
  replace ((name a ++ str " <" ++ address a ++ str ">") ++ rest)
    with ((name a ++ [32]) ++ ch "<" :: address a ++ ch ">" :: rest)
    by (rewrite <- !app_assoc; reflexivity).
  destruct (segments_plain _ Hn prev false false cur
              (ch "<" :: address a ++ ch ">" :: rest)) as [p1 H1].
  rewrite H1. cbn [segmentsFrom]. cbn -[segmentsFrom app].
  destruct (segments_plain _ Hpa (Some (ch "<")) false true
              ((cur ++ name a ++ [32]) ++ [ch "<"]) (ch ">" :: rest))
    as [p2 H2].
  rewrite H2. cbn [segmentsFrom]. cbn -[segmentsFrom app].
  exists (Some (ch ">")). f_equal. rewrite <- !app_assoc. reflexivity.
Qed.

Lemma segments_separator (prev : option Z) (cur rest : jsstring) :
  segmentsFrom prev false false cur (str ", " ++ rest)
  = cur :: segmentsFrom (Some 32) false false [32] rest.
Proof. reflexivity. Qed.

Lemma Array_join_cons (sep x y : jsstring) (l : list jsstring) :
  Array_join sep (x :: y :: l) = x ++ sep ++ Array_join sep (y :: l).
Proof. reflexivity. Qed.

Lemma segments_of_display (l : list EmailAddress) :
  Forall displayable l ->
  forall a prev cur,
    displayable a ->
    segmentsFrom prev false false cur (formatEmailAddresses (a :: l))
    = (cur ++ formatEmailAddress a)
        :: map (fun b => 32 :: formatEmailAddress b) l.
Proof.
  unfold formatEmailAddresses.
  induction 1 as [|b l Hb Hl IH]; intros a prev cur Ha.
  - cbn [map Array_join].
    destruct (segments_formatted a Ha prev cur []) as [p Hp].
    rewrite app_nil_r in Hp. rewrite Hp. reflexivity.
  - change (map formatEmailAddress (a :: b :: l))
      with (formatEmailAddress a :: formatEmailAddress b
                                 :: map formatEmailAddress l).
    rewrite Array_join_cons.
    change (formatEmailAddress b :: map formatEmailAddress l)
      with (map formatEmailAddress (b :: l)).
    destruct (segments_formatted a Ha prev cur
                (str ", " ++ Array_join (str ", ")
                                        (map formatEmailAddress (b :: l))))
      as [p Hp].
    rewrite Hp, segments_separator. f_equal.
    rewrite (IH b (Some 32) [32] Hb). reflexivity.
Qed.

Lemma display_non_blank (l : list EmailAddress) :
  Forall displayable l ->
  filter nonBlank (map (fun b => 32 :: formatEmailAddress b) l)
  = map (fun b => 32 :: formatEmailAddress b) l
  /\ map parseEmailAddress (map (fun b => 32 :: formatEmailAddress b) l) = l.
Proof.
  induction 1 as [|b l Hb Hl [IH1 IH2]]; [split; reflexivity|].
  destruct (formatted_trimmed b Hb) as [Ht Hne].
  cbn [map filter]. unfold nonBlank at 1. rewrite trim_space_cons, Ht.
  destruct (formatEmailAddress b) as [|c t] eqn:Hf; [congruence|].
  cbn [truthy]. rewrite IH1, IH2. split; [reflexivity|].
  f_equal. unfold parseEmailAddress. rewrite trim_space_cons.
  rewrite <- Hf. apply (parse_formatted b Hb).
Qed.

(** X12: reading a displayed list gives the list back, when every name and
    address is trimmed and free of double quotes, angle brackets and commas
    and no address is empty. *)
Theorem parse_format_round_trip (l : list EmailAddress) :
  Forall displayable l ->
  parseEmailAddresses (formatEmailAddresses l) = l.
Proof.
  intros Hl. rewrite parseEmailAddresses_segments. unfold topLevelSegments.
  destruct Hl as [|a l Ha Hl]; [reflexivity|].
  rewrite (segments_of_display l Hl a None [] Ha). cbn [app filter map].
  destruct (formatted_trimmed a Ha) as [Ht Hne].
  unfold nonBlank at 1. rewrite Ht.
  destruct (formatEmailAddress a) as [|c t] eqn:Hf; [congruence|].
  cbn [truthy map]. rewrite <- Hf.
  destruct (display_non_blank l Hl) as [H1 H2].
  rewrite H1, H2, (parse_formatted a Ha). reflexivity.
Qed.

(** **** Transfer decoding: what is left alone, what comes back *)

Lemma mimeWord_no_match (pos : nat) (s : jsstring) :
  startsWith s (str "=?") = false -> matchAt MIME_WORD_RE pos s = None.
Proof.
  unfold matchAt, MIME_WORD_RE, rei. cbn [pattern flag_i seqs matchRe sameChar].
  destruct s as [|c [|d t]]; intros H; try reflexivity.
  - destruct (_ =? _); reflexivity.
  - change (str "=?") with [ch "="; ch "?"] in H. cbn [startsWith] in H.
    rewrite startsWith_nil, andb_true_r in H.
    assert (Hu : forall x y, x < 65 ->
                   (upperUnit x =? upperUnit y) = (y =? x)).
    { intros x y Hx. unfold upperUnit.
      destruct ((97 <=? x) && (x <=? 122)) eqn:E1; [lia|].
      destruct ((97 <=? y) && (y <=? 122)) eqn:E2;
        destruct (y =? x) eqn:E3; lia. }
    rewrite (Hu (ch "=") c), (Hu (ch "?") d) by reflexivity.
    destruct (c =? ch "="); [|reflexivity].
    destruct (d =? ch "?"); [discriminate | reflexivity].
Qed.

Lemma replace_mimeWord_go (f : jsstring -> captures -> jsstring)
      (s : jsstring) :
  includes s (str "=?") = false ->
  forall pos, replaceGo MIME_WORD_RE f 0 pos s = s.
Proof.
  induction s as [|c t IH]; intros H pos.
  - cbn [replaceGo]. now rewrite mimeWord_no_match.
  - cbn [includes] in H. apply orb_false_elim in H. destruct H as [H1 H2].
    cbn [replaceGo]. rewrite (mimeWord_no_match _ _ H1). now rewrite IH.
Qed.

(** X13: a header value in which no equals sign is followed by a question
    mark holds no encoded word: decodeMimeWord returns it unchanged. *)
Theorem decodeMimeWord_plain (s : jsstring) :
  includes s (str "=?") = false -> decodeMimeWord s = s.
Proof.
  intros H. unfold decodeMimeWord, replaceAll. now apply replace_mimeWord_go.
Qed.

(** A property checked on every number below a bound holds below it. *)
Lemma below_bound (P : Z -> bool) (n : nat) :
  forallb P (map Z.of_nat (seq 0 n)) = true ->
  forall v, 0 <= v < Z.of_nat n -> P v = true.
Proof.
  intros H v Hv. rewrite forallb_forall in H. apply H.
  apply in_map_iff. exists (Z.to_nat v). split; [lia|].
  apply in_seq. lia.
Qed.

Lemma isByte_range (b : Z) : isByte b = true -> 0 <= b < 256.
Proof. unfold isByte. lia. Qed.

Lemma hexValue_hexDigit (v : Z) :
  0 <= v < 16 -> hexValue (hexDigit v) = Some v.
Proof.
  intros Hv.
  apply (below_bound (fun v => match hexValue (hexDigit v) with
                               | Some w => w =? v
                               | None => false
                               end) 16 eq_refl) in Hv.
  destruct (hexValue (hexDigit v)) as [w|]; [|discriminate].
  apply Z.eqb_eq in Hv. now subst.
Qed.

Lemma hexDigit_not_break (v : Z) :
  0 <= v < 16 ->
  (hexDigit v =? LF) = false /\ (hexDigit v =? CR) = false
  /\ (hexDigit v =? ch "=") = false.
Proof.
  intros Hv. unfold hexDigit, LF, CR. change (ch "=") with 61.
  destruct (v <? 10) eqn:Hlt; lia.
Qed.

Lemma expandEscapes_literal (c : Z) (t : jsstring) :
  (c =? ch "=") = false -> expandEscapes (c :: t) = c :: expandEscapes t.
Proof.
  intros Hc. destruct t as [|h [|l t']]; try reflexivity.
  rewrite expandEscapes_cons3, Hc. reflexivity.
Qed.

Lemma removeSoftBreaks_literal (c : Z) (t : jsstring) :
  (c =? ch "=") = false -> removeSoftBreaks (c :: t) = c :: removeSoftBreaks t.
Proof. intros Hc. cbn [removeSoftBreaks]. now rewrite Hc. Qed.

Lemma removeSoftBreaks_escape (h : Z) (t : jsstring) :
  (h =? LF) = false -> (h =? CR) = false ->
  removeSoftBreaks (ch "=" :: h :: t) = ch "=" :: removeSoftBreaks (h :: t).
Proof.
  intros H1 H2. cbn [removeSoftBreaks]. rewrite Z.eqb_refl, H1, H2.
  reflexivity.
Qed.

Lemma quotedPrintableEncode_cons (b : Z) (bytes : Buffer) :
  quotedPrintableEncode (b :: bytes)
  = quotedPrintableUnit b ++ quotedPrintableEncode bytes.
Proof. reflexivity. Qed.

Lemma quotedPrintable_no_break (bytes : Buffer) :
  forallb isByte bytes = true ->
  removeSoftBreaks (quotedPrintableEncode bytes) = quotedPrintableEncode bytes.
Proof.
  induction bytes as [|b bs IH]; intros H; [reflexivity|].
  cbn [forallb] in H. apply andb_prop in H. destruct H as [Hb Hbs].
  apply isByte_range in Hb. rewrite quotedPrintableEncode_cons.
  unfold quotedPrintableUnit.
  destruct ((33 <=? b) && (b <=? 126) && negb (b =? ch "=")) eqn:Hp.
  - cbn [app]. rewrite removeSoftBreaks_literal, (IH Hbs); [reflexivity|].
    apply andb_prop in Hp. destruct Hp as [_ Hp]. now destruct (b =? ch "=").
  - assert (H1 : 0 <= b / 16 < 16) by (split; [apply Z.div_pos|apply Z.div_lt_upper_bound]; lia).
    assert (H2 : 0 <= b mod 16 < 16) by (apply Z.mod_pos_bound; lia).
    destruct (hexDigit_not_break _ H1) as (L1 & C1 & E1).
    destruct (hexDigit_not_break _ H2) as (_ & _ & E2).
    cbn [app]. rewrite removeSoftBreaks_escape by assumption.
    rewrite removeSoftBreaks_literal by exact E1.
    rewrite removeSoftBreaks_literal by exact E2.
    now rewrite (IH Hbs).
Qed.

Lemma quotedPrintable_expand (bytes : Buffer) :
  forallb isByte bytes = true ->
  expandEscapes (quotedPrintableEncode bytes) = bytes.
Proof.
  induction bytes as [|b bs IH]; intros H; [reflexivity|].
  cbn [forallb] in H. apply andb_prop in H. destruct H as [Hb Hbs].
  apply isByte_range in Hb. rewrite quotedPrintableEncode_cons.
  unfold quotedPrintableUnit.
  destruct ((33 <=? b) && (b <=? 126) && negb (b =? ch "=")) eqn:Hp.
  - cbn [app]. rewrite expandEscapes_literal, (IH Hbs); [reflexivity|].
    apply andb_prop in Hp. destruct Hp as [_ Hp]. now destruct (b =? ch "=").
  - assert (H1 : 0 <= b / 16 < 16) by (split; [apply Z.div_pos|apply Z.div_lt_upper_bound]; lia).
    assert (H2 : 0 <= b mod 16 < 16) by (apply Z.mod_pos_bound; lia).
    cbn [app]. rewrite expandEscapes_cons3, Z.eqb_refl.
    rewrite (hexValue_hexDigit _ H1), (hexValue_hexDigit _ H2), (IH Hbs).
    f_equal. rewrite (Z.div_mod b 16) at 3 by lia. reflexivity.
Qed.

Lemma land_byte (b : Z) : 0 <= b < 256 -> Z.land b 255 = b.
Proof.
  intros Hb. change 255 with (Z.ones 8). rewrite Z.land_ones by lia.
  apply Z.mod_small. exact Hb.
Qed.

Lemma Buffer_from_array_bytes (bytes : Buffer) :
  forallb isByte bytes = true -> Buffer_from_array bytes = bytes.
Proof.
  induction bytes as [|b bs IH]; intros H; [reflexivity|].
  cbn [forallb] in H. apply andb_prop in H. destruct H as [Hb Hbs].
  unfold Buffer_from_array in *. cbn [map].
  now rewrite (land_byte b (isByte_range b Hb)), (IH Hbs).
Qed.

(** X14: the binary quoted-printable decoder gives back every byte
    sequence from its quoted-printable writing. *)
Theorem quotedPrintable_round_trip (bytes : Buffer) :
  forallb isByte bytes = true ->
  decodeContentToBuffer (quotedPrintableEncode bytes) (str "quoted-printable")
  = bytes.
Proof.
  intros H.
  change (decodeContentToBuffer (quotedPrintableEncode bytes)
                                (str "quoted-printable"))
    with (decodeQuotedPrintableToBuffer (quotedPrintableEncode bytes)).
  unfold decodeQuotedPrintableToBuffer.
  rewrite replace_softBreaks, escapeBytes_spec.
  rewrite (quotedPrintable_no_break bytes H), (quotedPrintable_expand bytes H).
  apply Buffer_from_array_bytes, H.
Qed.

Lemma below_bound2 (P : Z -> Z -> bool) (n m : nat) :
  forallb (fun a => forallb (P a) (map Z.of_nat (seq 0 m)))
          (map Z.of_nat (seq 0 n)) = true ->
  forall a b, 0 <= a < Z.of_nat n -> 0 <= b < Z.of_nat m -> P a b = true.
Proof.
  intros H a b Ha Hb.
  apply (below_bound (fun a => forallb (P a) (map Z.of_nat (seq 0 m))) n H)
    in Ha.
  exact (below_bound (P a) m Ha b Hb).
Qed.

Lemma sextets_digit (v : Z) (t : jsstring) :
  0 <= v < 64 -> sextets (base64Digit v :: t) = v :: sextets t.
Proof.
  intros Hv.
  apply (below_bound
           (fun v => match unbase64 (Z.land (base64Digit v) 255) with
                     | Some w => w =? v
                     | None => false
                     end) 64 eq_refl) in Hv.
  cbn [sextets].
  destruct (unbase64 (Z.land (base64Digit v) 255)) as [w|]; [|discriminate].
  apply Z.eqb_eq in Hv. now subst.
Qed.

(** The three bytes of a group of four digits. *)
Lemma pack_first (a b : Z) :
  0 <= a < 256 -> 0 <= b < 256 ->
  Z.lor (Z.shiftl (a / 4) 2) (Z.shiftr (a mod 4 * 16 + b / 16) 4) = a.
Proof.
  intros Ha Hb.
  assert (Hh : 0 <= b / 16 < 16) by (Z.to_euclidean_division_equations; lia).
  apply Z.eqb_eq.
  apply (below_bound2
           (fun a h => Z.lor (Z.shiftl (a / 4) 2)
                             (Z.shiftr (a mod 4 * 16 + h) 4) =? a)
           256 16); [vm_compute; reflexivity | exact Ha | exact Hh].
Qed.

Lemma pack_second (a b c : Z) :
  0 <= a < 256 -> 0 <= b < 256 -> 0 <= c < 256 ->
  Z.lor (Z.shiftl (Z.land (a mod 4 * 16 + b / 16) 15) 4)
        (Z.shiftr (b mod 16 * 4 + c / 64) 2) = b.
Proof.
  intros Ha Hb Hc.
  assert (Hq : 0 <= a mod 4 < 4) by (Z.to_euclidean_division_equations; lia).
  assert (Hh : 0 <= b / 16 < 16) by (Z.to_euclidean_division_equations; lia).
  assert (Ht : 0 <= c / 64 < 4) by (Z.to_euclidean_division_equations; lia).
  assert (H1 : Z.land (a mod 4 * 16 + b / 16) 15 = b / 16).
  { apply Z.eqb_eq.
    apply (below_bound2 (fun q h => Z.land (q * 16 + h) 15 =? h) 4 16);
      [vm_compute; reflexivity | exact Hq | exact Hh]. }
  rewrite H1. apply Z.eqb_eq.
  apply (below_bound2
           (fun b t => Z.lor (Z.shiftl (b / 16) 4)
                             (Z.shiftr (b mod 16 * 4 + t) 2) =? b)
           256 4); [vm_compute; reflexivity | exact Hb | exact Ht].
Qed.

Lemma pack_third (b c : Z) :
  0 <= b < 256 -> 0 <= c < 256 ->
  Z.lor (Z.shiftl (Z.land (b mod 16 * 4 + c / 64) 3) 6) (c mod 64) = c.
Proof.
  intros Hb Hc.
  assert (Hl : 0 <= b mod 16 < 16) by (Z.to_euclidean_division_equations; lia).
  apply Z.eqb_eq.
  apply (below_bound2
           (fun c l => Z.lor (Z.shiftl (Z.land (l * 4 + c / 64) 3) 6)
                             (c mod 64) =? c)
           256 16); [vm_compute; reflexivity | exact Hc | exact Hl].
Qed.

Lemma digit_ranges (a b c : Z) :
  0 <= a < 256 -> 0 <= b < 256 -> 0 <= c < 256 ->
  0 <= a / 4 < 64 /\ 0 <= a mod 4 * 16 + b / 16 < 64
  /\ 0 <= b mod 16 * 4 + c / 64 < 64 /\ 0 <= c mod 64 < 64.
Proof.
  intros Ha Hb Hc. Z.to_euclidean_division_equations. lia.
Qed.

Lemma base64_decode_encode (n : nat) :
  forall bytes,
    (List.length bytes <= n)%nat ->
    forallb isByte bytes = true ->
    packSextets (sextets (base64Encode bytes)) = bytes.
Proof.
  induction n as [|n IH]; intros bytes Hn Hb.
  - destruct bytes; [reflexivity | simpl in Hn; lia].
  - destruct bytes as [|a [|b [|c rest]]]; [reflexivity| | |].
    + cbn [forallb] in Hb. rewrite andb_true_r in Hb.
      apply isByte_range in Hb.
      destruct (digit_ranges a 0 0 Hb) as (R1 & R2 & _); [lia | lia |].
      cbn [base64Encode].
      replace (a mod 4 * 16) with (a mod 4 * 16 + 0 / 16) by (cbn; lia).
      rewrite !sextets_digit by assumption.
      cbn [sextets packSextets]. change (Z.land (ch "=") 255) with 61.
      cbn [unbase64 sextets packSextets]. cbn -[Z.lor Z.shiftl Z.shiftr Z.div Z.modulo Z.mul Z.add].
      now rewrite pack_first by lia.
    + cbn [forallb] in Hb. rewrite andb_true_r in Hb.
      apply andb_prop in Hb. destruct Hb as [Ha Hb].
      apply isByte_range in Ha, Hb.
      destruct (digit_ranges a b 0 Ha Hb) as (R1 & R2 & R3 & _); [lia|].
      cbn [base64Encode].
      replace (b mod 16 * 4) with (b mod 16 * 4 + 0 / 64) by (cbn; lia).
      rewrite !sextets_digit by assumption.
      change (sextets [ch "="]) with (@nil Z). cbn [packSextets].
      rewrite pack_first, pack_second by lia. reflexivity.
    + cbn [forallb] in Hb.
      apply andb_prop in Hb. destruct Hb as [Ha Hb].
      apply andb_prop in Hb. destruct Hb as [Hb Hc].
      apply andb_prop in Hc. destruct Hc as [Hc Hrest].
      apply isByte_range in Ha, Hb, Hc.
      destruct (digit_ranges a b c Ha Hb Hc) as (R1 & R2 & R3 & R4).
      cbn [base64Encode]. rewrite !sextets_digit by assumption.
      cbn [packSextets].
      rewrite pack_first, pack_second, pack_third by assumption.
      rewrite IH; [reflexivity | simpl in Hn; lia | exact Hrest].
Qed.

Lemma strip_spaces_go (s : jsstring) :
  forall pos,
    replaceGo SPACE_RE erase 0 pos s
    = filter (fun c => negb (isWhiteSpace c)) s.
Proof.
  induction s as [|c t IH]; intros pos; [reflexivity|].
  cbn [replaceGo filter]. unfold matchAt at 1, SPACE_RE, Space.
  cbn [pattern flag_i re matchRe inClass xorb].
  change (inRanges whiteSpaceRanges c) with (isWhiteSpace c).
  destruct (isWhiteSpace c); cbn [negb].
  - replace (Nat.eqb (S pos) pos) with false
      by (symmetry; apply Nat.eqb_neq; lia).
    replace (S pos - pos - 1)%nat with 0%nat by lia.
    cbn [erase app]. apply IH.
  - f_equal. apply IH.
Qed.

(** X15: the binary base64 decoder gives back every byte sequence from its
    base64 writing, however white space is spread over the text. *)
Theorem base64_round_trip (bytes : Buffer) (s : jsstring) :
  forallb isByte bytes = true ->
  filter (fun c => negb (isWhiteSpace c)) s = base64Encode bytes ->
  decodeContentToBuffer s (str "base64") = bytes.
Proof.
  intros Hb Hs.
  change (decodeContentToBuffer s (str "base64"))
    with (Buffer_from_base64 (replaceAll s SPACE_RE erase)).
  unfold replaceAll, Buffer_from_base64. rewrite strip_spaces_go, Hs.
  now apply (base64_decode_encode (List.length bytes)).
Qed.

(** **** The size of decoded content *)

Lemma filter_shorter {A : Type} (f : A -> bool) (l : list A) :
  (List.length (filter f l) <= List.length l)%nat.
Proof.
  induction l as [|a l IH]; [apply Nat.le_refl|].
  cbn [filter]. destruct (f a); cbn [List.length]; lia.
Qed.

Lemma sextets_length (s : jsstring) :
  (List.length (sextets s) <= List.length s)%nat.
Proof.
  induction s as [|c t IH]; [apply Nat.le_refl|].
  cbn [sextets]. destruct (unbase64 _); [cbn [List.length]; lia|].
  destruct (_ =? 61); cbn [List.length]; lia.
Qed.

Lemma packSextets_length (n : nat) :
  forall l,
    (List.length l <= n)%nat ->
    (4 * List.length (packSextets l) <= 3 * List.length l)%nat.
Proof.
  induction n as [|n IH]; intros l Hn.
  - destruct l; [cbn; lia | simpl in Hn; lia].
  - destruct l as [|a [|b [|c [|d rest]]]]; try (cbn; lia).
    cbn [packSextets List.length] in *.
    specialize (IH rest). lia.
Qed.

Lemma removeSoftBreaks_length (n : nat) :
  forall s,
    (List.length s <= n)%nat ->
    (List.length (removeSoftBreaks s) <= List.length s)%nat.
Proof.
  induction n as [|n IH]; intros s Hn.
  - destruct s; [apply Nat.le_refl | simpl in Hn; lia].
  - destruct s as [|c t]; [apply Nat.le_refl|].
    cbn [List.length] in Hn.
    assert (Ht : (List.length (c :: removeSoftBreaks t)
                  <= List.length (c :: t))%nat).
    { cbn [List.length]. specialize (IH t). lia. }
    cbn [removeSoftBreaks].
    destruct (c =? ch "="); [|exact Ht].
    destruct t as [|x t']; [apply Nat.le_refl|].
    cbn [List.length] in Hn.
    destruct (x =? LF).
    { specialize (IH t'). cbn [List.length]. lia. }
    destruct (x =? CR); [|exact Ht].
    destruct t' as [|m t'']; [exact Ht|].
    destruct (m =? LF); [|exact Ht].
    cbn [List.length] in *. specialize (IH t''). lia.
Qed.

Lemma expandEscapes_length (n : nat) :
  forall s,
    (List.length s <= n)%nat ->
    (List.length (expandEscapes s) <= List.length s)%nat.
Proof.
  induction n as [|n IH]; intros s Hn.
  - destruct s; [apply Nat.le_refl | simpl in Hn; lia].
  - destruct s as [|c t]; [apply Nat.le_refl|].
    cbn [List.length] in Hn.
    assert (Ht : (List.length (c :: expandEscapes t)
                  <= List.length (c :: t))%nat).
    { cbn [List.length]. specialize (IH t). lia. }
    destruct t as [|h [|l t']];
      [exact Ht | rewrite expandEscapes_short by (cbn; lia); exact Ht |].
    rewrite expandEscapes_cons3.
    destruct (c =? ch "="); [|exact Ht].
    destruct (hexValue h); [|exact Ht].
    destruct (hexValue l); [|exact Ht].
    cbn [List.length] in *. specialize (IH t'). lia.
Qed.

(** X16: decoded content is never longer than its encoded text, and base64
    gives at most three bytes for four units. *)
Theorem decoded_content_is_no_longer (content encoding : jsstring) :
  (List.length (decodeContentToBuffer content encoding)
   <= List.length content)%nat
  /\ (4 * List.length (decodeContentToBuffer content (str "base64"))
      <= 3 * List.length content)%nat.
Proof.
  assert (Hb : (4 * List.length
                      (Buffer_from_base64 (replaceAll content SPACE_RE erase))
                <= 3 * List.length content)%nat).
  { unfold replaceAll, Buffer_from_base64. rewrite strip_spaces_go.
    pose proof (filter_shorter (fun c => negb (isWhiteSpace c)) content).
    pose proof (sextets_length
                  (filter (fun c => negb (isWhiteSpace c)) content)).
    pose proof (packSextets_length _ _ (Nat.le_refl _)
                  : (4 * List.length
                           (packSextets
                              (sextets
                                 (filter (fun c => negb (isWhiteSpace c))
                                         content)))
                     <= _)%nat).
    lia. }
  split; [|exact Hb].
  unfold decodeContentToBuffer.
  destruct (streq encoding (str "base64")); [lia|].
  destruct (streq encoding (str "quoted-printable")).
  - unfold decodeQuotedPrintableToBuffer, Buffer_from_array.
    rewrite length_map, replace_softBreaks, escapeBytes_spec.
    pose proof (removeSoftBreaks_length _ _ (Nat.le_refl (List.length content))).
    pose proof (expandEscapes_length _ _
                  (Nat.le_refl (List.length (removeSoftBreaks content)))).
    lia.
  - unfold Buffer_from_binary. now rewrite length_map.
Qed.

(** **** Text that needs no decoding *)

Lemma plain_removeSoftBreaks (s : jsstring) :
  forallb plainAscii s = true -> removeSoftBreaks s = s.
Proof.
  induction s as [|c t IH]; intros H; [reflexivity|].
  cbn [forallb] in H. apply andb_prop in H. destruct H as [Hc Ht].
  unfold plainAscii in Hc. apply andb_prop in Hc. destruct Hc as [_ Hc].
  rewrite removeSoftBreaks_literal, (IH Ht); [reflexivity|].
  now destruct (c =? ch "=").
Qed.

Lemma plain_expandEscapes (s : jsstring) :
  forallb plainAscii s = true -> expandEscapes s = s.
Proof.
  induction s as [|c t IH]; intros H; [reflexivity|].
  cbn [forallb] in H. apply andb_prop in H. destruct H as [Hc Ht].
  unfold plainAscii in Hc. apply andb_prop in Hc. destruct Hc as [_ Hc].
  rewrite expandEscapes_literal, (IH Ht); [reflexivity|].
  now destruct (c =? ch "=").
Qed.

Lemma ascii_utf8 (s : jsstring) :
  forallb isAscii s = true ->
  Buffer_toString_utf8 (Buffer_from_array s) = s.
Proof.
  unfold Buffer_toString_utf8, Buffer_from_array.
  induction s as [|c t IH]; intros H; [reflexivity|].
  cbn [forallb] in H. apply andb_prop in H. destruct H as [Hc Ht].
  assert (Hr : 0 <= c < 128) by (unfold isAscii in Hc; lia).
  cbn [map utf8Run u_needed utf8Idle]. rewrite land_byte by lia.
  unfold utf8Lead. replace (c <=? 127) with true by lia.
  cbn [app]. f_equal. exact (IH Ht).
Qed.

(** X17: under every transfer encoding but base64, ASCII text without an
    equals sign is its own decoding. *)
Theorem decodeContent_plain_text (s encoding : jsstring) :
  streq encoding (str "base64") = false ->
  forallb plainAscii s = true ->
  decodeContent s encoding = s.
Proof.
  intros He Hs. unfold decodeContent. rewrite He.
  destruct (streq encoding (str "quoted-printable")); [|reflexivity].
  unfold decodeQuotedPrintable, decodeQuotedPrintableToBuffer, tryCatch, ret.
  rewrite replace_softBreaks, escapeBytes_spec.
  rewrite (plain_removeSoftBreaks s Hs), (plain_expandEscapes s Hs).
  apply ascii_utf8. rewrite forallb_forall in *. intros c Hc.
  apply Hs in Hc. unfold plainAscii in Hc. now apply andb_prop in Hc.
Qed.

(** **** What a match tells *)

Section Inversion.
Variable ic : bool.
Context {R : Type}.
Implicit Types (k : nat -> jsstring -> captures -> option R) (a : R).

Lemma inv_seq (r1 r2 : regex) pos rest cs k a :
  matchRe ic (Seq r1 r2) pos rest cs k = Some a ->
  matchRe ic r1 pos rest cs (fun p s c => matchRe ic r2 p s c k) = Some a.
Proof. intros H. exact H. Qed.

Lemma inv_group (n : nat) (r : regex) pos rest cs k a :
  matchRe ic (Group n r) pos rest cs k = Some a ->
  matchRe ic r pos rest cs
          (fun p s c => k p s ((n, firstn (p - pos) rest) :: c)) = Some a.
Proof. intros H. exact H. Qed.

Lemma inv_one (r : regex) (P : Z -> bool) pos rest cs k a :
  readsOne ic r P ->
  matchRe ic r pos rest cs k = Some a ->
  exists c t, rest = c :: t /\ P c = true /\ k (S pos) t cs = Some a.
Proof.
  intros Hr H. rewrite Hr in H. destruct rest as [|c t]; [discriminate|].
  destruct (P c) eqn:Hc; [|discriminate]. now exists c, t.
Qed.

(** A match of a pattern without groups hands the captures on as they
    are. *)
Lemma matchRe_reaches (r : regex) :
  noGroups r = true ->
  forall pos rest cs k a,
    matchRe ic r pos rest cs k = Some a ->
    exists p s, k p s cs = Some a.
Proof.
  induction r as [|p|neg rs|r1 IH1 r2 IH2|r1 IH1 r2 IH2|r1 IH1
                  |n r1 IH1| |];
    intros Hg pos rest cs k a H; cbn [matchRe noGroups] in *.
  - now exists pos, rest.
  - destruct rest as [|c t]; [discriminate|].
    destruct (sameChar ic p c); [|discriminate]. now exists (S pos), t.
  - destruct rest as [|c t]; [discriminate|].
    destruct (xorb neg (inClass ic rs c)); [|discriminate].
    now exists (S pos), t.
  - apply andb_prop in Hg. destruct Hg as [G1 G2].
    apply (IH1 G1) in H. destruct H as (p & s & H).
    now apply (IH2 G2) in H.
  - apply andb_prop in Hg. destruct Hg as [G1 G2].
    destruct (matchRe ic r1 pos rest cs k) as [a'|] eqn:H1.
    + injection H as ->. now apply (IH1 G1) in H1.
    + now apply (IH2 G2) in H.
  - revert H. generalize (List.length rest). intros n. revert pos rest cs.
    induction n as [|n IHn]; intros pos rest cs H; [now exists pos, rest|].
    destruct (matchRe ic r1 pos rest cs _) as [a'|] eqn:H1.
    + injection H as ->. apply (IH1 Hg) in H1.
      destruct H1 as (p & s & H1).
      destruct (_ <? _)%nat; [|discriminate]. now apply IHn in H1.
    + now exists pos, rest.
  - discriminate.
  - destruct (Nat.eqb pos 0); [|discriminate]. now exists pos, rest.
  - destruct rest; [|discriminate]. now exists pos, (@nil Z).
Qed.

Lemma reaches_seq (r1 r2 : regex) pos rest cs k a :
  noGroups r1 = true ->
  matchRe ic (Seq r1 r2) pos rest cs k = Some a ->
  exists p s, matchRe ic r2 p s cs k = Some a.
Proof.
  intros Hg H. apply inv_seq in H.
  exact (matchRe_reaches r1 Hg _ _ _ _ _ H).
Qed.

(** A star over a one-unit pattern stops after some accepted units. *)
Lemma inv_star (r : regex) (P : Z -> bool) :
  readsOne ic r P ->
  forall rest pos cs k a,
    matchRe ic (Star r) pos rest cs k = Some a ->
    exists n,
      (n <= List.length rest)%nat
      /\ forallb P (firstn n rest) = true
      /\ k (pos + n)%nat (skipn n rest) cs = Some a.
Proof.
  intros Hr. induction rest as [|c t IH]; intros pos cs k a H.
  - rewrite star_nil in H. exists 0%nat. rewrite Nat.add_0_r. now repeat split.
  - rewrite (star_cons ic r P) in H by exact Hr.
    assert (H0 : k pos (c :: t) cs = Some a ->
                 exists n,
                   (n <= List.length (c :: t))%nat
                   /\ forallb P (firstn n (c :: t)) = true
                   /\ k (pos + n)%nat (skipn n (c :: t)) cs = Some a).
    { intros Hk. exists 0%nat. rewrite Nat.add_0_r.
      repeat split; [cbn; lia | exact Hk]. }
    destruct (P c) eqn:Hc; [|now apply H0].
    destruct (matchRe ic (Star r) (S pos) t cs k) as [a'|] eqn:Hs;
      [|now apply H0].
    injection H as ->. apply IH in Hs. destruct Hs as (n & Hn & Hp & Hk).
    exists (S n). cbn [firstn skipn forallb List.length]. rewrite Hc, Hp.
    repeat split; [lia|]. now rewrite Nat.add_succ_r.
Qed.

End Inversion.

(** **** The boundary parameter *)

Lemma boundary_class (c : Z) :
  xorb true (inClass true [one DQUOTE; one (ch ";")] c) = true ->
  boundaryUnit c = true.
Proof.
  unfold inClass, inRanges, one, boundaryUnit. cbn [existsb fst snd].
  rewrite !one_range, !orb_false_r.
  destruct ((c =? DQUOTE) || (c =? ch ";")); [discriminate | reflexivity].
Qed.

(** X18: a boundary found by extractBoundary is never empty and holds no
    double quote and no semicolon. *)
Theorem extractBoundary_nonempty (contentType boundary : jsstring) :
  extractBoundary contentType = Some boundary ->
  boundary <> [] /\ forallb boundaryUnit boundary = true.
Proof.
  unfold extractBoundary, exec.
  destruct (searchFrom BOUNDARY_RE 0 contentType) as [[[i j] m]|] eqn:Hs;
    [|discriminate].
  intros H. injection H as <-.
  apply searchFrom_spec in Hs. destruct Hs as (_ & _ & Hm).
  unfold matchAt, BOUNDARY_RE, rei in Hm. cbn [pattern flag_i seqs] in Hm.
  apply reaches_seq in Hm; [|reflexivity]. destruct Hm as (p1 & s1 & Hm).
  apply reaches_seq in Hm; [|reflexivity]. destruct Hm as (p2 & s2 & Hm).
  apply reaches_seq in Hm; [|reflexivity]. destruct Hm as (p3 & s3 & Hm).
  apply reaches_seq in Hm; [|reflexivity]. destruct Hm as (p4 & s4 & Hm).
  apply reaches_seq in Hm; [|reflexivity]. destruct Hm as (p5 & s5 & Hm).
  apply inv_seq, inv_group in Hm. unfold Plus in Hm. apply inv_seq in Hm.
  apply (inv_one true _ _ _ _ _ _ _ (readsOne_Class true true _)) in Hm.
  destruct Hm as (c & t & -> & Hc & Hm).
  apply (inv_star true _ _ (readsOne_Class true true _)) in Hm.
  destruct Hm as (n & Hn & Hp & Hm).
  apply matchRe_reaches in Hm; [|reflexivity]. destruct Hm as (p6 & s6 & Hm).
  assert (Hg : m = [(1%nat, firstn (S n) (c :: t))]).
  { replace (S n) with (S p5 + n - p5)%nat by lia. cbv beta in Hm.
    injection Hm as _ <-. reflexivity. }
  subst m. unfold group. cbn [capture Nat.eqb firstn].
  split; [discriminate|].
  cbn [forallb]. rewrite (boundary_class c Hc). cbn [andb].
  rewrite forallb_forall in *. intros x Hx. apply boundary_class.
  exact (Hp x Hx).
Qed.

(** **** What the parts cannot change, and how many attachments there are *)

Lemma applyLeaf_envelope (l : Leaf) (r r' : ParsedEmail) :
  applyLeaf l r = inr r' -> envelope r' = envelope r.
Proof.
  unfold applyLeaf, parseLeaf.
  destruct (streq _ _); [destruct (negb _); intros H; now injection H as <-|].
  destruct (streq _ _); [destruct (negb _); intros H; now injection H as <-|].
  destruct (getFilename _) as [e|fn]; [discriminate|]. cbn [bind].
  destruct (isAttachment _ _ _); intros H; now injection H as <-.
Qed.

(** X19: the parts of a message never change its sender, recipients,
    subject, date or message id: these are read from the first header block
    alone. *)
Theorem parts_leave_envelope (content h b : jsstring) (r : ParsedEmail) :
  headerAndBody content = Some (h, b) ->
  parseEml content = inr r ->
  envelope r = envelope (headerFields (parseHeaders h)).
Proof.
  intros Hb Hr. destruct (isMultipart content) eqn:Hm.
  - rewrite (parseEml_walk _ _ _ Hb Hm) in Hr.
    apply (foldM_invariant
             (fun s => envelope s = envelope (headerFields (parseHeaders h)))
             applyLeaf (walk content)
             (fun a s s' _ Hs Ha =>
                eq_trans (applyLeaf_envelope a s s' Ha) Hs)
             _ _ eq_refl Hr).
  - unfold isMultipart in Hm. rewrite Hb in Hm.
    unfold parseEml in Hr. rewrite Hb in Hr. cbn zeta in Hr.
    rewrite Hm in Hr.
    destruct (streq _ _); [now injection Hr as <-|].
    destruct (streq _ _); now injection Hr as <-.
Qed.

Lemma applyLeaf_count (l : Leaf) (r r' : ParsedEmail) :
  applyLeaf l r = inr r' ->
  (List.length (attachments r')
   <= List.length (attachments r) + List.length (filter notText [l]))%nat.
Proof.
  unfold applyLeaf, parseLeaf, notText. cbn [filter].
  destruct (streq (leafType l) (str "text/plain")).
  { destruct (negb _); intros H; injection H as <-; cbn; lia. }
  destruct (streq (leafType l) (str "text/html")).
  { destruct (negb _); intros H; injection H as <-; cbn; lia. }
  destruct (getFilename _) as [e|fn]; [discriminate|]. cbn [bind].
  destruct (isAttachment _ _ _); intros H; injection H as <-;
    cbn [attachments push_attachment negb andb List.length];
    rewrite ?length_app; cbn [List.length]; lia.
Qed.

Lemma foldM_applyLeaf_count (ls : list Leaf) :
  forall r r',
    foldM applyLeaf ls r = inr r' ->
    (List.length (attachments r')
     <= List.length (attachments r) + List.length (filter notText ls))%nat.
Proof.
  induction ls as [|l ls IH]; intros r r' H; cbn [foldM] in H.
  - injection H as <-. cbn. lia.
  - destruct (applyLeaf l r) as [e|r1] eqn:Hl; [discriminate|].
    cbn [bind] in H. apply IH in H. apply applyLeaf_count in Hl.
    cbn [filter] in *. destruct (notText l); cbn [List.length] in *; lia.
Qed.

(** X20: a message has at most as many attachments as its walk has leaves
    that are neither text/plain nor text/html; a message that is not
    multipart has none. *)
Theorem attachments_bounded (content : jsstring) (r : ParsedEmail) :
  parseEml content = inr r ->
  (List.length (attachments r)
   <= List.length (filter notText (walk content)))%nat
  /\ (isMultipart content = false -> attachments r = []).
Proof.
  intros Hr.
  assert (Hsingle : isMultipart content = false -> attachments r = []).
  { intros Hm. unfold isMultipart in Hm. unfold parseEml in Hr.
    destruct (headerAndBody content) as [[h b]|]; [|now injection Hr as <-].
    cbn zeta in Hr. rewrite Hm in Hr.
    destruct (streq _ _); [now injection Hr as <-|].
    destruct (streq _ _); now injection Hr as <-. }
  split; [|exact Hsingle].
  destruct (isMultipart content) eqn:Hm.
  - destruct (headerAndBody content) as [[h b]|] eqn:Hb.
    2:{ unfold isMultipart in Hm. rewrite Hb in Hm. discriminate. }
    rewrite (parseEml_walk _ _ _ Hb Hm) in Hr.
    apply foldM_applyLeaf_count in Hr. cbn [attachments headerFields] in Hr.
    exact Hr.
  - rewrite (Hsingle eq_refl). cbn. lia.
Qed.

(** **** Messages without a blank line *)

Lemma blankLine_starts (pos : nat) (s : jsstring) :
  startsWith s [LF; LF] = false ->
  startsWith s [LF; CR; LF] = false ->
  startsWith (tl s) [LF; LF] = false ->
  startsWith (tl s) [LF; CR; LF] = false ->
  matchAt BLANK_LINE_RE pos s = None.
Proof.
  unfold matchAt, BLANK_LINE_RE, re, Opt.
  cbn [pattern flag_i seqs matchRe sameChar].
  destruct s as [|a [|b [|x [|y t]]]]; cbn -[Z.eqb];
    rewrite ?(Z.eqb_sym CR), ?(Z.eqb_sym LF); eqb_cases;
    cbn; intros; try congruence;
    repeat match goal with
           | H : (_ =? _) = true |- _ => apply Z.eqb_eq in H
           end;
    subst; try discriminate;
    match goal with
    | H : startsWith _ [] = false |- _ =>
        rewrite startsWith_nil in H; discriminate
    end.
Qed.

Lemma includes_tail (s n : jsstring) :
  includes s n = false -> includes (tl s) n = false.
Proof.
  destruct s as [|c t]; [intros H; exact H|]. cbn [includes tl].
  intros H. now apply orb_false_elim in H.
Qed.

Lemma includes_head (s n : jsstring) :
  includes s n = false -> startsWith s n = false.
Proof.
  destruct s as [|c t]; cbn [includes]; intros H;
    now apply orb_false_elim in H.
Qed.

Lemma search_blank_line (s : jsstring) :
  includes s [LF; LF] = false ->
  includes s [LF; CR; LF] = false ->
  forall pos, searchFrom BLANK_LINE_RE pos s = None.
Proof.
  induction s as [|c t IH]; intros H1 H2 pos; cbn [searchFrom].
  - now rewrite blankLine_starts.
  - rewrite blankLine_starts;
      [ apply IH; [exact (includes_tail _ _ H1) | exact (includes_tail _ _ H2)]
      | now apply includes_head | now apply includes_head
      | apply includes_head; exact (includes_tail _ _ H1)
      | apply includes_head; exact (includes_tail _ _ H2) ].
Qed.

(** X1: a message in which no line feed is followed by a line feed or by a
    carriage return and a line feed has no blank line: parseEml returns the
    all-default structure, and no exception. *)
Theorem parseEml_without_separator (content : jsstring) :
  includes content [LF; LF] = false ->
  includes content [LF; CR; LF] = false ->
  parseEml content = inr emptyEmail.
Proof.
  intros H1 H2. unfold parseEml, headerAndBody, search.
  now rewrite (search_blank_line content H1 H2).
Qed.

(** **** Dates *)

Lemma digitsFuel_numeric (fuel : nat) :
  forall n acc,
    forallb numeric acc = true ->
    forallb numeric (digitsFuel fuel n acc) = true.
Proof.
  induction fuel as [|f IH]; intros n acc Ha; [exact Ha|].
  cbn [digitsFuel].
  assert (Hd : forallb numeric ((48 + Z.of_nat (n mod 10)) :: acc) = true).
  { cbn [forallb]. rewrite Ha, andb_true_r. unfold numeric.
    pose proof (Nat.mod_upper_bound n 10). lia. }
  destruct (n <? 10)%nat; [exact Hd | now apply IH].
Qed.

Lemma intToString_numeric (n : Z) : forallb numeric (intToString n) = true.
Proof.
  unfold intToString, numberToString.
  destruct (n <? 0); [cbn [forallb]; rewrite andb_true_l|];
    now apply digitsFuel_numeric.
Qed.

Lemma pad_numeric {C : Clock} (n : Z) : forallb numeric (pad n) = true.
Proof.
  unfold pad, padStart2. rewrite forallb_app, intToString_numeric, andb_true_r.
  destruct (2 - List.length (intToString n))%nat as [|[|[|k]]];
    cbn [repeat forallb]; try reflexivity.
  apply forallb_forall. intros x Hx. apply repeat_spec in Hx. now subst.
Qed.

(** The first occurrence of a pattern lies after a text in which its first
    unit does not occur. *)
Lemma replaceText_after (pre : jsstring) (p : Z) (pat rep post : jsstring) :
  forallb (fun c => negb (c =? p)) pre = true ->
  replaceText (pre ++ p :: pat ++ post) (p :: pat) rep = pre ++ rep ++ post.
Proof.
  induction pre as [|c t IH]; intros H.
  - cbn [app].
    assert (Hs : startsWith (p :: pat ++ post) (p :: pat) = true).
    { cbn [startsWith]. rewrite Z.eqb_refl. cbn [andb].
      clear. induction pat as [|x pat IH]; [apply startsWith_nil|].
      cbn [app startsWith]. now rewrite Z.eqb_refl. }
    destruct pat as [|x pat']; cbn [replaceText app]; cbn [app] in Hs;
      rewrite Hs; cbn [List.length skipn].
    + reflexivity.
    + f_equal. change (skipn (List.length pat') (pat' ++ post) = post).
      now rewrite skipn_app, skipn_all, Nat.sub_diag.
  - cbn [forallb] in H. apply andb_prop in H. destruct H as [Hc Ht].
    cbn [app replaceText startsWith].
    destruct (c =? p); [discriminate|]. cbn [andb].
    now rewrite (IH Ht).
Qed.

Lemma replaceText_absent (s : jsstring) (p : Z) (pat rep : jsstring) :
  forallb (fun c => negb (c =? p)) s = true ->
  replaceText s (p :: pat) rep = s.
Proof.
  induction s as [|c t IH]; intros H; [reflexivity|].
  cbn [forallb] in H. apply andb_prop in H. destruct H as [Hc Ht].
  cbn [replaceText startsWith]. destruct (c =? p); [discriminate|].
  cbn [andb]. now rewrite (IH Ht).
Qed.

(** A text made of numbers and of the separators of the default format
    holds none of the letters of the placeholders. *)
Lemma numeric_not_letter (s : jsstring) (p : Z) :
  forallb (fun c => numeric c || (c =? ch " ") || (c =? ch ":")) s = true ->
  64 < p ->
  forallb (fun c => negb (c =? p)) s = true.
Proof.
  intros H Hp. rewrite forallb_forall in *. intros c Hc. apply H in Hc.
  unfold numeric in Hc. change (ch "-") with 45 in Hc.
  change (ch " ") with 32 in Hc. change (ch ":") with 58 in Hc. lia.
Qed.

Lemma numeric_separated (s : jsstring) :
  forallb numeric s = true ->
  forallb (fun c => numeric c || (c =? ch " ") || (c =? ch ":")) s = true.
Proof.
  intros H. rewrite forallb_forall in *. intros c Hc. now rewrite (H c Hc).
Qed.

(** X21: with the default format a valid date is written as year, month,
    day, hours and minutes, the last four padded to two digits; the
    placeholder of the seconds does not occur. *)
Theorem formatDate_default {C : Clock} (d : Date) (t : Z) :
  getTime d = Some t ->
  formatDate DEFAULT_dateFormat (Some d)
  = intToString (getFullYear d) ++ str "-" ++ pad (getMonth d + 1)
    ++ str "-" ++ pad (getDate d) ++ str " " ++ pad (getHours d)
    ++ str ":" ++ pad (getMinutes d).
Proof.
  intros Ht. unfold formatDate. rewrite Ht.
  set (Y := intToString (getFullYear d)).
  set (Mo := pad (getMonth d + 1)). set (D := pad (getDate d)).
  set (H := pad (getHours d)). set (Mi := pad (getMinutes d)).
  assert (HY : forallb numeric Y = true) by apply intToString_numeric.
  assert (HMo : forallb numeric Mo = true) by apply pad_numeric.
  assert (HD : forallb numeric D = true) by apply pad_numeric.
  assert (HH : forallb numeric H = true) by apply pad_numeric.
  assert (HMi : forallb numeric Mi = true) by apply pad_numeric.
  assert (Hsep : forall x y,
             forallb (fun c => numeric c || (c =? ch " ") || (c =? ch ":")) x
             = true ->
             forallb (fun c => numeric c || (c =? ch " ") || (c =? ch ":")) y
             = true ->
             forallb (fun c => numeric c || (c =? ch " ") || (c =? ch ":"))
                     (x ++ y) = true).
  { intros x y Hx Hy. now rewrite forallb_app, Hx, Hy. }
  apply numeric_separated in HY, HMo, HD, HH, HMi.
  clearbody Y Mo D H Mi.
  assert (Hpre : forall x p,
             forallb (fun c => numeric c || (c =? ch " ") || (c =? ch ":")) x
             = true ->
             (64 <? p) = true ->
             forallb (fun c => negb (c =? p)) x = true).
  { intros x p Hx Hp. apply numeric_not_letter; [exact Hx | lia]. }
  unfold DEFAULT_dateFormat.
  change (str "YYYY-MM-DD HH:mm")
    with ([] ++ ch "Y" :: str "YYY" ++ str "-MM-DD HH:mm").
  rewrite (replaceText_after [] (ch "Y") (str "YYY")) by reflexivity.
  change (str "-MM-DD HH:mm")
    with (str "-" ++ ch "M" :: str "M" ++ str "-DD HH:mm").
  rewrite !app_assoc.
  rewrite (replaceText_after _ (ch "M") (str "M"))
    by (apply Hpre; [repeat apply Hsep; first [assumption | reflexivity] | reflexivity]).
  change (str "-DD HH:mm") with (str "-" ++ ch "D" :: str "D" ++ str " HH:mm").
  rewrite !app_assoc.
  rewrite (replaceText_after _ (ch "D") (str "D"))
    by (apply Hpre; [repeat apply Hsep; first [assumption | reflexivity] | reflexivity]).
  change (str " HH:mm") with (str " " ++ ch "H" :: str "H" ++ str ":mm").
  rewrite !app_assoc.
  rewrite (replaceText_after _ (ch "H") (str "H"))
    by (apply Hpre; [repeat apply Hsep; first [assumption | reflexivity] | reflexivity]).
  change (str ":mm") with (str ":" ++ ch "m" :: str "m" ++ []).
  rewrite !app_assoc.
  rewrite (replaceText_after _ (ch "m") (str "m"))
    by (apply Hpre; [repeat apply Hsep; first [assumption | reflexivity] | reflexivity]).
  rewrite (replaceText_absent _ (ch "s") (str "s"))
    by (apply Hpre; [repeat apply Hsep; first [assumption | reflexivity] | reflexivity]).
  rewrite !app_nil_r, <- !app_assoc. reflexivity.
Qed.

(** **** Saved attachments and their list *)

Lemma Links_set_In (k v : jsstring) (m : Links) (entry : jsstring * jsstring) :
  In entry (Links_set k v m) -> entry = (k, v) \/ In entry m.
Proof.
  induction m as [|[k' v'] m IH]; cbn [Links_set In].
  - intros [H|[]]; now left.
  - destruct (streq k' k); cbn [In].
    + intros [H|H]; [now left | now right; right].
    + intros [H|H]; [now right; left|].
      destruct (IH H) as [H1|H1]; [now left | now right; right].
Qed.

Section Saving.
Context {Vault : Type} {V : VaultApi Vault}.

Lemma storeLink_In (baseName : jsstring) (a : Attachment) (m : Links)
      (entry : jsstring * jsstring) :
  In entry
     (storeLink a (baseName ++ str "_" ++ sanitizeFilename (filename a)) m) ->
  linkOf baseName a entry \/ In entry m.
Proof.
  unfold storeLink, linkOf.
  destruct (contentId a) as [cid|] eqn:Hc.
  - destruct (truthy cid).
    + intros H. apply Links_set_In in H. destruct H as [->|H].
      * left. split; [reflexivity|]. right. now exists cid.
      * apply Links_set_In in H. destruct H as [->|H]; [|now right].
        left. split; [reflexivity | now left].
    + intros H. apply Links_set_In in H. destruct H as [->|H]; [|now right].
      left. split; [reflexivity | now left].
  - intros H. apply Links_set_In in H. destruct H as [->|H]; [|now right].
    left. split; [reflexivity | now left].
Qed.

Lemma saveAttachment_In (baseName folder : jsstring) (a : Attachment)
      (m : Links) (v : Vault) (entry : jsstring * jsstring) :
  In entry (fst (saveAttachment baseName folder (m, v) a)) ->
  (Z.of_nat (List.length (content a)) <= MAX_ATTACHMENT_SIZE
   /\ linkOf baseName a entry)
  \/ In entry m.
Proof.
  unfold saveAttachment.
  destruct (_ >? _) eqn:Hsize; [now right|].
  assert (Hle : Z.of_nat (List.length (content a)) <= MAX_ATTACHMENT_SIZE)
    by lia.
  destruct (getAbstractFileByPath v _); cbn [fst].
  - intros H. apply storeLink_In in H. destruct H; [left | right]; auto.
  - destruct (createBinary v _ _) as [v' [|]]; cbn [fst]; [|now right].
    intros H. apply storeLink_In in H. destruct H; [left | right]; auto.
Qed.

Lemma saveAttachment_fold_In (baseName folder : jsstring)
      (l : list Attachment) :
  forall (st : Links * Vault) (entry : jsstring * jsstring),
    In entry (fst (fold_left (saveAttachment baseName folder) l st)) ->
    (exists a,
        In a l
        /\ Z.of_nat (List.length (content a)) <= MAX_ATTACHMENT_SIZE
        /\ linkOf baseName a entry)
    \/ In entry (fst st).
Proof.
  induction l as [|a l IH]; intros st entry H; [now right|].
  cbn [fold_left] in H. apply IH in H. destruct H as [(b & Hb & H)|H].
  - left. exists b. split; [now right | exact H].
  - destruct st as [m v]. apply saveAttachment_In in H.
    destruct H as [H|H]; [|now right].
    left. exists a. split; [now left | exact H].
Qed.

(** X22: every entry of the map returned by saveAttachments stands for an
    attachment of the message that is within the size limit: its value is
    the base name, an underscore and the sanitized file name, whatever the
    vault answers. *)
Theorem saveAttachments_links (email : ParsedEmail)
        (baseName folder : jsstring) (v v' : Vault) (links : Links)
        (entry : jsstring * jsstring) :
  saveAttachments email baseName folder v = inr (links, v') ->
  In entry links ->
  exists a,
    In a (attachments email)
    /\ Z.of_nat (List.length (content a)) <= MAX_ATTACHMENT_SIZE
    /\ linkOf baseName a entry.
Proof.
  unfold saveAttachments. intros H Hin.
  destruct (Nat.eqb _ 0).
  { injection H as <- _. destruct Hin. }
  destruct (ensureFolderExists v folder) as [e|v1]; [discriminate|].
  injection H as H.
  assert (Hl : links = fst (fold_left (saveAttachment baseName folder)
                                      (attachments email) ([], v1)))
    by now rewrite H.
  rewrite Hl in Hin. apply saveAttachment_fold_In in Hin.
  destruct Hin as [Hin|[]]. exact Hin.
Qed.

Lemma listed_set (k v : jsstring) (m : Links) :
  (List.length (listed (Links_set k v m))
   <= List.length (listed m)
      + (if startsWith k (str "cid:") then 0 else 1))%nat.
Proof.
  unfold listed. induction m as [|[k' v'] m IH]; cbn [Links_set filter fst].
  - destruct (startsWith k (str "cid:")); cbn; lia.
  - destruct (streq k' k) eqn:Hk.
    + apply streq_eq in Hk. subst k'. cbn [filter fst].
      destruct (startsWith k (str "cid:")); cbn [negb List.length]; lia.
    + cbn [filter fst].
      destruct (startsWith k' (str "cid:")); cbn [negb List.length]; lia.
Qed.

Lemma listed_storeLink (a : Attachment) (name : jsstring) (m : Links) :
  (List.length (listed (storeLink a name m)) <= S (List.length (listed m)))%nat.
Proof.
  unfold storeLink.
  pose proof (listed_set (filename a) name m) as H1.
  assert (H1' : (List.length (listed (Links_set (filename a) name m))
                 <= S (List.length (listed m)))%nat).
  { destruct (startsWith (filename a) (str "cid:")); lia. }
  destruct (contentId a) as [cid|]; [|exact H1'].
  destruct (truthy cid); [|exact H1'].
  pose proof (listed_set (str "cid:" ++ cid) name
                         (Links_set (filename a) name m)) as H2.
  assert (Hc : startsWith (str "cid:" ++ cid) (str "cid:") = true)
    by (cbn; apply startsWith_nil).
  rewrite Hc in H2. lia.
Qed.

Lemma listed_fold (baseName folder : jsstring) (l : list Attachment) :
  forall st : Links * Vault,
    (List.length (listed (fst (fold_left (saveAttachment baseName folder)
                                         l st)))
     <= List.length (listed (fst st)) + List.length l)%nat.
Proof.
  induction l as [|a l IH]; intros st; [cbn; lia|].
  cbn [fold_left List.length]. etransitivity; [apply IH|].
  destruct st as [m v]. unfold saveAttachment.
  destruct (_ >? _); [cbn [fst]; lia|].
  destruct (getAbstractFileByPath v _); cbn [fst].
  - pose proof (listed_storeLink
                  a (baseName ++ str "_" ++ sanitizeFilename (filename a)) m).
    lia.
  - destruct (createBinary v _ _) as [v' [|]]; cbn [fst]; [|lia].
    pose proof (listed_storeLink
                  a (baseName ++ str "_" ++ sanitizeFilename (filename a)) m).
    lia.
Qed.

(** X23: the list written for the saved attachments has at most one line
    for each attachment of the message, beside its heading and its two
    empty lines, although an attachment may be stored under two keys. *)
Theorem attachment_list_is_bounded (email : ParsedEmail)
        (baseName folder : jsstring) (v v' : Vault) (links : Links) :
  saveAttachments email baseName folder v = inr (links, v') ->
  (List.length (generateAttachmentList links)
   <= 3 + List.length (attachments email))%nat.
Proof.
  unfold saveAttachments. intros H.
  destruct (Nat.eqb _ 0).
  { injection H as <- _. cbn. lia. }
  destruct (ensureFolderExists v folder) as [e|v1]; [discriminate|].
  injection H as H.
  assert (Hl : links = fst (fold_left (saveAttachment baseName folder)
                                      (attachments email) ([], v1)))
    by now rewrite H.
  pose proof (listed_fold baseName folder (attachments email) ([], v1)) as Hb.
  rewrite <- Hl in Hb. cbn [fst listed filter List.length] in Hb.
  unfold generateAttachmentList.
  destruct (Nat.eqb (List.length links) 0); [cbn; lia|].
  rewrite !length_app. cbn [List.length].
  assert (Hf : forall m : Links,
             List.length
               (flat_map
                  (fun entry =>
                     if startsWith (fst entry) (str "cid:") then []
                     else [attachmentLine (snd entry)]) m)
             = List.length (listed m)).
  { unfold listed. induction m as [|x m IHm]; [reflexivity|].
    cbn [flat_map filter]. rewrite length_app, IHm.
    destruct (startsWith (fst x) (str "cid:")); reflexivity. }
  rewrite Hf. lia.
Qed.

End Saving.

Lemma splitOnGo_last (ext : jsstring) :
  forallb (fun c => negb (c =? ch ".")) ext = true ->
  forall cur, splitOnGo (ch ".") cur ext = [rev cur ++ ext].
Proof.
  induction ext as [|c t IH]; intros H cur.
  - cbn [splitOnGo]. now rewrite app_nil_r.
  - cbn [forallb] in H. apply andb_prop in H. destruct H as [Hc Ht].
    cbn [splitOnGo]. destruct (c =? ch "."); [discriminate|].
    rewrite (IH Ht). cbn [rev]. now rewrite <- app_assoc.
Qed.

Lemma splitOnGo_pop (ext : jsstring) :
  forallb (fun c => negb (c =? ch ".")) ext = true ->
  forall stem cur,
    let pieces := splitOnGo (ch ".") cur (stem ++ ch "." :: ext) in
    nth_error pieces (List.length pieces - 1) = Some ext.
Proof.
  intros He. induction stem as [|c t IH]; intros cur.
  - cbn [app splitOnGo]. rewrite Z.eqb_refl.
    rewrite (splitOnGo_last ext He []). reflexivity.
  - cbn [app splitOnGo]. cbv zeta in *.
    destruct (c =? ch ".").
    + specialize (IH []).
      destruct (splitOnGo (ch ".") [] (t ++ ch "." :: ext)) as [|p ps] eqn:Hp;
        [discriminate|].
      rewrite Nat.sub_1_r in *.
      cbn [List.length Nat.pred nth_error] in *.
      exact IH.
    + apply IH.
Qed.

(** X24: a link name is embedded as an image exactly when the text after
    its last dot, in lower case, is one of the seven image extensions; the
    case of the extension does not matter. *)
Theorem attachmentLine_by_extension (stem ext : jsstring) :
  forallb isAscii ext = true ->
  forallb (fun c => negb (c =? ch ".")) ext = true ->
  attachmentLine (stem ++ ch "." :: ext)
  = if existsb (fun e => streq e (map lowerUnit ext)) imageExtensions
    then str "- ![[" ++ (stem ++ ch "." :: ext) ++ str "]]"
    else str "- [[" ++ (stem ++ ch "." :: ext) ++ str "]]".
Proof.
  intros Ha Hd. unfold attachmentLine, splitOn.
  rewrite (splitOnGo_pop ext Hd stem []). cbn [option_map].
  rewrite (toLowerCase_ascii ext Ha).
  assert (Ho : forall s, existsb (fun e => streq e (orElse (Some s) []))
                                 imageExtensions
                         = existsb (fun e => streq e s) imageExtensions).
  { intros s. destruct s as [|c t]; reflexivity. }
  now rewrite Ho.
Qed.

(** **** Folders *)

(** The parts of a path, put together again by the loop. *)
Lemma extendPath_split (s : jsstring) :
  forall (cur a : jsstring),
    (truthy a = false -> startsWith (rev cur ++ s) (str "/") = false) ->
    fold_left extendPath (splitOnGo (ch "/") cur s) a
    = if truthy a then a ++ str "/" ++ rev cur ++ s else rev cur ++ s.
Proof.
  induction s as [|x t IH]; intros cur a Ha.
  - cbn [splitOnGo fold_left]. unfold extendPath. now rewrite app_nil_r.
  - cbn [splitOnGo]. destruct (x =? ch "/") eqn:Hx.
    + apply Z.eqb_eq in Hx. subst x. cbn [fold_left].
      assert (Ht : truthy (extendPath a (rev cur)) = true).
      { unfold extendPath. destruct a as [|a0 a']; [|reflexivity].
        cbn [truthy]. specialize (Ha eq_refl).
        destruct (rev cur) as [|c0 c']; [|reflexivity].
        cbn [app str list_ascii_of_string map startsWith] in Ha.
        rewrite Z.eqb_refl, startsWith_nil in Ha. discriminate. }
      rewrite IH by (rewrite Ht; discriminate). rewrite Ht.
      unfold extendPath. cbn [rev app].
      destruct (truthy a); now rewrite <- ?app_assoc.
    + rewrite IH.
      * cbn [rev]. now rewrite <- !app_assoc.
      * intros Hf. cbn [rev]. rewrite <- app_assoc. now apply Ha.
Qed.

Section Folders.
Context {Vault : Type} {V : VaultApi Vault}.

(** The vault keeps what it says it has created. *)
Hypothesis created_is_found :
  forall (v v' : Vault) (p : jsstring),
    createFolder v p = (v', true) -> getAbstractFileByPath v' p = true.

Lemma createFolders_last (parts : list jsstring) :
  forall (cur : jsstring) (v v' : Vault),
    parts <> [] ->
    createFolders parts cur v = inr v' ->
    getAbstractFileByPath v' (fold_left extendPath parts cur) = true.
Proof.
  induction parts as [|part rest IH]; intros cur v v' Hne H; [congruence|].
  cbn [createFolders fold_left] in *.
  change (if truthy cur then cur ++ str "/" ++ part else part)
    with (extendPath cur part) in H.
  set (p := extendPath cur part) in *.
  assert (Hend : forall w,
             getAbstractFileByPath w p = true ->
             createFolders rest p w = inr v' ->
             getAbstractFileByPath v' (fold_left extendPath rest p) = true).
  { intros w Hw Hr. destruct rest as [|r rest'].
    - cbn [createFolders fold_left] in *. injection Hr as <-. exact Hw.
    - apply (IH p w v'); [discriminate | exact Hr]. }
  destruct (getAbstractFileByPath v p) eqn:Hp; [now apply (Hend v)|].
  destruct (createFolder v p) as [w [|]] eqn:Hc.
  - apply (Hend w); [exact (created_is_found _ _ _ Hc) | exact H].
  - destruct (getAbstractFileByPath w p) eqn:Hw; [|discriminate].
    now apply (Hend w).
Qed.

Lemma splitOnGo_nonempty (sep : Z) (s cur : jsstring) :
  splitOnGo sep cur s <> [].
Proof.
  revert cur. induction s as [|c t IH]; intros cur; cbn [splitOnGo];
    [discriminate|].
  destruct (c =? sep); [discriminate | apply IH].
Qed.

(** X25: in a vault that keeps the folders it creates, a call of
    ensureFolderExists that returns leaves the folder in the vault, provided
    the normalized path does not begin with a slash. *)
Theorem ensureFolderExists_creates (v v' : Vault) (folderPath : jsstring) :
  truthy folderPath = true ->
  startsWith (normalizePath folderPath) (str "/") = false ->
  ensureFolderExists v folderPath = inr v' ->
  getAbstractFileByPath v' (normalizePath folderPath) = true.
Proof.
  intros Ht Hs. unfold ensureFolderExists. rewrite Ht. cbn [negb].
  destruct (getAbstractFileByPath v (normalizePath folderPath)) eqn:Hf.
  { intros H. injection H as <-. exact Hf. }
  intros H. apply createFolders_last in H; [|apply splitOnGo_nonempty].
  unfold splitOn in H. rewrite extendPath_split in H; [exact H|].
  intros _. exact Hs.
Qed.

End Folders.

(** **** The pattern of a boundary *)

Lemma lit_match (ic : bool) (s : jsstring) {R : Type} :
  forall pos rest cs (k : nat -> jsstring -> captures -> option R),
    ic = false ->
    matchRe ic (Lit s) pos rest cs k
    = if startsWith rest s
      then k (pos + List.length s)%nat (skipn (List.length s) rest) cs
      else None.
Proof.
  induction s as [|c s IH]; intros pos rest cs k Hic.
  - cbn [Lit fold_right matchRe List.length skipn].
    now rewrite startsWith_nil, Nat.add_0_r.
  - subst ic. cbn [Lit fold_right matchRe sameChar].
    destruct rest as [|x t]; [reflexivity|].
    cbn [startsWith List.length skipn]. rewrite (Z.eqb_sym c x).
    destruct (x =? c); cbn [andb]; [|reflexivity].
    change (fold_right (fun c r => Seq (Char c) r) Empty s) with (Lit s).
    rewrite IH by reflexivity. now rewrite Nat.add_succ_r.
Qed.

(** X26: escapeRegex makes a text match literally: the escaped boundary
    reads as the boundary, unit by unit, and the pattern built from it
    matches exactly where the input goes on with two dashes and the
    boundary, taking two more dashes when they follow. *)
Theorem boundary_matches_literally (boundary : jsstring) :
  compileLiteral (escapeRegex boundary) = Some (Lit boundary)
  /\ forall pos rest,
       matchAt (boundaryRegExp boundary) pos rest
       = if startsWith rest (str "--" ++ boundary)
         then
           let n := (2 + List.length boundary)%nat in
           if startsWith (skipn n rest) (str "--")
           then Some ((pos + n + 2)%nat, [])
           else Some ((pos + n)%nat, [])
         else None.
Proof.
  split; [apply escapeRegex_literal|].
  intros pos rest. unfold matchAt, boundaryRegExp, re, Opt.
  cbn [pattern flag_i seqs].
  change (matchRe false (Seq (Lit (str "--"))
                             (Seq (Lit boundary) (Alt (Lit (str "--")) Empty)))
                  pos rest [] (fun p _ c => Some (p, c)))
    with (matchRe false (Lit (str "--")) pos rest []
            (fun p s c =>
               matchRe false (Lit boundary) p s c
                 (fun p s c =>
                    matchRe false (Alt (Lit (str "--")) Empty) p s c
                            (fun p _ c => Some (p, c))))).
  rewrite lit_match by reflexivity.
  destruct rest as [|a [|b t]]; try reflexivity.
  { cbn [app str list_ascii_of_string map startsWith].
    destruct (a =? ch "-"); reflexivity. }
  cbn [app str list_ascii_of_string map startsWith].
  destruct (a =? ch "-"); [|reflexivity].
  destruct (b =? ch "-"); [|reflexivity]. cbn [andb List.length skipn].
  rewrite startsWith_nil. rewrite lit_match by reflexivity.
  destruct (startsWith t boundary); [|reflexivity].
  cbn [matchRe]. rewrite lit_match by reflexivity.
  cbv zeta. cbn [List.length skipn Nat.add].
  destruct (startsWith (skipn (List.length boundary) t) _); f_equal; f_equal; lia.
Qed.

(** **** Text sent as base64, and parts without headers *)

Lemma ascii_bytes (s : jsstring) :
  forallb isAscii s = true -> forallb isByte s = true.
Proof.
  intros H. rewrite forallb_forall in *. intros c Hc. apply H in Hc.
  unfold isAscii in Hc. unfold isByte. lia.
Qed.

(** X27: base64 round trip on the text path: for ASCII text and every
    writing of it in base64, white space spread over it or not,
    decodeContent gives the text back. *)
Theorem base64_text_round_trip (text s : jsstring) :
  forallb isAscii text = true ->
  filter (fun c => negb (isWhiteSpace c)) s = base64Encode text ->
  decodeContent s (str "base64") = text.
Proof.
  intros Ha Hs.
  change (decodeContent s (str "base64")) with (decodeBase64 s).
  unfold decodeBase64, tryCatch, ret, replaceAll, Buffer_from_base64.
  rewrite strip_spaces_go, Hs.
  rewrite (base64_decode_encode (List.length text) text (Nat.le_refl _)
                                (ascii_bytes text Ha)).
  rewrite <- (Buffer_from_array_bytes text (ascii_bytes text Ha)) at 1.
  now apply ascii_utf8.
Qed.

(** X28: a part whose header block names neither a content type nor a
    transfer encoding is taken as text/plain in 7bit: its body, as it
    stands, becomes the text body unless one is already there. *)
Theorem part_without_type_is_plain_text
        (part h b : jsstring) (r : ParsedEmail) :
  headerAndBody part = Some (h, b) ->
  Map_get (str "content-type") (parseHeaders h) = None ->
  Map_get (str "content-transfer-encoding") (parseHeaders h) = None ->
  parseMimePart part r
  = inr (if truthy (textBody r) then r else set_textBody r b).
Proof.
  intros Hb Ht He. rewrite parseMimePart_step, Hb. cbn zeta.
  assert (Hct : getContentType (parseHeaders h) = str "text/plain").
  { unfold getContentType. rewrite Ht. cbn [orElse].
    rewrite toLowerCase_ascii by reflexivity. reflexivity. }
  assert (Hen : getEncoding (parseHeaders h) = str "7bit").
  { unfold getEncoding. rewrite He. cbn [orElse].
    rewrite toLowerCase_ascii by reflexivity. reflexivity. }
  rewrite Hct, Hen.
  change (startsWith (str "text/plain") (str "multipart/")) with false.
  cbv iota. unfold parseLeaf.
  change (streq (str "text/plain") (str "text/plain")) with true. cbv iota.
  change (decodeContent b (str "7bit")) with b.
  destruct (truthy (textBody r)); reflexivity.
Qed.

(** **** Encoded words *)

Lemma in_word_class (c : Z) :
  xorb true (inClass true [one (ch "?")] c) = notQuestion c.
Proof.
  unfold inClass, inRanges, one, notQuestion. cbn [existsb fst snd].
  rewrite !one_range, !orb_false_r. unfold upperUnit, lowerUnit.
  change (ch "?") with 63.
  destruct ((97 <=? c) && (c <=? 122)) eqn:E1;
    destruct ((65 <=? c) && (c <=? 90)) eqn:E2;
    destruct (c =? 63) eqn:E3; cbn [orb xorb negb]; try reflexivity;
    try lia;
    repeat match goal with
           | |- context [?a =? ?b] => replace (a =? b) with false by lia
           end;
    reflexivity.
Qed.

Lemma readsOne_word_class :
  readsOne true (Class true [one (ch "?")]) notQuestion.
Proof.
  intros R pos rest cs k. cbn [matchRe]. destruct rest as [|c t]; [reflexivity|].
  now rewrite in_word_class.
Qed.

(** The pattern of encoded words on an encoded word. *)
Lemma mimeWord_match (charset text post : jsstring) (encoding : Z)
      (pos : nat) :
  charset <> [] -> text <> [] ->
  forallb notQuestion charset = true ->
  forallb notQuestion text = true ->
  inClass true [one (ch "B"); one (ch "Q")] encoding = true ->
  matchAt MIME_WORD_RE pos (encodedWord charset encoding text ++ post)
  = Some ((pos + List.length (encodedWord charset encoding text))%nat,
          [ (3%nat, text); (2%nat, [encoding]); (1%nat, charset) ]).
Proof.
  intros Hc Ht Hpc Hpt He.
  destruct charset as [|c0 cs]; [congruence|].
  destruct text as [|t0 ts]; [congruence|].
  assert (Hc0 : notQuestion c0 = true)
    by (cbn [forallb] in Hpc; now apply andb_prop in Hpc).
  assert (Hcs : forallb notQuestion cs = true)
    by (cbn [forallb] in Hpc; now apply andb_prop in Hpc).
  assert (Ht0 : notQuestion t0 = true)
    by (cbn [forallb] in Hpt; now apply andb_prop in Hpt).
  assert (Hts : forallb notQuestion ts = true)
    by (cbn [forallb] in Hpt; now apply andb_prop in Hpt).
  unfold encodedWord.
  replace ((str "=?" ++ (c0 :: cs) ++ str "?" ++ [encoding] ++ str "?"
                  ++ (t0 :: ts) ++ str "?=") ++ post)
    with (ch "=" :: ch "?" :: c0
           :: cs ++ ch "?" :: encoding :: ch "?" :: t0
           :: ts ++ ch "?" :: ch "=" :: post).
  2:{ cbn [str list_ascii_of_string map app].
      rewrite <- !app_assoc. cbn [app]. rewrite <- !app_assoc. reflexivity. }
  unfold matchAt, MIME_WORD_RE, rei. cbn [pattern flag_i seqs].
  apply step_seq.
  apply (step_one true (Char (ch "=")) (sameChar true (ch "=")));
    [apply readsOne_Char | reflexivity |].
  cbv beta. apply step_seq.
  apply (step_one true (Char (ch "?")) (sameChar true (ch "?")));
    [apply readsOne_Char | reflexivity |].
  cbv beta. apply step_seq, step_group. unfold Plus. apply step_seq.
  apply (step_one true _ _ _ _ _ _ _ _ readsOne_word_class Hc0).
  cbv beta.
  apply (step_star true _ _ cs readsOne_word_class Hcs); [reflexivity|].
  cbv beta. apply step_seq.
  apply (step_one true (Char (ch "?")) (sameChar true (ch "?")));
    [apply readsOne_Char | reflexivity |].
  cbv beta. apply step_seq, step_group.
  apply (step_one true _ _ _ _ _ _ _ _
                  (readsOne_Class true false [one (ch "B"); one (ch "Q")])).
  { cbn [xorb]. exact He. }
  cbv beta. apply step_seq.
  apply (step_one true (Char (ch "?")) (sameChar true (ch "?")));
    [apply readsOne_Char | reflexivity |].
  cbv beta. apply step_seq, step_group. apply step_seq.
  apply (step_one true _ _ _ _ _ _ _ _ readsOne_word_class Ht0).
  cbv beta.
  apply (step_star true _ _ ts readsOne_word_class Hts); [reflexivity|].
  cbv beta. apply step_seq.
  apply (step_one true (Char (ch "?")) (sameChar true (ch "?")));
    [apply readsOne_Char | reflexivity |].
  cbv beta.
  apply (step_one true (Char (ch "=")) (sameChar true (ch "=")));
    [apply readsOne_Char | reflexivity |].
  f_equal. f_equal.
  - cbn [str list_ascii_of_string map app List.length].
    rewrite !length_app. cbn [List.length]. rewrite !length_app.
    cbn [List.length]. lia.
  - f_equal; [f_equal | f_equal; [f_equal | f_equal; f_equal]].
    + apply (firstn_exact (t0 :: ts)). cbn [List.length]. lia.
    + apply (firstn_exact [encoding]). cbn [List.length]. lia.
    + apply (firstn_exact (c0 :: cs)). cbn [List.length]. lia.
Qed.

Lemma replaceGo_skip (e : RegExp) (f : jsstring -> captures -> jsstring)
      (x : jsstring) :
  forall pos post,
    replaceGo e f (List.length x) pos (x ++ post)
    = replaceGo e f 0 (pos + List.length x) post.
Proof.
  induction x as [|c t IH]; intros pos post.
  - cbn [List.length app]. now rewrite Nat.add_0_r.
  - cbn [List.length app replaceGo]. rewrite IH.
    now rewrite Nat.add_succ_r.
Qed.

(** Before an encoded word: text without the opening mark is passed
    over. *)
Lemma replace_mimeWord_prefix (f : jsstring -> captures -> jsstring)
      (pre : jsstring) :
  includes pre (str "=?") = false ->
  forall rest pos,
    startsWith rest (str "?") = false ->
    replaceGo MIME_WORD_RE f 0 pos (pre ++ rest)
    = pre ++ replaceGo MIME_WORD_RE f 0 (pos + List.length pre) rest.
Proof.
  induction pre as [|c t IH]; intros Hp rest pos Hr.
  - cbn [app List.length]. now rewrite Nat.add_0_r.
  - cbn [includes] in Hp. apply orb_false_elim in Hp. destruct Hp as [H1 H2].
    cbn [app replaceGo]. rewrite mimeWord_no_match.
    + rewrite (IH H2 rest (S pos) Hr). cbn [List.length].
      now rewrite Nat.add_succ_r.
    + change (str "=?") with [ch "="; ch "?"] in *.
      change (str "?") with [ch "?"] in *.
      destruct t as [|d t'].
      2:{ cbn [app startsWith] in *. rewrite startsWith_nil in *. exact H1. }
      cbn [app startsWith] in *.
      destruct rest as [|r0 rest']; [now rewrite andb_false_r|].
      cbn [startsWith] in *. rewrite startsWith_nil, andb_true_r in *.
      rewrite Hr. now rewrite andb_false_r.
Qed.

(** An encoded word between texts without the opening mark is replaced by
    what the callback returns for it. *)
Lemma replace_encodedWord (f : jsstring -> captures -> jsstring)
      (pre post charset text : jsstring) (encoding : Z) :
  charset <> [] -> text <> [] ->
  forallb notQuestion charset = true ->
  forallb notQuestion text = true ->
  inClass true [one (ch "B"); one (ch "Q")] encoding = true ->
  includes pre (str "=?") = false ->
  includes post (str "=?") = false ->
  replaceAll (pre ++ encodedWord charset encoding text ++ post) MIME_WORD_RE f
  = pre
    ++ f (encodedWord charset encoding text)
         [ (3%nat, text); (2%nat, [encoding]); (1%nat, charset) ]
    ++ post.
Proof.
  intros Hc Ht Hpc Hpt He Hpre Hpost. unfold replaceAll.
  rewrite replace_mimeWord_prefix by (exact Hpre || reflexivity).
  f_equal. cbn [Nat.add].
  set (w := encodedWord charset encoding text).
  assert (Hw : exists t, w = ch "=" :: t) by (eexists; reflexivity).
  destruct Hw as [t Hw].
  pose proof (mimeWord_match charset text post encoding (List.length pre)
                             Hc Ht Hpc Hpt He) as Hm.
  fold w in Hm. rewrite Hw in *. cbn [app replaceGo]. cbn [app] in Hm.
  rewrite Hm.
  replace (Nat.eqb (List.length pre + List.length (ch "=" :: t))
                   (List.length pre)) with false
    by (symmetry; apply Nat.eqb_neq; cbn [List.length]; lia).
  replace (List.length pre + List.length (ch "=" :: t) - List.length pre)%nat
    with (List.length (ch "=" :: t)) by lia.
  change (ch "=" :: t ++ post) with ((ch "=" :: t) ++ post).
  rewrite (firstn_exact (ch "=" :: t) post _ eq_refl). f_equal.
  cbn [List.length]. rewrite Nat.sub_succ, Nat.sub_0_r.
  rewrite replaceGo_skip. now apply replace_mimeWord_go.
Qed.

Lemma base64Digit_plain (v : Z) :
  0 <= v < 64 -> notQuestion (base64Digit v) = true.
Proof.
  apply (below_bound (fun v => notQuestion (base64Digit v)) 64 eq_refl).
Qed.

Lemma base64Encode_plain (n : nat) :
  forall bytes,
    (List.length bytes <= n)%nat ->
    forallb isByte bytes = true ->
    forallb notQuestion (base64Encode bytes) = true.
Proof.
  induction n as [|n IH]; intros bytes Hn Hb.
  - destruct bytes; [reflexivity | simpl in Hn; lia].
  - destruct bytes as [|a [|b [|c rest]]]; [reflexivity| | |].
    + cbn [forallb] in Hb. rewrite andb_true_r in Hb.
      apply isByte_range in Hb.
      destruct (digit_ranges a 0 0 Hb) as (R1 & R2 & _); [lia | lia |].
      cbn [base64Encode forallb].
      replace (a mod 4 * 16) with (a mod 4 * 16 + 0 / 16) by (cbn; lia).
      now rewrite !base64Digit_plain.
    + cbn [forallb] in Hb. rewrite andb_true_r in Hb.
      apply andb_prop in Hb. destruct Hb as [Ha Hb].
      apply isByte_range in Ha, Hb.
      destruct (digit_ranges a b 0 Ha Hb) as (R1 & R2 & R3 & _); [lia|].
      cbn [base64Encode forallb].
      replace (b mod 16 * 4) with (b mod 16 * 4 + 0 / 64) by (cbn; lia).
      now rewrite !base64Digit_plain.
    + cbn [forallb] in Hb.
      apply andb_prop in Hb. destruct Hb as [Ha Hb].
      apply andb_prop in Hb. destruct Hb as [Hb Hc].
      apply andb_prop in Hc. destruct Hc as [Hc Hrest].
      apply isByte_range in Ha, Hb, Hc.
      destruct (digit_ranges a b c Ha Hb Hc) as (R1 & R2 & R3 & R4).
      cbn [base64Encode forallb]. rewrite !base64Digit_plain by assumption.
      cbn [andb]. apply IH; [simpl in Hn; lia | exact Hrest].
Qed.

Lemma upper_letter (encoding letter : Z) :
  encoding = letter \/ encoding = letter + 32 ->
  65 <= letter <= 90 ->
  forallb isAscii [encoding] = true /\ map upperUnit [encoding] = [letter].
Proof.
  intros [-> | ->] Hl; cbn [forallb map]; unfold isAscii, upperUnit; split;
    try lia.
  - replace ((97 <=? letter) && (letter <=? 122)) with false by lia.
    reflexivity.
  - replace ((97 <=? letter + 32) && (letter + 32 <=? 122)) with true by lia.
    f_equal. lia.
Qed.

Lemma letter_in_class (encoding letter : Z) :
  encoding = letter \/ encoding = letter + 32 ->
  letter = ch "B" \/ letter = ch "Q" ->
  inClass true [one (ch "B"); one (ch "Q")] encoding = true.
Proof.
  intros [-> | ->] [-> | ->]; reflexivity.
Qed.

(** X29: an encoded word in B encoding that holds ASCII text decodes to
    that text, between surrounding text that is left as it is; the case of
    the encoding letter does not matter. *)
Theorem decodeMimeWord_base64_word
        (pre post charset text : jsstring) (encoding : Z) :
  charset <> [] -> text <> [] ->
  forallb notQuestion charset = true ->
  forallb isAscii text = true ->
  encoding = ch "B" \/ encoding = ch "b" ->
  includes pre (str "=?") = false ->
  includes post (str "=?") = false ->
  decodeMimeWord (pre ++ encodedWord charset encoding (base64Encode text)
                      ++ post)
  = pre ++ text ++ post.
Proof.
  intros Hc Ht Hpc Ha He Hpre Hpost.
  pose proof (ascii_bytes text Ha) as Hb.
  assert (Hne : base64Encode text <> []).
  { destruct text as [|a [|b [|c rest]]]; [congruence| | |]; discriminate. }
  unfold decodeMimeWord.
  rewrite replace_encodedWord;
    [ | exact Hc | exact Hne | exact Hpc
      | exact (base64Encode_plain _ text (Nat.le_refl _) Hb)
      | exact (letter_in_class encoding (ch "B") He (or_introl eq_refl))
      | exact Hpre | exact Hpost ].
  f_equal. f_equal. unfold group. cbn [capture Nat.eqb].
  destruct (upper_letter encoding (ch "B") He) as [Hasc Hup];
    [change (ch "B") with 66; lia|].
  rewrite (toUpperCase_ascii [encoding] Hasc), Hup.
  change (streq [ch "B"] (str "B")) with true. cbv iota.
  unfold tryCatch, ret, Buffer_from_base64.
  rewrite (base64_decode_encode _ text (Nat.le_refl _) Hb).
  rewrite <- (Buffer_from_array_bytes text Hb) at 1. now apply ascii_utf8.
Qed.

Lemma hexDigit_plain (v : Z) :
  0 <= v < 16 ->
  notQuestion (hexDigit v) = true /\ (hexDigit v =? ch "_") = false.
Proof.
  intros Hv. unfold notQuestion, hexDigit.
  change (ch "?") with 63. change (ch "_") with 95.
  destruct (v <? 10) eqn:Hlt; split; lia.
Qed.

Lemma ascii_nibbles (c : Z) :
  isAscii c = true -> 0 <= c / 16 < 16 /\ 0 <= c mod 16 < 16.
Proof.
  unfold isAscii. intros Hc. Z.to_euclidean_division_equations. lia.
Qed.

Lemma qEncode_plain (text : jsstring) :
  forallb isAscii text = true -> forallb notQuestion (qEncode text) = true.
Proof.
  unfold qEncode. induction text as [|c t IH]; intros H; [reflexivity|].
  cbn [forallb] in H. apply andb_prop in H. destruct H as [Hc Ht].
  cbn [flat_map]. rewrite forallb_app, (IH Ht), andb_true_r.
  destruct (ascii_nibbles c Hc) as [N1 N2]. unfold qUnit.
  destruct (c =? ch " "); [reflexivity|].
  destruct ((33 <=? c) && (c <=? 126)
            && negb ((c =? ch "=") || (c =? ch "?") || (c =? ch "_"))) eqn:Hp.
  - cbn [forallb]. unfold notQuestion.
    destruct (c =? ch "?"); [|reflexivity].
    rewrite orb_true_r in Hp. cbn [orb negb] in Hp.
    now rewrite andb_false_r in Hp.
  - cbn [forallb].
    now rewrite (proj1 (hexDigit_plain _ N1)), (proj1 (hexDigit_plain _ N2)).
Qed.

(** The Q branch of the callback on the Q writing of one unit, then of
    ASCII text. *)
Lemma qUnit_expand (c : Z) (rest : jsstring) :
  isAscii c = true ->
  expandEscapes
    (flat_map (fun c => if c =? ch "_" then str " " else [c]) (qUnit c)
     ++ rest)
  = c :: expandEscapes rest.
Proof.
  intros Hc. destruct (ascii_nibbles c Hc) as [N1 N2]. unfold qUnit.
  destruct (c =? ch " ") eqn:Hs.
  { apply Z.eqb_eq in Hs. subst c. cbn [flat_map app].
    change (ch "_" =? ch "_") with true. cbv iota.
    change (str " ") with [ch " "]. cbn [app].
    now rewrite expandEscapes_literal by reflexivity. }
  destruct ((33 <=? c) && (c <=? 126)
            && negb ((c =? ch "=") || (c =? ch "?") || (c =? ch "_"))) eqn:Hp.
  - apply andb_prop in Hp. destruct Hp as [_ Hp].
    destruct (c =? ch "=") eqn:He; [discriminate|].
    destruct (c =? ch "?") eqn:Hq; [discriminate|].
    destruct (c =? ch "_") eqn:Hu; [discriminate|].
    cbn [flat_map app]. rewrite Hu. cbn [app].
    now rewrite expandEscapes_literal by exact He.
  - cbn [flat_map app].
    change (ch "=" =? ch "_") with false. cbv iota.
    rewrite (proj2 (hexDigit_plain _ N1)), (proj2 (hexDigit_plain _ N2)).
    cbn [app]. rewrite expandEscapes_cons3, Z.eqb_refl.
    rewrite (hexValue_hexDigit _ N1), (hexValue_hexDigit _ N2).
    f_equal. unfold isAscii in Hc. rewrite (Z.div_mod c 16) at 3 by lia.
    reflexivity.
Qed.

Lemma qEncode_expand (text : jsstring) :
  forallb isAscii text = true ->
  expandEscapes
    (flat_map (fun c => if c =? ch "_" then str " " else [c]) (qEncode text))
  = text.
Proof.
  unfold qEncode. induction text as [|c t IH]; intros H; [reflexivity|].
  cbn [forallb] in H. apply andb_prop in H. destruct H as [Hc Ht].
  cbn [flat_map]. rewrite flat_map_app, (qUnit_expand c _ Hc).
  now rewrite (IH Ht).
Qed.

(** X30: an encoded word in Q encoding that holds ASCII text decodes to
    that text, between surrounding text that is left as it is: underscores
    give spaces and the escapes give their bytes. *)
Theorem decodeMimeWord_q_word
        (pre post charset text : jsstring) (encoding : Z) :
  charset <> [] -> text <> [] ->
  forallb notQuestion charset = true ->
  forallb isAscii text = true ->
  encoding = ch "Q" \/ encoding = ch "q" ->
  includes pre (str "=?") = false ->
  includes post (str "=?") = false ->
  decodeMimeWord (pre ++ encodedWord charset encoding (qEncode text) ++ post)
  = pre ++ text ++ post.
Proof.
  intros Hc Ht Hpc Ha He Hpre Hpost.
  assert (Hne : qEncode text <> []).
  { destruct text as [|c t]; [congruence|]. unfold qEncode, qUnit.
    cbn [flat_map]. destruct (c =? ch " "); [discriminate|].
    destruct (_ && _); discriminate. }
  unfold decodeMimeWord.
  rewrite replace_encodedWord;
    [ | exact Hc | exact Hne | exact Hpc | exact (qEncode_plain text Ha)
      | exact (letter_in_class encoding (ch "Q") He (or_intror eq_refl))
      | exact Hpre | exact Hpost ].
  f_equal. f_equal. unfold group. cbn [capture Nat.eqb].
  destruct (upper_letter encoding (ch "Q") He) as [Hasc Hup];
    [change (ch "Q") with 81; lia|].
  rewrite (toUpperCase_ascii [encoding] Hasc), Hup.
  change (streq [ch "Q"] (str "B")) with false.
  change (streq [ch "Q"] (str "Q")) with true. cbv iota.
  unfold tryCatch, ret, replaceAll, UNDERSCORE_RE.
  rewrite replace_char, escapeBytes_spec, (qEncode_expand text Ha).
  now apply ascii_utf8.
Qed.

End Properties.

(** *** Evaluations on the sample documents *)

(** The model on the examples of the description. *)
Example nested_multipart_message :
  parseEml mailNested = inr mailNestedResult.
Proof. vm_compute. reflexivity. Qed.

Example mime_word_subject :
  decodeMimeWord (str "=?UTF-8?B?SGVsbG8=?=") = str "Hello".
Proof. vm_compute. reflexivity. Qed.

Example quoted_printable_split_character :
  decodeQuotedPrintable (str "caf=C3=" ++ crlf ++ str "=A9 ok")
  = str "caf" ++ [233] ++ str " ok".
Proof. vm_compute. reflexivity. Qed.

Example base64_raw_bytes :
  decodeContentToBuffer (str "/+8A" ++ nl ++ str "gA==") (str "base64")
  = [255; 239; 0; 128].
Proof. vm_compute. reflexivity. Qed.

Example percent_decoding :
  decodeURIComponent (str "a%20b%C3%A9.pdf")
  = inr (str "a b" ++ [233] ++ str ".pdf")
  /\ decodeURIComponent (str "50%") = inl URIError
  /\ decodeURIComponent (str "%C3%28") = inl URIError.
Proof. repeat split; vm_compute; reflexivity. Qed.

(** A URL with surrounding blanks and capitals passes the check and comes
    back as it was given. *)
Lemma sanitizeUrl_allow_list_witness :
  sanitizeUrl (str "  HTTPS://Example.com ") = str "  HTTPS://Example.com ".
Proof.
  apply (proj1 sanitizeUrl_allow_list). reflexivity.
Defined.

(** A cid: URL written with leading blanks and capitals comes back with
    them. *)
Lemma sanitizeUrl_unchanged_or_empty_witness :
  sanitizeUrl (str "  CID:Image1") = str "  CID:Image1".
Proof.
  apply (proj1 (proj2 sanitizeUrl_unchanged_or_empty)). reflexivity.
Defined.

(** C1 does not hold of the code: a percent sign in a filename parameter that
    starts no escape makes decodeURIComponent throw inside getFilename, and
    nothing between there and the caller of parseEml catches it. *)
Theorem parseEml_throws_on_percent_filename :
  getFilename
    [ (str "content-disposition", str "attachment; filename=100%.pdf") ]
  = inl URIError
  /\ parseEml mailBadFilename = inl URIError.
Proof. split; vm_compute; reflexivity. Qed.

(** C4 does not hold of the code: the Date constructor does not throw on text
    that is no date, so the catch clause is never entered and, whatever the
    text of a Date header that is present and not empty, the date field holds
    a Date object, not null. *)
Theorem parseEml_invalid_date_is_not_null :
  (forall headers dateStr,
      Map_get (str "date") headers = Some dateStr ->
      truthy dateStr = true ->
      parseDate headers = Some (NewDate dateStr))
  /\ parseEml mailInvalidDate
     = inr {| from := []; to := []; cc := []; bcc := [];
              subject := str "x";
              date := Some (NewDate (str "not a date"));
              messageId := [];
              textBody := str "body"; htmlBody := []; attachments := [] |}.
Proof.
  split; [exact parseDate_present|]. vm_compute. reflexivity.
Qed.

(** C2 as stated fails, in four ways.  A text/plain part that declares a
    filename and has the disposition attachment is taken for the text body
    and not added to the attachments.  A pdf part with a filename, the
    disposition attachment and no content reaches parseMimePart as its
    header block alone and is dropped.  A text/calendar part without a
    filename whose disposition is inline, with the word attachment in a
    parameter, is added.  The same part with the disposition type
    attachment written in capitals is dropped. *)
Lemma attachment_rule_fails :
  (option_map (fun hb => getFilename (parseHeaders (fst hb)))
              (headerAndBody partTextAttachment)
   = Some (inr (Some (str "notes.txt")))
   /\ declared (Some (str "notes.txt")) = true
   /\ parseMimePart partTextAttachment emptyEmail
      = inr (set_textBody emptyEmail (str "some notes"))
   /\ attachments (set_textBody emptyEmail (str "some notes")) = [])
  /\ (documentParts mailEmptyAttachment = [ partHeaderOnly ]
      /\ getFilename (parseHeaders partHeaderOnly)
         = inr (Some (str "empty.pdf"))
      /\ dispositionType
           (orElse (Map_get (str "content-disposition")
                            (parseHeaders partHeaderOnly)) [])
         = str "attachment"
      /\ getContentType (parseHeaders partHeaderOnly) = str "application/pdf"
      /\ headerAndBody partHeaderOnly = None
      /\ parseMimePart partHeaderOnly emptyEmail = inr emptyEmail
      /\ parseEml mailEmptyAttachment = inr emptyEmail)
  /\ (option_map
        (fun hb =>
           let headers := parseHeaders (fst hb) in
           (getFilename headers,
            dispositionType
              (orElse (Map_get (str "content-disposition") headers) []),
            getContentType headers))
        (headerAndBody partInlineNote)
      = Some (inr None, str "inline", str "text/calendar")
      /\ parseMimePart partInlineNote emptyEmail
         = inr (push_attachment emptyEmail
                  {| filename := str "attachment_1";
                     contentType := str "text/calendar";
                     content := str "BEGIN:VCALENDAR";
                     contentId := None |}))
  /\ (option_map
        (fun hb =>
           let headers := parseHeaders (fst hb) in
           (getFilename headers,
            dispositionType
              (orElse (Map_get (str "content-disposition") headers) []),
            getContentType headers))
        (headerAndBody partUpperDisposition)
      = Some (inr None, str "attachment", str "text/calendar")
      /\ parseMimePart partUpperDisposition emptyEmail = inr emptyEmail).
Proof.
  repeat match goal with |- _ /\ _ => split end; vm_compute; reflexivity.
Qed.

(** A binary part without a name is added. *)
Lemma leaf_attachment_rule_witness :
  exists r',
    parseMimePart partBinary emptyEmail = inr r'
    /\ ((exists a, attachments r' = attachments emptyEmail ++ [a])
        <-> attachmentRule None
              (orElse (Map_get (str "content-disposition")
                               (parseHeaders partBinaryHeader)) [])
              (getContentType (parseHeaders partBinaryHeader)))
    /\ (~ attachmentRule None
          (orElse (Map_get (str "content-disposition")
                           (parseHeaders partBinaryHeader)) [])
          (getContentType (parseHeaders partBinaryHeader)) ->
        r' = emptyEmail).
Proof.
  refine (proj2 (proj2 (proj2 (leaf_attachment_rule partBinary emptyEmail)
                                partBinaryHeader (str "DATA") _ _) _)
                None _);
    vm_compute; reflexivity.
Defined.






(** The Content-ID of the binary sample part loses its brackets. *)
Lemma attachment_contentId_stripped_witness :
  contentId attachmentBinary
  = option_map (filter (fun c => negb (isAngle c)))
               (Map_get (str "content-id") (leafHeaders leafBinary)).
Proof.
  apply (attachment_contentId_stripped
           leafBinary emptyEmail
           (push_attachment emptyEmail attachmentBinary));
    vm_compute; reflexivity.
Defined.

(** The exception of the first sample comes from the filename parameter of
    its pdf part. *)
Lemma parseEml_throws_only_in_getFilename_witness :
  exists pre l post m,
    walk mailBadFilename = pre ++ l :: post
    /\ Forall quiet pre
    /\ notText l = true
    /\ exec (orElse (Map_get (str "content-disposition") (leafHeaders l)) [])
            FILENAME_RE = Some m
    /\ decodeURIComponent (group 1 m) = inl URIError.
Proof.
  apply (proj1 (parseEml_throws_only_in_getFilename mailBadFilename URIError)).
  vm_compute. reflexivity.
Defined.

(** A header block that is never closed by a blank line. *)
Lemma parseEml_without_separator_witness :
  parseEml (str "Subject: no blank line here") = inr emptyEmail.
Proof. apply parseEml_without_separator; reflexivity. Defined.

(** A folder next to the attachments folder passes the test. *)
Lemma absolute_folder_is_a_prefix_test_witness :
  isInAttachmentsFolder (Some (str "attachments"))
                        (str "attachments-old/mail.eml")
  = startsWith (str "attachments-old/mail.eml") (str "attachments").
Proof. apply absolute_folder_is_a_prefix_test; reflexivity. Defined.

Lemma parse_format_round_trip_witness :
  parseEmailAddresses (formatEmailAddresses addressBook) = addressBook.
Proof.
  apply parse_format_round_trip.
  repeat apply Forall_cons; [| |apply Forall_nil];
    repeat split; try reflexivity; discriminate.
Defined.

Lemma decodeMimeWord_plain_witness :
  decodeMimeWord (str "Re: 2 + 2 = 4?") = str "Re: 2 + 2 = 4?".
Proof. apply decodeMimeWord_plain. reflexivity. Defined.

(** The bytes of the word cafe with its accent in UTF-8, an equals sign and
    a line feed. *)
Lemma quotedPrintable_round_trip_witness :
  decodeContentToBuffer
    (quotedPrintableEncode [99; 97; 102; 195; 169; 61; 10])
    (str "quoted-printable")
  = [99; 97; 102; 195; 169; 61; 10].
Proof. apply quotedPrintable_round_trip. reflexivity. Defined.

(** Four bytes written on two lines. *)
Lemma base64_round_trip_witness :
  decodeContentToBuffer (str "/+8A" ++ crlf ++ str "gA==") (str "base64")
  = [255; 239; 0; 128].
Proof. apply base64_round_trip; reflexivity. Defined.

Lemma decodeContent_plain_text_witness :
  decodeContent (str "plain text") (str "quoted-printable") = str "plain text".
Proof. apply decodeContent_plain_text; reflexivity. Defined.

Lemma extractBoundary_nonempty_witness :
  str "OUT" <> [] /\ forallb boundaryUnit (str "OUT") = true.
Proof.
  apply (extractBoundary_nonempty (str "multipart/mixed; boundary=OUT")).
  reflexivity.
Defined.

(** The parts of the nested sample message carry headers of their own; the
    envelope is that of the first header block. *)
Lemma parts_leave_envelope_witness :
  envelope mailNestedResult
  = envelope (headerFields (parseHeaders mailNestedHeader)).
Proof.
  eapply (parts_leave_envelope mailNested mailNestedHeader);
    vm_compute; reflexivity.
Defined.

Lemma attachments_bounded_witness :
  (List.length (attachments mailNestedResult)
   <= List.length (filter notText (walk mailNested)))%nat
  /\ (isMultipart mailNested = false -> attachments mailNestedResult = []).
Proof.
  apply (attachments_bounded mailNested). vm_compute. reflexivity.
Defined.

Lemma formatDate_default_witness :
  @formatDate sampleClock DEFAULT_dateFormat
              (Some (NewDate (str "Tue, 5 Mar 2024 09:07:30 +0000")))
  = str "2024-03-05 09:07".
Proof.
  apply (@formatDate_default sampleClock _ 1709629650000). reflexivity.
Defined.

(** The Content-ID key of the link map of the nested sample message. *)
Lemma saveAttachments_links_witness :
  exists a,
    In a (attachments mailNestedResult)
    /\ Z.of_nat (List.length (content a)) <= MAX_ATTACHMENT_SIZE
    /\ linkOf (str "mail") a (str "cid:abc123", str "mail_attachment_1").
Proof.
  eapply (@saveAttachments_links _ listVault mailNestedResult (str "mail")
                                 (str "attachments") []);
    [vm_compute; reflexivity | right; left; reflexivity].
Defined.

Lemma attachment_list_is_bounded_witness :
  (List.length (generateAttachmentList mailNestedLinks)
   <= 3 + List.length (attachments mailNestedResult))%nat.
Proof.
  eapply (@attachment_list_is_bounded _ _ listVault mailNestedResult
                                      (str "mail") (str "attachments") []).
  vm_compute. reflexivity.
Defined.

Lemma attachmentLine_by_extension_witness :
  attachmentLine (str "mail_photo.PNG") = str "- ![[mail_photo.PNG]]".
Proof.
  apply (attachmentLine_by_extension (str "mail_photo") (str "PNG"));
    reflexivity.
Defined.

Lemma listVault_keeps_folders (v v' : list jsstring) (p : jsstring) :
  @createFolder _ listVault v p = (v', true) ->
  @getAbstractFileByPath _ listVault v' p = true.
Proof.
  intros H. injection H as <-. cbn [getAbstractFileByPath listVault existsb].
  now rewrite (proj2 (streq_eq p p) eq_refl).
Qed.

(** Two folders are created in an empty vault. *)
Lemma ensureFolderExists_creates_witness :
  @getAbstractFileByPath _ listVault
     [str "mail/attachments"; str "mail"]
     (@normalizePath _ listVault (str "mail/attachments"))
  = true.
Proof.
  apply (@ensureFolderExists_creates _ listVault listVault_keeps_folders
                                     [] _ (str "mail/attachments"));
    reflexivity.
Defined.

(** The word Hello on two lines. *)
Lemma base64_text_round_trip_witness :
  decodeContent (str "SGVs" ++ crlf ++ str "bG8=") (str "base64")
  = str "Hello".
Proof. apply (base64_text_round_trip (str "Hello")); reflexivity. Defined.

(** A part with one header that is neither of the two. *)
Lemma part_without_type_is_plain_text_witness :
  parseMimePart (str "X-Note: none" ++ nl ++ nl ++ str "hello") emptyEmail
  = inr (set_textBody emptyEmail (str "hello")).
Proof.
  apply (part_without_type_is_plain_text _ (str "X-Note: none") (str "hello")
                                         emptyEmail);
    vm_compute; reflexivity.
Defined.

(** An encoded word with a lower-case encoding letter inside a subject. *)
Lemma decodeMimeWord_base64_word_witness :
  decodeMimeWord (str "Re: =?UTF-8?b?SGVsbG8=?= there")
  = str "Re: Hello there".
Proof.
  apply (decodeMimeWord_base64_word (str "Re: ") (str " there") (str "UTF-8")
                                    (str "Hello") (ch "b"));
    first [discriminate | reflexivity | (right; reflexivity)].
Defined.

(** A space and an equals sign in Q encoding. *)
Lemma decodeMimeWord_q_word_witness :
  decodeMimeWord (str "=?iso-8859-1?Q?a_b=3D?=") = str "a b=".
Proof.
  apply (decodeMimeWord_q_word [] [] (str "iso-8859-1") (str "a b=")
                               (ch "Q"));
    first [discriminate | reflexivity | (left; reflexivity)].
Defined.

End Eml.
